(** * APIService (src/api.js): request pipeline, cache, rate limiting, retries

    A shallow embedding of the [APIService] class.  Methods that touch
    [this] or the platform (clock, timers, [fetch], console) are written in
    a small state-and-exception monad over the pair (client, world).

    Modelling conventions:
    - JS numbers that the class uses as counts and millisecond values are [Z];
      an absent property ([undefined]/[null]) is [None]; JS truthiness is
      written out ([None], [Some 0] and [Some ""] are falsy).
    - [Map] objects whose iteration order is observable ([cache], through
      [getCacheStats().keys]) are insertion-ordered association lists; the
      [cacheTimers] map, whose order is never observed, is a [gmap], and so
      is the platform's table of pending timers.
    - Interceptors are caller code: functions on descriptors, envelopes and
      errors that return a value or throw; they do not touch the client.
    - [fetch] is an oracle indexed by the number of calls made so far; it
      gives the time the call takes and its outcome (a response, or a thrown
      error: network failure, abort).  [JSON.stringify] and
      [URLSearchParams] are parameters too; the latter may throw (it does
      for an array that does not hold pairs).
    - Time passes where a method is suspended on the transport or on the
      backoff delay; the timer callbacks that come due then run.  The other
      [await]s take no time, and two calls of [request] are not interleaved.
    - Timers are Node's: [setTimeout] runs with the delay it is given when
      that lies between 1 and 2^31 - 1 ms, and with 1 ms otherwise.
    - The attempt number of [retryRequest], which [request] starts at 0 and
      the recursion increments, is a [nat].
    - [toUpperCase] is the ASCII one.
    - Template-literal messages are kept structured ([Message]). *)

From Stdlib Require Import ZArith String Ascii List Bool Lia.
From stdpp Require Import gmap strings list fin_maps.
Import ListNotations.

#[local] Set Warnings "-register-all".
#[local] Open Scope string_scope.
#[local] Open Scope list_scope.
#[local] Open Scope Z_scope.

(** ** JS strings *)

Definition upper_ascii (c : ascii) : ascii :=
  let n := nat_of_ascii c in
  if ((97 <=? n) && (n <=? 122))%nat then ascii_of_nat (n - 32) else c.

(** [String.prototype.toUpperCase], on ASCII letters. *)
Fixpoint toUpperCase (s : string) : string :=
  match s with
  | EmptyString => EmptyString
  | String c s' => String (upper_ascii c) (toUpperCase s')
  end.

(** [s.startsWith(p)] *)
Definition startsWith (p s : string) : bool := String.prefix p s.

(** [s.includes(sub)] *)
Definition includes (sub s : string) : bool :=
  match String.index 0 sub s with Some _ => true | None => false end.

(** ** JSON values, as produced by [response.json()] or passed by callers *)

Inductive Json : Type :=
| JNull
| JBool (b : bool)
| JNum (n : Z)
| JStr (s : string)
| JArr (items : list Json)
| JObj (fields : list (string * Json)).

(** JS truthiness of a JSON value. *)
Definition truthy (j : Json) : bool :=
  match j with
  | JNull => false
  | JBool b => b
  | JNum n => negb (n =? 0)
  | JStr s => negb (String.eqb s "")
  | JArr _ | JObj _ => true
  end.

(** ** Insertion-ordered maps: JS [Map] and plain objects with string keys *)

Module JsMap.
Section Ops.
Context {V : Type}.

Fixpoint get (k : string) (m : list (string * V)) : option V :=
  match m with
  | [] => None
  | (k', v) :: m' => if String.eqb k' k then Some v else get k m'
  end.

Definition has (k : string) (m : list (string * V)) : bool :=
  match get k m with Some _ => true | None => false end.

(** [set] keeps the position of an existing key and appends a new one. *)
Fixpoint set (k : string) (v : V) (m : list (string * V)) : list (string * V) :=
  match m with
  | [] => [(k, v)]
  | (k', v') :: m' =>
      if String.eqb k' k then (k, v) :: m' else (k', v') :: set k v m'
  end.

Definition delete (k : string) (m : list (string * V)) : list (string * V) :=
  List.filter (fun p => negb (String.eqb (fst p) k)) m.

Definition keys (m : list (string * V)) : list string := List.map fst m.
Definition values (m : list (string * V)) : list V := List.map snd m.
Definition size (m : list (string * V)) : Z := Z.of_nat (length m).

(** Object spread [{...a, ...b}]. *)
Definition spread (a b : list (string * V)) : list (string * V) :=
  fold_left (fun acc p => set (fst p) (snd p) acc) b a.
End Ops.
End JsMap.

(** ** Data of the request pipeline *)

Definition Headers := list (string * string).

(** A parsed response body: [response.json()], [.text()] or [.blob()]. *)
Inductive Data : Type :=
| DJson (j : Json)
| DText (s : string)
| DBlob (bytes : list Z).

(** The text of an [Error]; template literals keep their holes. *)
Inductive Message : Type :=
| MsgOfValue (v : Json)                 (* new Error(data.message) *)
| MsgHttpError (status : Z)             (* `HTTP Error: ${status}` *)
| MsgRateLimit (seconds : option Z)     (* `Rate limit exceeded. Please wait ${n} seconds.`; None is NaN *)
| MsgTypeError                          (* reading a property of null *)
| MsgText (s : string).

(** A thrown error object; [e_status] is [None] when it has no [status]. *)
Record JsError : Type := mkError {
  e_message : Message;
  e_status : option Z;
  e_data : option Data;
  e_headers : option Headers
}.

Definition plain_error (m : Message) : JsError :=
  {| e_message := m; e_status := None; e_data := None; e_headers := None |}.

Inductive Res (A : Type) : Type :=
| Ok (a : A)
| Throw (e : JsError).
Arguments Ok {A} a.
Arguments Throw {A} e.

Definition res_bind {A B} (r : Res A) (k : A -> Res B) : Res B :=
  match r with Ok a => k a | Throw e => Throw e end.

Definition res_map {A B} (f : A -> B) (r : Res A) : Res B :=
  res_bind r (fun a => Ok (f a)).

(** What [fetch] resolves to.  Header names are lower-case, as [Headers]
    normalises them; reading the body may throw. *)
Record Response : Type := mkResponse {
  r_status : Z;
  r_statusText : string;
  r_headers : Headers;
  r_json : Res Json;
  r_text : Res string;
  r_blob : Res (list Z)
}.

(** [response.ok] *)
Definition r_ok (r : Response) : bool := (200 <=? r_status r) && (r_status r <=? 299).

(** The success envelope built by [handleResponse]. *)
Record Envelope : Type := mkEnvelope {
  status : Z;
  statusText : string;
  headers : Headers;
  data : Data;
  fromCache : bool
}.

(** The per-call options object. [cfg_cache] is [Some false] only when the
    caller wrote [cache: false]; [cfg_cacheTTL] is [None] when the caller
    gave no [cacheTTL]. *)
Record Config : Type := mkConfig {
  cfg_method : option string;
  cfg_headers : Headers;
  cfg_data : option Json;
  cfg_params : option Json;
  cfg_cache : option bool;
  cfg_cacheTTL : option Z
}.

Definition emptyConfig : Config :=
  {| cfg_method := None; cfg_headers := []; cfg_data := None;
     cfg_params := None; cfg_cache := None; cfg_cacheTTL := None |}.

(** The descriptor handed to the request interceptors and to [fetch]. *)
Record ReqDesc : Type := mkReqDesc {
  d_url : string;
  d_method : string;
  d_headers : Headers;
  d_signal : nat;                 (* timer behind the abort signal *)
  d_body : option string;
  d_originalConfig : Config
}.

Record AuthToken : Type := mkAuthToken { token : string; type : string }.

Record RateLimitConfig : Type := mkRateLimit { maxRequests : Z; windowMs : Z }.

Record Client : Type := mkClient {
  baseURL : string;
  timeout : Z;
  maxRetries : Z;
  retryDelay : Z;
  cacheTTL : Z;
  authToken : option AuthToken;
  refreshToken : option string;
  tokenExpiryTime : option Z;
  requestInterceptors : list (ReqDesc -> Res ReqDesc);
  responseInterceptors : list (Envelope -> Res Envelope);
  errorInterceptors : list (JsError -> Res JsError);
  cache : list (string * Envelope);
  cacheTimers : gmap string nat;
  rateLimitConfig : RateLimitConfig;
  requestTimestamps : list Z
}.

(** ** The platform: clock, timers, console, call counter *)

Inductive TimerAction : Type :=
| TExpire (key : string)    (* the expiry callback of [setCache] *)
| TAbort.                   (* [controller.abort()] of [createAbortSignal] *)

#[global] Instance TimerAction_eq_dec : EqDecision TimerAction.
Proof. solve_decision. Defined.

Inductive Event : Type :=
| EvWarn (msg : string)
| EvRequestInterceptor (i : nat)
| EvResponseInterceptor (i : nat)
| EvErrorInterceptor (i : nat)
| EvFetch (n : nat) (url : string)
| EvDelay (ms : Z)
| EvExpire (key : string).

Record World : Type := mkWorld {
  now : Z;                               (* Date.now() *)
  timers : gmap nat (Z * TimerAction);   (* pending setTimeout callbacks: due time, action *)
  nextTimer : nat;
  fetches : nat;                         (* calls made to fetch so far *)
  trace : list Event                     (* observable effects, oldest first *)
}.

(** ** Field updates *)

Definition set_auth (a : option AuthToken) (r : option string) (x : option Z)
    (c : Client) : Client :=
  mkClient (baseURL c) (timeout c) (maxRetries c) (retryDelay c) (cacheTTL c)
    a r x
    (requestInterceptors c) (responseInterceptors c) (errorInterceptors c)
    (cache c) (cacheTimers c) (rateLimitConfig c) (requestTimestamps c).

Definition set_interceptors
    (rq : list (ReqDesc -> Res ReqDesc)) (rs : list (Envelope -> Res Envelope))
    (er : list (JsError -> Res JsError)) (c : Client) : Client :=
  mkClient (baseURL c) (timeout c) (maxRetries c) (retryDelay c) (cacheTTL c)
    (authToken c) (refreshToken c) (tokenExpiryTime c)
    rq rs er
    (cache c) (cacheTimers c) (rateLimitConfig c) (requestTimestamps c).

Definition set_cache (m : list (string * Envelope)) (c : Client) : Client :=
  mkClient (baseURL c) (timeout c) (maxRetries c) (retryDelay c) (cacheTTL c)
    (authToken c) (refreshToken c) (tokenExpiryTime c)
    (requestInterceptors c) (responseInterceptors c) (errorInterceptors c)
    m (cacheTimers c) (rateLimitConfig c) (requestTimestamps c).

Definition set_cacheTimers (t : gmap string nat) (c : Client) : Client :=
  mkClient (baseURL c) (timeout c) (maxRetries c) (retryDelay c) (cacheTTL c)
    (authToken c) (refreshToken c) (tokenExpiryTime c)
    (requestInterceptors c) (responseInterceptors c) (errorInterceptors c)
    (cache c) t (rateLimitConfig c) (requestTimestamps c).

Definition set_requestTimestamps (ts : list Z) (c : Client) : Client :=
  mkClient (baseURL c) (timeout c) (maxRetries c) (retryDelay c) (cacheTTL c)
    (authToken c) (refreshToken c) (tokenExpiryTime c)
    (requestInterceptors c) (responseInterceptors c) (errorInterceptors c)
    (cache c) (cacheTimers c) (rateLimitConfig c) ts.

Definition set_timers (t : gmap nat (Z * TimerAction)) (w : World) : World :=
  mkWorld (now w) t (nextTimer w) (fetches w) (trace w).

(** ** The monad of methods: state (client, world) and exceptions *)

Definition M (A : Type) : Type := Client -> World -> Res A * Client * World.

Definition ret {A} (a : A) : M A := fun c w => (Ok a, c, w).
Definition throw {A} (e : JsError) : M A := fun c w => (Throw e, c, w).

Definition bind {A B} (m : M A) (k : A -> M B) : M B :=
  fun c w =>
    match m c w with
    | (Ok a, c', w') => k a c' w'
    | (Throw e, c', w') => (Throw e, c', w')
    end.

(** [try { m } catch (e) { h e }] *)
Definition try_catch {A} (m : M A) (h : JsError -> M A) : M A :=
  fun c w =>
    match m c w with
    | (Ok a, c', w') => (Ok a, c', w')
    | (Throw e, c', w') => h e c' w'
    end.

Definition lift {A} (r : Res A) : M A := fun c w => (r, c, w).
Definition this : M Client := fun c w => (Ok c, c, w).
Definition modify (f : Client -> Client) : M unit := fun c w => (Ok tt, f c, w).
Definition Date_now : M Z := fun c w => (Ok (now w), c, w).
Definition emit (e : Event) : M unit :=
  fun c w => (Ok tt, c, mkWorld (now w) (timers w) (nextTimer w) (fetches w) (trace w ++ [e])).

Notation "'let!' x ':=' m 'in' k" := (bind m (fun x => k))
  (at level 10, x pattern, m at level 100, k at level 200).
Notation "m ';;' k" := (bind m (fun _ => k))
  (at level 100, k at level 200, right associativity).

Definition when (b : bool) (m : M unit) : M unit := if b then m else ret tt.

(** ** Timers *)

(** The largest delay a timer takes, [2^31 - 1] ms. *)
Definition TIMEOUT_MAX : Z := 2147483647.

(** The delay a timer runs with: a delay outside [1 .. TIMEOUT_MAX] is
    replaced by 1. *)
Definition timer_delay (ms : Z) : Z :=
  if (1 <=? ms) && (ms <=? TIMEOUT_MAX) then ms else 1.

(** [setTimeout(action, ms)]: returns the timer id. *)
Definition setTimeout (a : TimerAction) (ms : Z) : M nat :=
  fun c w =>
    let id := nextTimer w in
    (Ok id, c,
     mkWorld (now w) (<[id := (now w + timer_delay ms, a)]> (timers w)) (S id)
             (fetches w) (trace w)).

Definition clearTimeout (id : nat) : M unit :=
  fun c w => (Ok tt, c, set_timers (delete id (timers w)) w).

(** What a timer callback does to the client when it runs. *)
Definition run_action (a : TimerAction) (c : Client) : Client :=
  match a with
  | TExpire k =>
      set_cacheTimers (delete k (cacheTimers c))
        (set_cache (JsMap.delete k (cache c)) c)
  | TAbort => c
  end.

Definition action_event (a : TimerAction) : list Event :=
  match a with TExpire k => [EvExpire k] | TAbort => [] end.

Definition is_due (t : Z) (p : nat * (Z * TimerAction)) : bool := fst (snd p) <=? t.

(** The callbacks that are due at instant [t]. *)
Definition due_actions (t : Z) (tm : gmap nat (Z * TimerAction)) : list TimerAction :=
  List.map (fun p => snd (snd p)) (List.filter (is_due t) (map_to_list tm)).

(** Time passes while the caller is suspended: the clock moves by [ms] and
    every callback that has come due runs and leaves the timer table. *)
Definition advance (ms : Z) : M unit :=
  fun c w =>
    let t := now w + Z.max 0 ms in
    let acts := due_actions t (timers w) in
    (Ok tt,
     fold_left (fun acc a => run_action a acc) acts c,
     mkWorld t (filter (fun p => ~ (fst (snd p) <= t)) (timers w)) (nextTimer w)
             (fetches w) (trace w ++ concat (List.map action_event acts))).

(** [await new Promise(resolve => setTimeout(resolve, ms))]: the delay asked
    for is logged, the caller is suspended for the delay the timer runs
    with. *)
Definition sleep (ms : Z) : M unit := emit (EvDelay ms) ;; advance (timer_delay ms).

(** ** The class *)

(** The constructor's [config] argument. *)
Record Options : Type := mkOptions {
  o_baseURL : option string;
  o_timeout : option Z;
  o_maxRetries : option Z;
  o_retryDelay : option Z;
  o_cacheTTL : option Z;
  o_authToken : option AuthToken;
  o_refreshToken : option string;
  o_rateLimit : option RateLimitConfig
}.

(** [x || d] on numbers: [undefined] and [0] give the default. *)
Definition num_or (x : option Z) (d : Z) : Z :=
  match x with
  | Some n => if n =? 0 then d else n
  | None => d
  end.

(** Truthiness of an optional string. *)
Definition str_truthy (x : option string) : bool :=
  match x with
  | Some s => negb (String.eqb s "")
  | None => false
  end.

Definition constructor (config : Options) : Client :=
  {| baseURL := match o_baseURL config with Some s => s | None => "" end;
     timeout := num_or (o_timeout config) 30000;
     maxRetries := num_or (o_maxRetries config) 3;
     retryDelay := num_or (o_retryDelay config) 1000;
     cacheTTL := num_or (o_cacheTTL config) 300000;
     authToken := o_authToken config;
     refreshToken := if str_truthy (o_refreshToken config) then o_refreshToken config else None;
     tokenExpiryTime := None;
     requestInterceptors := [];
     responseInterceptors := [];
     errorInterceptors := [];
     cache := [];
     cacheTimers := ∅;
     rateLimitConfig :=
       match o_rateLimit config with
       | Some r => r
       | None => {| maxRequests := 100; windowMs := 60000 |}
       end;
     requestTimestamps := [] |}.

Definition setAuthToken (tok : string) (ty : option string) : M unit :=
  modify (fun c =>
    set_auth (Some {| token := tok; type := match ty with Some t => t | None => "Bearer" end |})
             (refreshToken c) (tokenExpiryTime c) c).

Definition setRefreshToken (rt : string) (expiryTime : option Z) : M unit :=
  let! t := Date_now in
  modify (fun c =>
    set_auth (authToken c) (Some rt)
             (Some (t + match expiryTime with Some e => e | None => 3600000 end)) c).

Definition isTokenExpired : M bool :=
  let! c := this in
  match tokenExpiryTime c with
  | None => ret false
  | Some t =>
      if t =? 0 then ret false
      else let! n := Date_now in ret (t - 60000 <? n)
  end.

Definition addRequestInterceptor (callback : ReqDesc -> Res ReqDesc) : M unit :=
  modify (fun c =>
    set_interceptors (requestInterceptors c ++ [callback])
                     (responseInterceptors c) (errorInterceptors c) c).

Definition addResponseInterceptor (callback : Envelope -> Res Envelope) : M unit :=
  modify (fun c =>
    set_interceptors (requestInterceptors c)
                     (responseInterceptors c ++ [callback]) (errorInterceptors c) c).

Definition addErrorInterceptor (callback : JsError -> Res JsError) : M unit :=
  modify (fun c =>
    set_interceptors (requestInterceptors c) (responseInterceptors c)
                     (errorInterceptors c ++ [callback]) c).

(** [for (const interceptor of list) { x = await interceptor(x); }]; the
    event records that the interceptor at position [i] was called. *)
Fixpoint run_chain {A} (ev : nat -> Event) (i : nat) (l : list (A -> Res A)) (x : A) : M A :=
  match l with
  | [] => ret x
  | f :: l' =>
      emit (ev i) ;;
      let! y := lift (f x) in
      run_chain ev (S i) l' y
  end.

Definition executeRequestInterceptors (config : ReqDesc) : M ReqDesc :=
  let! c := this in run_chain EvRequestInterceptor 0 (requestInterceptors c) config.

Definition executeResponseInterceptors (response : Envelope) : M Envelope :=
  let! c := this in run_chain EvResponseInterceptor 0 (responseInterceptors c) response.

Definition executeErrorInterceptors (error : JsError) : M JsError :=
  let! c := this in run_chain EvErrorInterceptor 0 (errorInterceptors c) error.

(** [Math.ceil(ms / 1000)] on an integer number of milliseconds. *)
Definition ceil_seconds (ms : Z) : Z := - ((- ms) / 1000).

Definition checkRateLimit : M unit :=
  let! n := Date_now in
  let! c := this in
  let windowStart := n - windowMs (rateLimitConfig c) in
  let kept := List.filter (fun timestamp => windowStart <? timestamp) (requestTimestamps c) in
  modify (set_requestTimestamps kept) ;;
  if maxRequests (rateLimitConfig c) <=? Z.of_nat (length kept) then
    let oldestRequest := head kept in
    let waitTime := option_map (fun o => windowMs (rateLimitConfig c) - (n - o)) oldestRequest in
    throw (plain_error (MsgRateLimit (option_map ceil_seconds waitTime)))
  else
    modify (fun c' => set_requestTimestamps (requestTimestamps c' ++ [n]) c').

(** [(config.method || 'GET').toUpperCase()] *)
Definition method_or_GET (config : Config) : string :=
  toUpperCase (if str_truthy (cfg_method config)
               then match cfg_method config with Some m => m | None => "GET" end
               else "GET").

Section Platform.
(** Built-ins the class calls. *)
Variable JSON_stringify : Json -> string.
Variable URLSearchParams_toString : Json -> Res string.
Variable fetch : nat -> ReqDesc -> Z * Res Response.

Definition generateCacheKey (url : string) (config : Config) : string :=
  let method := method_or_GET config in
  let params :=
    match cfg_params config with
    | Some p => if truthy p then JSON_stringify p else ""
    | None => ""
    end in
  method +:+ ":" +:+ url +:+ ":" +:+ params.

Definition getFromCache (cacheKey : string) : M (option Envelope) :=
  let! c := this in
  match JsMap.get cacheKey (cache c) with
  | Some cachedData =>
      ret (Some {| status := status cachedData; statusText := statusText cachedData;
                   headers := headers cachedData; data := data cachedData;
                   fromCache := true |})
  | None => ret None
  end.

Definition setCache (cacheKey : string) (d : Envelope) (ttl : option Z) : M unit :=
  let! c := this in
  let ttl := match ttl with Some t => t | None => cacheTTL c end in
  match cacheTimers c !! cacheKey with
  | Some old => clearTimeout old
  | None => ret tt
  end ;;
  modify (fun c' => set_cache (JsMap.set cacheKey d (cache c')) c') ;;
  let! timer := setTimeout (TExpire cacheKey) ttl in
  modify (fun c' => set_cacheTimers (<[cacheKey := timer]> (cacheTimers c')) c').

Definition clearCache (cacheKey : string) : M unit :=
  let! c := this in
  match cacheTimers c !! cacheKey with
  | Some t =>
      clearTimeout t ;;
      modify (fun c' => set_cacheTimers (delete cacheKey (cacheTimers c')) c')
  | None => ret tt
  end ;;
  modify (fun c' => set_cache (JsMap.delete cacheKey (cache c')) c').

(** [this.cacheTimers.forEach((timer) => clearTimeout(timer))] *)
Fixpoint clearTimeouts (ids : list nat) : M unit :=
  match ids with
  | [] => ret tt
  | id :: ids' => clearTimeout id ;; clearTimeouts ids'
  end.

Definition clearAllCache : M unit :=
  let! c := this in
  clearTimeouts (List.map snd (map_to_list (cacheTimers c))) ;;
  modify (set_cacheTimers ∅) ;;
  modify (set_cache []).

Definition createAbortSignal (ms : Z) : M nat := setTimeout TAbort ms.

Definition buildFetchConfig (url : string) (config : Config) : M ReqDesc :=
  let! c := this in
  let method := method_or_GET config in
  let headers0 := JsMap.spread [("Content-Type", "application/json")] (cfg_headers config) in
  let headers1 :=
    match authToken c with
    | Some a => JsMap.set "Authorization" (type a +:+ " " +:+ token a) headers0
    | None => headers0
    end in
  let! signal := createAbortSignal (timeout c) in
  let body :=
    match cfg_data config with
    | Some d =>
        if negb (String.eqb method "GET") && truthy d then Some (JSON_stringify d) else None
    | None => None
    end in
  let! url' :=
    match cfg_params config with
    | Some p =>
        if truthy p then
          let! queryString := lift (URLSearchParams_toString p) in
          ret (url +:+ (if String.eqb queryString "" then "" else "?" +:+ queryString))
        else ret url
    | None => ret url
    end in
  ret {| d_url := url'; d_method := method; d_headers := headers1;
         d_signal := signal; d_body := body; d_originalConfig := config |}.

(** [data.message]: a property read, which throws on [null]. *)
Definition data_message (d : Data) : Res (option Json) :=
  match d with
  | DJson JNull => Throw (plain_error MsgTypeError)
  | DJson (JObj fields) => Ok (JsMap.get "message" fields)
  | DJson _ => Ok None
  | DText _ => Ok None
  | DBlob _ => Ok None
  end.

(** The body, read according to the declared content type. *)
Definition read_body (response : Response) : Res Data :=
  let contentType := JsMap.get "content-type" (r_headers response) in
  let ct_has ty := match contentType with Some ct => includes ty ct | None => false end in
  if ct_has "application/json" then res_map DJson (r_json response)
  else if ct_has "text" then res_map DText (r_text response)
  else res_map DBlob (r_blob response).

Definition handleResponse (response : Response) : Res Envelope :=
  res_bind (read_body response) (fun d =>
    if negb (r_ok response) then
      res_bind (data_message d) (fun m =>
        Throw {| e_message :=
                   match m with
                   | Some v => if truthy v then MsgOfValue v else MsgHttpError (r_status response)
                   | None => MsgHttpError (r_status response)
                   end;
                 e_status := Some (r_status response);
                 e_data := Some d;
                 e_headers := Some (r_headers response) |})
    else
      Ok {| status := r_status response; statusText := r_statusText response;
            headers := r_headers response; data := d; fromCache := false |}).

(** [!error.status ? true : error.status >= 500] *)
Definition isRetryableError (error : JsError) : bool :=
  match e_status error with
  | None => true
  | Some s => if s =? 0 then true else 500 <=? s
  end.

(** Entering [fetch]: the call is counted and logged. *)
Definition count_fetch (d : ReqDesc) : M nat :=
  fun c w =>
    (Ok (fetches w), c,
     mkWorld (now w) (timers w) (nextTimer w) (S (fetches w))
             (trace w ++ [EvFetch (fetches w) (d_url d)])).

(** [await fetch(url, init)]: the oracle answers call number [n]; the
    caller is suspended for the time the call takes. *)
Definition do_fetch (d : ReqDesc) : M Response :=
  let! n := count_fetch d in
  advance (fst (fetch n d)) ;;
  lift (snd (fetch n d)).

Definition performRequest (url : string) (config : Config) : M Envelope :=
  let! built := buildFetchConfig url config in
  let! interceptedConfig := executeRequestInterceptors built in
  let! response := do_fetch interceptedConfig in
  let! result := lift (handleResponse response) in
  executeResponseInterceptors result.

(** The recursion of [retryRequest], with the number of retries still
    allowed as the structural argument. *)
Fixpoint retry_loop (budget : nat) (url : string) (config : Config) (attempt : nat) : M Envelope :=
  try_catch (performRequest url config) (fun error =>
    match budget with
    | O => throw error
    | S budget' =>
        if isRetryableError error then
          let! c := this in
          let delay := retryDelay c * 2 ^ Z.of_nat attempt in
          sleep delay ;;
          retry_loop budget' url config (S attempt)
        else throw error
    end).

Definition retryRequest (url : string) (config : Config) (attempt : nat) : M Envelope :=
  let! c := this in
  retry_loop (Z.to_nat (maxRetries c - Z.of_nat attempt)) url config attempt.

(** The default hook. *)
Definition refreshAuthToken : M unit :=
  emit (EvWarn "Token refresh not implemented. Please set custom refresh logic.").

(** [config.method?.toUpperCase() !== 'POST' && config.cache !== false] *)
Definition cacheable (config : Config) : bool :=
  negb (match cfg_method config with
        | Some m => String.eqb (toUpperCase m) "POST"
        | None => false
        end)
  && negb (match cfg_cache config with Some false => true | _ => false end).

(** What [request] does once the call is admitted: cache lookup, the
    request with retries, cache store. *)
Definition serve (url : string) (config : Config) : M Envelope :=
  let! c := this in
  let fullUrl := if startsWith "http" url then url else baseURL c +:+ url in
  let cacheKey := generateCacheKey fullUrl config in
  let! cachedResponse :=
    (if cacheable config then getFromCache cacheKey else ret None) in
  match cachedResponse with
  | Some r => ret r
  | None =>
      let! response := retryRequest fullUrl config 0 in
      when (cacheable config) (setCache cacheKey response (cfg_cacheTTL config)) ;;
      ret response
  end.

(** Everything [request] does inside its [try] after the token check. *)
Definition request_pipeline (url : string) (config : Config) : M Envelope :=
  checkRateLimit ;;
  serve url config.

(** [if (this.isTokenExpired() && this.refreshToken) await this.refreshAuthToken()] *)
Definition refresh_step : M unit :=
  let! expired := isTokenExpired in
  let! c := this in
  when (expired && str_truthy (refreshToken c)) refreshAuthToken.

Definition request_body (url : string) (config : Config) : M Envelope :=
  refresh_step ;;
  request_pipeline url config.

Definition request (url : string) (config : Config) : M Envelope :=
  try_catch (request_body url config) (fun error =>
    let! handledError := executeErrorInterceptors error in
    throw handledError).

Definition with_method (m : string) (config : Config) : Config :=
  mkConfig (Some m) (cfg_headers config) (cfg_data config) (cfg_params config)
           (cfg_cache config) (cfg_cacheTTL config).

Definition with_body (m : string) (d : option Json) (config : Config) : Config :=
  mkConfig (Some m) (cfg_headers config) d (cfg_params config)
           (Some false) (cfg_cacheTTL config).

Definition no_cache (m : string) (config : Config) : Config :=
  mkConfig (Some m) (cfg_headers config) (cfg_data config) (cfg_params config)
           (Some false) (cfg_cacheTTL config).

Definition get (url : string) (config : Config) : M Envelope :=
  request url (with_method "GET" config).
Definition post (url : string) (d : option Json) (config : Config) : M Envelope :=
  request url (with_body "POST" d config).
Definition put (url : string) (d : option Json) (config : Config) : M Envelope :=
  request url (with_body "PUT" d config).
Definition patch (url : string) (d : option Json) (config : Config) : M Envelope :=
  request url (with_body "PATCH" d config).
Definition delete_ (url : string) (config : Config) : M Envelope :=
  request url (no_cache "DELETE" config).

Record RateLimitStatus : Type := mkRateLimitStatus {
  requestsInWindow : Z;
  rl_maxRequests : Z;
  remaining : Z;
  rl_windowMs : Z;
  resetTime : Z
}.

Definition getRateLimitStatus : M RateLimitStatus :=
  let! n := Date_now in
  let! c := this in
  let windowStart := n - windowMs (rateLimitConfig c) in
  let recentRequests :=
    List.filter (fun timestamp => windowStart <? timestamp) (requestTimestamps c) in
  ret {| requestsInWindow := Z.of_nat (length recentRequests);
         rl_maxRequests := maxRequests (rateLimitConfig c);
         remaining := maxRequests (rateLimitConfig c) - Z.of_nat (length recentRequests);
         rl_windowMs := windowMs (rateLimitConfig c);
         resetTime :=
           match head recentRequests with
           | Some t => if t =? 0 then n else t
           | None => n
           end + windowMs (rateLimitConfig c) |}.

Record CacheStats : Type := mkCacheStats {
  entries : Z;
  keys : list string;
  totalSize : Z
}.

(** How [JSON.stringify] sees a stored envelope: a [Headers] object and a
    [Blob] have no enumerable properties. *)
Definition envelope_json (e : Envelope) : Json :=
  JObj [("status", JNum (status e)); ("statusText", JStr (statusText e));
        ("headers", JObj []);
        ("data", match data e with DJson j => j | DText s => JStr s | DBlob _ => JObj [] end);
        ("fromCache", JBool (fromCache e))].

Definition getCacheStats : M CacheStats :=
  let! c := this in
  ret {| entries := JsMap.size (cache c);
         keys := JsMap.keys (cache c);
         totalSize :=
           Z.of_nat (String.length
             (JSON_stringify (JArr (List.map envelope_json (JsMap.values (cache c)))))) |}.

(** The condition under which the [catch] of [retryRequest] retries. *)
Definition retries (c : Client) (attempt : nat) (error : JsError) : bool :=
  (Z.of_nat attempt <? maxRetries c) && isRetryableError error.

(** ** Reading results and traces *)

Definition outcome {A} (x : Res A * Client * World) : Res A := fst (fst x).
Definition client_of {A} (x : Res A * Client * World) : Client := snd (fst x).
Definition world_of {A} (x : Res A * Client * World) : World := snd x.

Definition delay_of (e : Event) : list Z := match e with EvDelay ms => [ms] | _ => [] end.
Definition warning_of (e : Event) : list string := match e with EvWarn m => [m] | _ => [] end.
Definition expiry_of (e : Event) : list string := match e with EvExpire k => [k] | _ => [] end.

Definition delays (t : list Event) : list Z := flat_map delay_of t.
Definition warnings (t : list Event) : list string := flat_map warning_of t.
Definition expiries (t : list Event) : list string := flat_map expiry_of t.

(** What a chain of interceptors computes: a left fold in list order that
    stops at the first throw. *)
Definition chain_result {A} (l : list (A -> Res A)) (x : A) : Res A :=
  fold_left (fun acc f => res_bind acc f) l (Ok x).

(** The fields no method of the pipeline writes. *)
Definition core (c : Client) :=
  (baseURL c, timeout c, maxRetries c, retryDelay c, cacheTTL c,
   (authToken c, refreshToken c, tokenExpiryTime c),
   (requestInterceptors c, responseInterceptors c, errorInterceptors c),
   rateLimitConfig c).

(** The timer tables agree: every registered expiry timer is pending with
    the right key, every pending expiry timer is registered, an entry is
    cached exactly when its timer is registered, and timer ids are fresh. *)
Record wf (c : Client) (w : World) : Prop := mkWf {
  wf_registered : forall k id, cacheTimers c !! k = Some id ->
                    exists due, timers w !! id = Some (due, TExpire k);
  wf_pending : forall id due k, timers w !! id = Some (due, TExpire k) ->
                 cacheTimers c !! k = Some id;
  wf_entries : forall k, JsMap.has k (cache c) = true <-> is_Some (cacheTimers c !! k);
  wf_fresh : forall id, is_Some (timers w !! id) -> (id < nextTimer w)%nat
}.

(** How many interceptors of the chain are called on [x]: all of them, or
    those up to the first that throws. *)
Fixpoint invoked {A} (l : list (A -> Res A)) (x : A) : nat :=
  match l with
  | [] => O
  | f :: l' => S (match f x with Ok y => invoked l' y | Throw _ => O end)
  end.

(** Interceptors that never throw. *)
Definition total {A} (l : list (A -> Res A)) : Prop :=
  Forall (fun f => forall x, exists y, f x = Ok y) l.

(** The instants kept by the pruning step of the rate limiter. *)
Definition in_window (c : Client) (n : Z) : list Z :=
  List.filter (fun timestamp => n - windowMs (rateLimitConfig c) <? timestamp)
              (requestTimestamps c).

(** The error [checkRateLimit] throws when the oldest kept instant is [oldest]. *)
Definition rate_limit_error (c : Client) (n oldest : Z) : JsError :=
  plain_error (MsgRateLimit
    (Some (ceil_seconds (windowMs (rateLimitConfig c) - (n - oldest))))).

Definition served_from_cache (e : Envelope) : Envelope :=
  {| status := status e; statusText := statusText e; headers := headers e;
     data := data e; fromCache := true |}.

(** [config.method], upper-cased, is POST. *)
Definition is_POST (config : Config) : Prop :=
  exists m, cfg_method config = Some m /\ toUpperCase m = "POST".

(** The world after the events [evs] were logged. *)
Definition log (evs : list Event) (w : World) : World :=
  mkWorld (now w) (timers w) (nextTimer w) (fetches w) (trace w ++ evs).

(** The error that leaves the [catch] of [request]: what the error chain
    returned, or what one of its interceptors threw. *)
Definition raised (r : Res JsError) : JsError :=
  match r with Ok e => e | Throw e => e end.

(** The instants recorded by the rate limiter are untouched. *)
Definition r_stamps (s s' : Client * World) : Prop :=
  requestTimestamps (fst s') = requestTimestamps (fst s).

(** ** Sequences of calls made by the code that owns the client *)

Inductive Call : Type :=
| CallSetAuthToken (tok : string) (ty : option string)
| CallSetRefreshToken (rt : string) (expiryTime : option Z)
| CallAddRequestInterceptor (f : ReqDesc -> Res ReqDesc)
| CallAddResponseInterceptor (f : Envelope -> Res Envelope)
| CallAddErrorInterceptor (f : JsError -> Res JsError)
| CallRequest (url : string) (config : Config)
| CallGet (url : string) (config : Config)
| CallPost (url : string) (d : option Json) (config : Config)
| CallPut (url : string) (d : option Json) (config : Config)
| CallPatch (url : string) (d : option Json) (config : Config)
| CallDelete (url : string) (config : Config)
| CallClearCache (cacheKey : string)
| CallClearAllCache
| CallGetRateLimitStatus
| CallGetCacheStats
| Elapse (ms : Z).              (* time passes between two calls *)

(** The caller drops the result and handles any error. *)
Definition settle {A} (m : M A) : M unit :=
  try_catch (m ;; ret tt) (fun _ => ret tt).

Definition run_call (x : Call) : M unit :=
  match x with
  | CallSetAuthToken tok ty => setAuthToken tok ty
  | CallSetRefreshToken rt e => setRefreshToken rt e
  | CallAddRequestInterceptor f => addRequestInterceptor f
  | CallAddResponseInterceptor f => addResponseInterceptor f
  | CallAddErrorInterceptor f => addErrorInterceptor f
  | CallRequest url config => settle (request url config)
  | CallGet url config => settle (get url config)
  | CallPost url d config => settle (post url d config)
  | CallPut url d config => settle (put url d config)
  | CallPatch url d config => settle (patch url d config)
  | CallDelete url config => settle (delete_ url config)
  | CallClearCache k => clearCache k
  | CallClearAllCache => clearAllCache
  | CallGetRateLimitStatus => settle getRateLimitStatus
  | CallGetCacheStats => settle getCacheStats
  | Elapse ms => advance ms
  end.

Fixpoint run_calls (l : list Call) : M unit :=
  match l with
  | [] => ret tt
  | x :: l' => run_call x ;; run_calls l'
  end.

Definition is_setRefreshToken (x : Call) : bool :=
  match x with CallSetRefreshToken _ _ => true | _ => false end.

(** [checkRateLimit] called when the clock reads [t]. *)
Definition checkRateLimit_at (t : Z) : M unit :=
  fun c w => checkRateLimit c (mkWorld t (timers w) (nextTimer w) (fetches w) (trace w)).

(** Consecutive checks at the given instants, all of which must pass. *)
Fixpoint checks_pass (ts : list Z) (c : Client) (w : World) : option (Client * World) :=
  match ts with
  | [] => Some (c, w)
  | t :: ts' =>
      match checkRateLimit_at t c w with
      | (Ok _, c', w') => checks_pass ts' c' w'
      | (Throw _, _, _) => None
      end
  end.

(** ** Relations between the state before and after a method *)

(** Entries of the cache only disappear. *)
Definition shrinks (c c' : Client) : Prop :=
  forall k v, JsMap.get k (cache c') = Some v -> JsMap.get k (cache c) = Some v.

(** Holds of every method of the pipeline. *)
Record r_base (s s' : Client * World) : Prop := mkBase {
  rb_core : core (fst s') = core (fst s);
  rb_fetches : (fetches (snd s) <= fetches (snd s'))%nat
}.

(** Nothing is written to the cache and no expiry timer is created. *)
Record r_nowrite (s s' : Client * World) : Prop := mkNoWrite {
  rn_cache : shrinks (fst s) (fst s');
  rn_timers : forall id due k, timers (snd s') !! id = Some (due, TExpire k) ->
                timers (snd s) !! id = Some (due, TExpire k)
}.

(** The events selected by [f] are the same before and after. *)
Definition r_quiet {X} (f : Event -> list X) (s s' : Client * World) : Prop :=
  flat_map f (trace (snd s')) = flat_map f (trace (snd s)).

Definition keeps_wf (s s' : Client * World) : Prop :=
  wf (fst s) (snd s) -> wf (fst s') (snd s').

(** ** Further notions used to state what the methods do *)

(** What [new URLSearchParams(config.params).toString()] gives in
    [buildFetchConfig]; it is not evaluated when [params] is absent or falsy. *)
Definition query_string (config : Config) : Res (option string) :=
  match cfg_params config with
  | Some p => if truthy p then res_map Some (URLSearchParams_toString p) else Ok None
  | None => Ok None
  end.

(** The query parameters of [config] can be serialised, so that
    [buildFetchConfig] returns. *)
Definition serialisable (config : Config) : Prop :=
  exists q, query_string config = Ok q.

(** The delays asked of the timer before attempts [attempt + 1], ...,
    [attempt + k]. *)
Definition backoff (c : Client) (attempt : nat) (k : nat) : list Z :=
  List.map (fun i => retryDelay c * 2 ^ Z.of_nat (attempt + i)) (seq 0 k).

(** No more instants are recorded than the limit allows. *)
Definition stamps_bounded (c : Client) : Prop :=
  Z.of_nat (length (requestTimestamps c)) <= Z.max 0 (maxRequests (rateLimitConfig c)).

(** What the default hook writes to the console. *)
Definition refresh_warning : string :=
  "Token refresh not implemented. Please set custom refresh logic.".

(** The condition of the token check in [request]. *)
Definition refresh_due (c : Client) (w : World) : bool :=
  match tokenExpiryTime c with
  | Some t => negb (t =? 0) && (t - 60000 <? now w) && str_truthy (refreshToken c)
  | None => false
  end.

(** The key [request] uses for [url] and [config] on client [c]. *)
Definition request_key (c : Client) (url : string) (config : Config) : string :=
  generateCacheKey (if startsWith "http" url then url else baseURL c +:+ url) config.

(** The TTL [request] stores a response with. *)
Definition entry_ttl (c : Client) (config : Config) : Z :=
  match cfg_cacheTTL config with Some t => t | None => cacheTTL c end.

(** The state [ms] ms after a method returned, the caller having been
    suspended in between. *)
Definition elapsed {A} (ms : Z) (x : Res A * Client * World) : Res unit * Client * World :=
  advance ms (client_of x) (world_of x).

(** No abort timer is cancelled: one that was pending is still pending as
    long as its due time has not come; and the clock does not go back. *)
Definition keeps_aborts (s s' : Client * World) : Prop :=
  wf (fst s) (snd s) ->
  wf (fst s') (snd s')
  /\ now (snd s) <= now (snd s')
  /\ forall id due, timers (snd s) !! id = Some (due, TAbort) -> now (snd s') < due ->
       timers (snd s') !! id = Some (due, TAbort).

(** ** Concrete clients, transports and states, for the runs checked below *)

Definition sample_stringify (j : Json) : string := "{}".
Definition sample_query (j : Json) : Res string := Ok "".

Definition world0 : World := mkWorld 1000000 ∅ 0 0 [].

Definition no_options : Options := mkOptions None None None None None None None None.

Definition client0 : Client := constructor no_options.

(** A response with a JSON object as body. *)
Definition json_response (st : Z) : Response :=
  mkResponse st "" [("content-type", "application/json")] (Ok (JObj [])) (Ok "") (Ok []).

(** What [fetch] resolves to for a cross-origin request in [no-cors] mode:
    status 0, no headers, an empty body. *)
Definition opaque_response : Response := mkResponse 0 "" [] (Ok JNull) (Ok "") (Ok []).

(** A transport that gives the listed responses in turn and then [last],
    each after 10 ms. *)
Definition answers (l : list Response) (last : Response) : nat -> ReqDesc -> Z * Res Response :=
  fun n _ => (10, Ok (nth n l last)).

(** A transport that always answers 200. *)
Definition always_ok : nat -> ReqDesc -> Z * Res Response := answers [] (json_response 200).

(** A request interceptor that adds a header, a response interceptor that
    rewrites the status text. *)
Definition add_trace_header (d : ReqDesc) : Res ReqDesc :=
  Ok (mkReqDesc (d_url d) (d_method d) (JsMap.set "X-Trace" "1" (d_headers d))
                (d_signal d) (d_body d) (d_originalConfig d)).

Definition mark_seen (e : Envelope) : Res Envelope :=
  Ok (mkEnvelope (status e) "seen" (headers e) (data e) (fromCache e)).

Definition client1 : Client :=
  set_interceptors [add_trace_header] [mark_seen] [] client0.

(** A new client that allows [n] requests per minute. *)
Definition limited (n : Z) : Client :=
  constructor (mkOptions None None None None None None None (Some (mkRateLimit n 60000))).

Definition ok_envelope : Envelope :=
  mkEnvelope 200 "" [("content-type", "application/json")] (DJson (JObj [])) false.

(** The client and the world after a first request for [/x], made on [c] in
    [world0], was answered 200 and stored under [key]. *)
Definition after_first (key : string) (c : Client) : Client :=
  set_requestTimestamps [1000000]
    (set_cacheTimers {[key := 1%nat]} (set_cache [(key, ok_envelope)] c)).

Definition world_after_first (key : string) : World :=
  mkWorld 1000010
    (<[1%nat := (1300010, TExpire key)]> {[0%nat := (1030000, TAbort)]})
    2 1 [EvFetch 0 "/x"].

Definition warm_client : Client := after_first "GET:/x:" client0.
Definition warm_world : World := world_after_first "GET:/x:".

Definition spent_client : Client := after_first "GET:/x:" (limited 1).
Definition spent_world : World := world_after_first "GET:/x:".

Definition put_config : Config := with_method "PUT" emptyConfig.
Definition after_put_client : Client := after_first "PUT:/x:" client0.
Definition after_put_world : World := world_after_first "PUT:/x:".

(** A transport that always answers 503, and the error [handleResponse]
    makes of that answer. *)
Definition always_503 : nat -> ReqDesc -> Z * Res Response :=
  fun _ _ => (10, Ok (json_response 503)).

Definition error_503 : JsError :=
  mkError (MsgHttpError 503) (Some 503) (Some (DJson (JObj [])))
          (Some [("content-type", "application/json")]).

(** A 404 whose JSON body is [null], and a transport that always answers it. *)
Definition null_404 : Response :=
  mkResponse 404 "" [("content-type", "application/json")] (Ok JNull) (Ok "") (Ok []).

Definition always_null_404 : nat -> ReqDesc -> Z * Res Response :=
  fun _ _ => (10, Ok null_404).

(** [new APIService({ maxRetries: 0 })] *)
Definition zero_retries : Options :=
  mkOptions None None (Some 0) None None None None None.

(** A request interceptor that always throws. *)
Definition refuse (d : ReqDesc) : Res ReqDesc := Throw (plain_error (MsgText "refused")).

Definition refusing_client : Client := set_interceptors [refuse] [] [] client0.

(** A request for the same resource as [emptyConfig] asks for, written
    differently. *)
Definition other_config : Config :=
  mkConfig (Some "get") [("X-Debug", "1")] (Some (JStr "body")) None None (Some 5).

(** A quiet world a minute and ten milliseconds after [world0]. *)
Definition world_later : World := mkWorld 1060010 ∅ 0 0 [].

(** Error interceptors that append a letter to the text of the message (a
    message that is not plain text counts as empty), and a client on which
    two of them are registered, "a" before "b". *)
Definition message_text (m : Message) : string :=
  match m with MsgText t => t | _ => "" end.

Definition tag_error (t : string) (e : JsError) : Res JsError :=
  Ok (mkError (MsgText (message_text (e_message e) +:+ t))
              (e_status e) (e_data e) (e_headers e)).

Definition tagging_client : Client :=
  set_interceptors [] [] [tag_error "a"; tag_error "b"] client0.

(** The status-404 error of [json_response 404] as [handleResponse] throws
    it, and as it leaves [tagging_client]. *)
Definition error_404 : JsError :=
  mkError (MsgHttpError 404) (Some 404) (Some (DJson (JObj [])))
          (Some [("content-type", "application/json")]).

Definition tagged_404 : JsError :=
  mkError (MsgText "ab") (Some 404) (Some (DJson (JObj [])))
          (Some [("content-type", "application/json")]).

(** What [client1] returns for a 200: the envelope after [mark_seen]. *)
Definition seen_envelope : Envelope :=
  mkEnvelope 200 "seen" [("content-type", "application/json")] (DJson (JObj [])) false.

(** A [URLSearchParams] that rejects an array whose first element is not a
    pair, and a request with such parameters. *)
Definition strict_query (j : Json) : Res string :=
  match j with
  | JArr (JArr [_; _] :: _) => Ok "k=v"
  | JArr (_ :: _) => Throw (plain_error MsgTypeError)
  | _ => Ok ""
  end.

Definition bad_params_config : Config :=
  mkConfig None [] None (Some (JArr [JNum 1; JNum 2])) None None.

(** ** Generic reasoning: relations between the state before and after *)

Definition preserves {A} (R : Client * World -> Client * World -> Prop) (m : M A) : Prop :=
  forall c w, R (c, w) (client_of (m c w), world_of (m c w)).

Section Preserves.
Context (R : Client * World -> Client * World -> Prop) `{!PreOrder R}.

Lemma preserves_ret {A} (a : A) : preserves R (ret a).
Proof. intros c w. reflexivity. Qed.

Lemma preserves_throw {A} e : preserves R (@throw A e).
Proof. intros c w. reflexivity. Qed.

Lemma preserves_lift {A} (r : Res A) : preserves R (lift r).
Proof. intros c w. reflexivity. Qed.

Lemma preserves_this : preserves R this.
Proof. intros c w. reflexivity. Qed.

Lemma preserves_Date_now : preserves R Date_now.
Proof. intros c w. reflexivity. Qed.

Lemma preserves_bind {A B} (m : M A) (k : A -> M B) :
  preserves R m -> (forall a, preserves R (k a)) -> preserves R (bind m k).
Proof.
  intros Hm Hk c w. unfold bind. specialize (Hm c w).
  destruct (m c w) as [[[a|e] c1] w1]; cbn in *; [|exact Hm].
  etransitivity; [exact Hm|]. apply Hk.
Qed.

Lemma preserves_try_catch {A} (m : M A) (h : JsError -> M A) :
  preserves R m -> (forall e, preserves R (h e)) -> preserves R (try_catch m h).
Proof.
  intros Hm Hh c w. unfold try_catch. specialize (Hm c w).
  destruct (m c w) as [[[a|e] c1] w1]; cbn in *; [exact Hm|].
  etransitivity; [exact Hm|]. apply Hh.
Qed.

Lemma preserves_when b (m : M unit) : preserves R m -> preserves R (when b m).
Proof. intros Hm. destruct b; [exact Hm|apply preserves_ret]. Qed.

Lemma preserves_run_chain {A} ev (l : list (A -> Res A)) :
  (forall i, preserves R (emit (ev i))) ->
  forall i x, preserves R (run_chain ev i l x).
Proof.
  intros He. induction l as [|f l IH]; intros i x; cbn [run_chain].
  - apply preserves_ret.
  - apply preserves_bind; [apply He|intros _].
    apply preserves_bind; [apply preserves_lift|intros y; apply IH].
Qed.
End Preserves.

(** Apply a lemma of [Preserves], finding the preorder by instance search. *)
Ltac pre l := apply l; [typeclasses eauto|..].

Ltac walk :=
  repeat first
    [ pre preserves_ret | pre preserves_throw | pre preserves_lift
    | pre preserves_this | pre preserves_Date_now
    | pre preserves_bind; [|intros ?]
    | pre preserves_try_catch; [|intros ?]
    | pre preserves_when
    | pre preserves_run_chain; intros ?
    | match goal with
      | |- preserves _ (match ?x with _ => _ end) => destruct x
      end ].

(** ** Insertion-ordered maps *)

Lemma get_set_eq {V} k (v : V) m : JsMap.get k (JsMap.set k v m) = Some v.
Proof.
  induction m as [|[k' v'] m IH]; cbn.
  - by rewrite String.eqb_refl.
  - destruct (String.eqb k' k) eqn:E; cbn; [by rewrite String.eqb_refl|by rewrite E].
Qed.

Lemma get_set_ne {V} k k' (v : V) m :
  k <> k' -> JsMap.get k' (JsMap.set k v m) = JsMap.get k' m.
Proof.
  intros Hne. induction m as [|[k0 v0] m IH]; cbn.
  - destruct (String.eqb_spec k k'); [done|done].
  - destruct (String.eqb_spec k0 k) as [->|Hk]; cbn.
    + destruct (String.eqb_spec k k'); done.
    + destruct (String.eqb_spec k0 k'); done.
Qed.

Lemma get_delete_eq {V} k (m : list (string * V)) : JsMap.get k (JsMap.delete k m) = None.
Proof.
  induction m as [|[k' v'] m IH]; cbn; [done|].
  destruct (String.eqb_spec k' k) as [->|Hk]; cbn; [done|].
  destruct (String.eqb_spec k' k); done.
Qed.

Lemma get_delete_ne {V} k k' (m : list (string * V)) :
  k <> k' -> JsMap.get k' (JsMap.delete k m) = JsMap.get k' m.
Proof.
  intros Hne. induction m as [|[k0 v0] m IH]; cbn; [done|].
  destruct (String.eqb_spec k0 k) as [->|Hk]; cbn.
  - destruct (String.eqb_spec k k'); done.
  - destruct (String.eqb_spec k0 k'); done.
Qed.

Lemma get_delete_Some {V} k k' (m : list (string * V)) v :
  JsMap.get k' (JsMap.delete k m) = Some v -> JsMap.get k' m = Some v.
Proof.
  destruct (decide (k = k')) as [->|Hne].
  - by rewrite get_delete_eq.
  - by rewrite get_delete_ne.
Qed.

Lemma has_true {V} k (m : list (string * V)) :
  JsMap.has k m = true <-> is_Some (JsMap.get k m).
Proof.
  unfold JsMap.has. destruct (JsMap.get k m); split; intros H; try done.
Qed.

(** ** The relations are preorders *)

#[local] Instance r_base_preorder : PreOrder r_base.
Proof.
  split.
  - intros s. split; [done|lia].
  - intros s1 s2 s3 [H1 H2] [H3 H4]. split; [congruence|lia].
Qed.

#[local] Instance r_nowrite_preorder : PreOrder r_nowrite.
Proof.
  split.
  - intros s. split; [by intros k v|done].
  - intros s1 s2 s3 [H1 H2] [H3 H4]. split; [intros k v Hk; auto|intros id due k Hk; auto].
Qed.

#[local] Instance r_quiet_preorder {X} (f : Event -> list X) : PreOrder (r_quiet f).
Proof.
  split.
  - intros s. by unfold r_quiet.
  - intros s1 s2 s3 H1 H2. unfold r_quiet in *. congruence.
Qed.

#[local] Instance keeps_wf_preorder : PreOrder keeps_wf.
Proof.
  split.
  - intros s H. exact H.
  - intros s1 s2 s3 H1 H2 H. auto.
Qed.

(** ** What time passing does to the client *)

Lemma run_actions_core acts c :
  core (fold_left (fun acc a => run_action a acc) acts c) = core c.
Proof.
  revert c. induction acts as [|a acts IH]; intros c; cbn; [done|].
  rewrite IH. by destruct a.
Qed.

Lemma run_actions_timestamps acts c :
  requestTimestamps (fold_left (fun acc a => run_action a acc) acts c) = requestTimestamps c.
Proof.
  revert c. induction acts as [|a acts IH]; intros c; cbn; [done|].
  rewrite IH. by destruct a.
Qed.

Lemma run_actions_shrinks acts c :
  shrinks c (fold_left (fun acc a => run_action a acc) acts c).
Proof.
  revert c. induction acts as [|a acts IH]; intros c; cbn; [by intros k v|].
  intros k v Hk. apply IH in Hk. destruct a as [key|]; cbn in Hk; [|done].
  by apply get_delete_Some in Hk.
Qed.

Lemma expire_in_cons (a : TimerAction) acts k :
  a <> TExpire k -> TExpire k ∈ acts <-> TExpire k ∈ a :: acts.
Proof.
  intros Ha. rewrite elem_of_cons. split; [by right|intros [H|H]; [congruence|done]].
Qed.

(** The cache after the callbacks [acts] ran: the entries whose key no
    callback expires. *)
Lemma run_actions_cache acts c k :
  JsMap.get k (cache (fold_left (fun acc a => run_action a acc) acts c)) =
  if bool_decide (TExpire k ∈ acts) then None else JsMap.get k (cache c).
Proof.
  revert c. induction acts as [|a acts IH]; intros c; cbn; [done|].
  rewrite IH. destruct a as [key|]; cbn.
  - destruct (decide (key = k)) as [->|Hne].
    + rewrite get_delete_eq. rewrite (bool_decide_eq_true_2 (TExpire k ∈ TExpire k :: acts));
        [by destruct (bool_decide _)|by left].
    + rewrite get_delete_ne by done.
      apply (f_equal (fun b : bool => if b then None else JsMap.get k (cache c))).
      apply bool_decide_ext, expire_in_cons. congruence.
  - apply (f_equal (fun b : bool => if b then None else JsMap.get k (cache c))).
    by apply bool_decide_ext, expire_in_cons.
Qed.

Lemma run_actions_cacheTimers acts c k :
  cacheTimers (fold_left (fun acc a => run_action a acc) acts c) !! k =
  if bool_decide (TExpire k ∈ acts) then None else cacheTimers c !! k.
Proof.
  revert c. induction acts as [|a acts IH]; intros c; cbn; [done|].
  rewrite IH. destruct a as [key|]; cbn.
  - destruct (decide (key = k)) as [->|Hne].
    + rewrite lookup_delete_eq. rewrite (bool_decide_eq_true_2 (TExpire k ∈ TExpire k :: acts));
        [by destruct (bool_decide _)|by left].
    + rewrite lookup_delete_ne by done.
      apply (f_equal (fun b : bool => if b then None else cacheTimers c !! k)).
      apply bool_decide_ext, expire_in_cons. congruence.
  - apply (f_equal (fun b : bool => if b then None else cacheTimers c !! k)).
    by apply bool_decide_ext, expire_in_cons.
Qed.

(** ** Methods of the pipeline respect every relation its primitives respect *)

Section Pipeline.
Context (R : Client * World -> Client * World -> Prop) `{!PreOrder R}.
Hypothesis R_emit : forall e, warning_of e = [] -> delay_of e = [] -> preserves R (emit e).
Hypothesis R_abort : forall ms, preserves R (setTimeout TAbort ms).
Hypothesis R_advance : forall ms, preserves R (advance ms).
Hypothesis R_count : forall d, preserves R (count_fetch d).
Hypothesis R_delay : forall ms, preserves R (emit (EvDelay ms)).
Hypothesis R_timestamps : forall ts, preserves R (modify (set_requestTimestamps ts)).
Hypothesis R_push : forall n,
  preserves R (modify (fun c => set_requestTimestamps (requestTimestamps c ++ [n]) c)).

Lemma executeRequestInterceptors_preserves d : preserves R (executeRequestInterceptors d).
Proof. unfold executeRequestInterceptors. walk. by apply R_emit. Qed.

Lemma executeResponseInterceptors_preserves r : preserves R (executeResponseInterceptors r).
Proof. unfold executeResponseInterceptors. walk. by apply R_emit. Qed.

Lemma executeErrorInterceptors_preserves e : preserves R (executeErrorInterceptors e).
Proof. unfold executeErrorInterceptors. walk. by apply R_emit. Qed.

Lemma buildFetchConfig_preserves url config : preserves R (buildFetchConfig url config).
Proof. unfold buildFetchConfig, createAbortSignal. walk. apply R_abort. Qed.

Lemma do_fetch_preserves d : preserves R (do_fetch d).
Proof. unfold do_fetch. walk; [apply R_count|apply R_advance]. Qed.

Lemma performRequest_preserves url config : preserves R (performRequest url config).
Proof.
  unfold performRequest.
  pre preserves_bind; [apply buildFetchConfig_preserves|intros built].
  pre preserves_bind; [apply executeRequestInterceptors_preserves|intros d].
  pre preserves_bind; [apply do_fetch_preserves|intros response].
  pre preserves_bind; [pre preserves_lift|intros result].
  apply executeResponseInterceptors_preserves.
Qed.

Lemma sleep_preserves ms : preserves R (sleep ms).
Proof. unfold sleep. walk; [apply R_delay|apply R_advance]. Qed.

Lemma retry_loop_preserves budget url config attempt :
  preserves R (retry_loop budget url config attempt).
Proof.
  revert attempt. induction budget as [|budget IH]; intros attempt; cbn [retry_loop].
  - pre preserves_try_catch; [apply performRequest_preserves|intros e].
    pre preserves_throw.
  - pre preserves_try_catch; [apply performRequest_preserves|intros e].
    destruct (isRetryableError e); [|pre preserves_throw].
    pre preserves_bind; [pre preserves_this|intros c].
    pre preserves_bind; [apply sleep_preserves|intros _]. apply IH.
Qed.

Lemma retryRequest_preserves url config attempt :
  preserves R (retryRequest url config attempt).
Proof.
  unfold retryRequest. pre preserves_bind; [pre preserves_this|intros c].
  apply retry_loop_preserves.
Qed.

Lemma checkRateLimit_preserves : preserves R checkRateLimit.
Proof.
  unfold checkRateLimit.
  pre preserves_bind; [pre preserves_Date_now|intros n].
  pre preserves_bind; [pre preserves_this|intros c].
  pre preserves_bind; [apply R_timestamps|intros _].
  destruct (_ <=? _); [pre preserves_throw|apply R_push].
Qed.

Lemma getFromCache_preserves k : preserves R (getFromCache k).
Proof. unfold getFromCache. walk. Qed.

(** [serve], when storing the response is respected too (or the request
    is not cacheable). *)
Lemma serve_preserves url config :
  (cacheable config = true -> forall k d ttl, preserves R (setCache k d ttl)) ->
  preserves R (serve url config).
Proof.
  intros Hset. unfold serve.
  pre preserves_bind; [pre preserves_this|intros c].
  pre preserves_bind.
  { destruct (cacheable config); [apply getFromCache_preserves|pre preserves_ret]. }
  intros [r|]; [pre preserves_ret|].
  pre preserves_bind; [apply retryRequest_preserves|intros response].
  pre preserves_bind; [|intros _; pre preserves_ret].
  destruct (cacheable config); cbn [when]; [by apply Hset|pre preserves_ret].
Qed.

Lemma request_pipeline_preserves url config :
  (cacheable config = true -> forall k d ttl, preserves R (setCache k d ttl)) ->
  preserves R (request_pipeline url config).
Proof.
  intros Hset. unfold request_pipeline.
  pre preserves_bind; [apply checkRateLimit_preserves|intros _].
  by apply serve_preserves.
Qed.

Lemma request_preserves url config :
  (forall m, preserves R (emit (EvWarn m))) ->
  (cacheable config = true -> forall k d ttl, preserves R (setCache k d ttl)) ->
  preserves R (request url config).
Proof.
  intros Hwarn Hset. unfold request.
  pre preserves_try_catch.
  - unfold request_body, refresh_step, isTokenExpired, refreshAuthToken.
    pre preserves_bind; [|intros _; by apply request_pipeline_preserves].
    pre preserves_bind; [walk|intros expired].
    pre preserves_bind; [pre preserves_this|intros c].
    pre preserves_when; apply Hwarn.
  - intros e. pre preserves_bind; [apply executeErrorInterceptors_preserves|intros e'].
    pre preserves_throw.
Qed.
End Pipeline.

(** ** The primitives, relation by relation *)

Lemma base_emit e : preserves r_base (emit e).
Proof. intros c w. by split. Qed.

Lemma base_modify f : (forall c, core (f c) = core c) -> preserves r_base (modify f).
Proof. intros Hf c w. split; cbn; [apply Hf|lia]. Qed.

Lemma base_setTimeout a ms : preserves r_base (setTimeout a ms).
Proof. intros c w. by split. Qed.

Lemma base_clearTimeout id : preserves r_base (clearTimeout id).
Proof. intros c w. by split. Qed.

Lemma base_advance ms : preserves r_base (advance ms).
Proof. intros c w. split; cbn; [apply run_actions_core|lia]. Qed.

Lemma base_count_fetch d : preserves r_base (count_fetch d).
Proof. intros c w. split; cbn; [done|lia]. Qed.

Lemma base_setCache k d ttl : preserves r_base (setCache k d ttl).
Proof.
  unfold setCache. walk;
    first [apply base_clearTimeout | apply base_setTimeout | by apply base_modify].
Qed.




Lemma base_performRequest url config : preserves r_base (performRequest url config).
Proof.
  apply performRequest_preserves; [typeclasses eauto|intros; apply base_emit|..];
    auto using base_setTimeout, base_advance, base_count_fetch.
Qed.


Lemma base_request url config : preserves r_base (request url config).
Proof.
  apply request_preserves; [typeclasses eauto|intros; apply base_emit|..];
    auto using base_setTimeout, base_advance, base_count_fetch, base_emit, base_setCache.
  - intros ts. by apply base_modify.
  - intros n. by apply base_modify.
Qed.

Lemma nowrite_emit e : preserves r_nowrite (emit e).
Proof. intros c w. split; cbn; [by intros k v|done]. Qed.

Lemma nowrite_timestamps f :
  (forall c, cache (f c) = cache c) -> preserves r_nowrite (modify f).
Proof. intros Hf c w. split; cbn; [intros k v; by rewrite Hf|done]. Qed.

Lemma nowrite_abort ms : preserves r_nowrite (setTimeout TAbort ms).
Proof.
  intros c w. split; cbn; [by intros k v|].
  intros id due k. rewrite lookup_insert. case_decide; [done|done].
Qed.

Lemma nowrite_advance ms : preserves r_nowrite (advance ms).
Proof.
  intros c w. split; cbn; [apply run_actions_shrinks|].
  intros id due k H. by apply map_lookup_filter_Some in H as [H _].
Qed.

Lemma nowrite_count_fetch d : preserves r_nowrite (count_fetch d).
Proof. intros c w. split; cbn; [by intros k v|done]. Qed.

Lemma nowrite_request url config :
  cacheable config = false -> preserves r_nowrite (request url config).
Proof.
  intros Hc.
  apply request_preserves; [typeclasses eauto|intros; apply nowrite_emit|..];
    auto using nowrite_abort, nowrite_advance, nowrite_count_fetch, nowrite_emit.
  - intros ts. by apply nowrite_timestamps.
  - intros n. by apply nowrite_timestamps.
  - congruence.
Qed.

Lemma quiet_emit {X} (f : Event -> list X) e : f e = [] -> preserves (r_quiet f) (emit e).
Proof.
  intros He c w. unfold r_quiet. cbn. rewrite flat_map_app. cbn.
  by rewrite He, !app_nil_r.
Qed.

Lemma quiet_modify {X} (f : Event -> list X) g : preserves (r_quiet f) (modify g).
Proof. by intros c w. Qed.

Lemma quiet_setTimeout {X} (f : Event -> list X) a ms : preserves (r_quiet f) (setTimeout a ms).
Proof. by intros c w. Qed.

Lemma quiet_clearTimeout {X} (f : Event -> list X) id : preserves (r_quiet f) (clearTimeout id).
Proof. by intros c w. Qed.

Lemma quiet_advance {X} (f : Event -> list X) ms :
  (forall k, f (EvExpire k) = []) -> preserves (r_quiet f) (advance ms).
Proof.
  intros Hf c w. unfold r_quiet. cbn. rewrite flat_map_app.
  generalize (due_actions (now w + Z.max 0 ms) (timers w)). intros acts.
  assert (flat_map f (concat (List.map action_event acts)) = []) as ->; [|by rewrite app_nil_r].
  induction acts as [|a acts IH]; cbn; [done|].
  rewrite flat_map_app, IH, app_nil_r. destruct a; cbn; [|done].
  by rewrite Hf.
Qed.

Lemma quiet_count_fetch {X} (f : Event -> list X) d :
  (forall n u, f (EvFetch n u) = []) -> preserves (r_quiet f) (count_fetch d).
Proof.
  intros Hf c w. unfold r_quiet. cbn. rewrite flat_map_app. cbn.
  by rewrite Hf, !app_nil_r.
Qed.

(** One attempt never sleeps. *)
Lemma performRequest_no_delay url config :
  preserves (r_quiet delay_of) (performRequest url config).
Proof.
  apply performRequest_preserves; [typeclasses eauto|..].
  - intros e _ He. by apply quiet_emit.
  - intros ms. apply quiet_setTimeout.
  - intros ms. by apply quiet_advance.
  - intros d. by apply quiet_count_fetch.
Qed.

Lemma quiet_setCache {X} (f : Event -> list X) k d ttl : preserves (r_quiet f) (setCache k d ttl).
Proof.
  unfold setCache. walk;
    first [apply quiet_clearTimeout | apply quiet_setTimeout | apply quiet_modify].
Qed.

(** Past the token check, nothing writes to the console. *)
Lemma request_pipeline_no_warning url config :
  preserves (r_quiet warning_of) (request_pipeline url config).
Proof.
  apply request_pipeline_preserves; [typeclasses eauto|..].
  - intros e He _. by apply quiet_emit.
  - intros ms. apply quiet_setTimeout.
  - intros ms. by apply quiet_advance.
  - intros d. by apply quiet_count_fetch.
  - intros ms. by apply quiet_emit.
  - intros ts. apply quiet_modify.
  - intros n. apply quiet_modify.
  - intros _ k d ttl. apply quiet_setCache.
Qed.


(** ** The timer tables stay consistent *)

Lemma in_due_actions a t (tm : gmap nat (Z * TimerAction)) :
  a ∈ due_actions t tm <-> exists id due, tm !! id = Some (due, a) /\ due <= t.
Proof.
  unfold due_actions. rewrite list_elem_of_In, in_map_iff. split.
  - intros [[id [due a']] [<- Hin]]. apply filter_In in Hin as [Hin Hdue].
    apply list_elem_of_In, elem_of_map_to_list in Hin.
    exists id, due. split; [done|]. unfold is_due in Hdue. cbn in Hdue. lia.
  - intros (id & due & Hl & Hdue). exists (id, (due, a)). split; [done|].
    apply filter_In. split.
    + by apply list_elem_of_In, elem_of_map_to_list.
    + unfold is_due. cbn. lia.
Qed.

Lemma wf_emit e : preserves keeps_wf (emit e).
Proof. intros c w [H1 H2 H3 H4]; cbn in H1, H2, H3, H4. by split. Qed.

Lemma wf_timestamps ts : preserves keeps_wf (modify (set_requestTimestamps ts)).
Proof. intros c w [H1 H2 H3 H4]; cbn in H1, H2, H3, H4. by split. Qed.

Lemma wf_push n :
  preserves keeps_wf (modify (fun c => set_requestTimestamps (requestTimestamps c ++ [n]) c)).
Proof. intros c w [H1 H2 H3 H4]; cbn in H1, H2, H3, H4. by split. Qed.

Lemma wf_count_fetch d : preserves keeps_wf (count_fetch d).
Proof. intros c w [H1 H2 H3 H4]; cbn in H1, H2, H3, H4. by split. Qed.

Lemma wf_abort ms : preserves keeps_wf (setTimeout TAbort ms).
Proof.
  intros c w [H1 H2 H3 H4]; cbn in H1, H2, H3, H4. split; cbn.
  - intros k id Hk. destruct (H1 k id Hk) as [due Hd]. exists due.
    rewrite lookup_insert_ne; [done|].
    intros <-. assert (nextTimer w < nextTimer w)%nat; [|lia]. apply H4. by eexists.
  - intros id due k. rewrite lookup_insert. case_decide; [done|apply H2].
  - done.
  - intros id. rewrite lookup_insert. case_decide as E; [intros _; clear -E; lia|].
    intros Hid. apply H4 in Hid. lia.
Qed.

Lemma wf_advance ms : preserves keeps_wf (advance ms).
Proof.
  intros c w [H1 H2 H3 H4]; cbn in H1, H2, H3, H4. cbn. set (t := now w + Z.max 0 ms).
  split; cbn.
  - intros k id. rewrite run_actions_cacheTimers. case_bool_decide as Hin; [done|].
    intros Hk. destruct (H1 k id Hk) as [due Hd]. exists due.
    apply map_lookup_filter_Some. split; [done|]. cbn. intros Hdue.
    apply Hin, in_due_actions. by exists id, due.
  - intros id due k Hl. apply map_lookup_filter_Some in Hl as [Hl Hnd]. cbn in Hnd.
    rewrite run_actions_cacheTimers. case_bool_decide as Hin; [|by apply (H2 id due)].
    apply in_due_actions in Hin as (id' & due' & Hl' & Hdue').
    pose proof (H2 _ _ _ Hl) as Hr. pose proof (H2 _ _ _ Hl') as Hr'.
    assert (id' = id) as -> by congruence.
    assert (due' = due) as -> by congruence. done.
  - intros k. rewrite has_true, run_actions_cache, run_actions_cacheTimers.
    case_bool_decide as Hin.
    + split; intros H'; by destruct H'.
    + rewrite <- has_true. apply H3.
  - intros id [x Hx]. apply map_lookup_filter_Some in Hx as [Hx _]. apply H4. by eexists.
Qed.

Lemma setCache_run k d ttl c w :
  setCache k d ttl c w =
  (Ok tt,
   set_cacheTimers (<[k := nextTimer w]> (cacheTimers c)) (set_cache (JsMap.set k d (cache c)) c),
   mkWorld (now w)
     (<[nextTimer w := (now w + timer_delay (match ttl with Some t => t | None => cacheTTL c end),
                        TExpire k)]>
        (match cacheTimers c !! k with
         | Some old => delete old (timers w)
         | None => timers w
         end))
     (S (nextTimer w)) (fetches w) (trace w)).
Proof.
  unfold setCache, bind, this. cbn. destruct (cacheTimers c !! k); reflexivity.
Qed.

Lemma wf_setCache k d ttl : preserves keeps_wf (setCache k d ttl).
Proof.
  intros c w [H1 H2 H3 H4]; cbn in H1, H2, H3, H4. rewrite setCache_run. cbn.
  set (tm := match cacheTimers c !! k with Some old => delete old (timers w) | None => timers w end).
  assert (Hsub : forall id x, tm !! id = Some x -> timers w !! id = Some x).
  { intros id x. unfold tm. destruct (cacheTimers c !! k); [|done].
    rewrite lookup_delete. by case_decide. }
  assert (Hkeep : forall k' id x, k' <> k -> cacheTimers c !! k' = Some id ->
                    timers w !! id = Some x -> tm !! id = Some x).
  { intros k' id x Hne Hk' Hx. unfold tm. destruct (cacheTimers c !! k) as [old|] eqn:Ho; [|done].
    rewrite lookup_delete_ne; [done|]. intros <-.
    destruct (H1 _ _ Ho) as [d1 Hd1]. destruct (H1 _ _ Hk') as [d2 Hd2]. congruence. }
  assert (Hgone : forall id due, tm !! id = Some (due, TExpire k) -> False).
  { intros id due Hid. pose proof (Hsub _ _ Hid) as Hw. apply H2 in Hw.
    revert Hid. unfold tm. rewrite Hw, lookup_delete_eq. done. }
  split; cbn.
  - intros k' id. rewrite lookup_insert. case_decide as Hk.
    + subst k'. intros [= <-]. eexists. by rewrite lookup_insert_eq.
    + intros Hk'. destruct (H1 _ _ Hk') as [due Hd]. exists due.
      rewrite lookup_insert_ne.
      * by apply (Hkeep k').
      * intros <-. assert (nextTimer w < nextTimer w)%nat; [|lia]. apply H4. by eexists.
  - intros id due k'. rewrite lookup_insert. case_decide as Hid.
    + subst id. intros [= _ <-]. by rewrite lookup_insert_eq.
    + intros Hl. destruct (decide (k' = k)) as [->|Hne]; [by destruct (Hgone _ _ Hl)|].
      rewrite lookup_insert_ne by done. apply (H2 id due). by apply Hsub.
  - intros k'. rewrite has_true. destruct (decide (k = k')) as [<-|Hne].
    + rewrite get_set_eq, lookup_insert_eq. split; intros _; by eexists.
    + rewrite get_set_ne, lookup_insert_ne by done. rewrite <- has_true. apply H3.
  - intros id. rewrite lookup_insert. case_decide as E; [intros _; clear -E; lia|].
    intros [x Hx]. apply Hsub in Hx. assert (id < nextTimer w)%nat; [|lia].
    apply H4. by eexists.
Qed.

Lemma clearCache_run k c w :
  clearCache k c w =
  (Ok tt,
   set_cache (JsMap.delete k (cache c))
     (match cacheTimers c !! k with
      | Some _ => set_cacheTimers (delete k (cacheTimers c)) c
      | None => c
      end),
   match cacheTimers c !! k with
   | Some t => set_timers (delete t (timers w)) w
   | None => w
   end).
Proof.
  unfold clearCache, bind, this. cbn. destruct (cacheTimers c !! k); reflexivity.
Qed.

Lemma wf_clearCache k : preserves keeps_wf (clearCache k).
Proof.
  intros c w [H1 H2 H3 H4]; cbn in H1, H2, H3, H4. rewrite clearCache_run. cbn.
  destruct (cacheTimers c !! k) as [t|] eqn:Hk; cbn.
  - split; cbn.
    + intros k' id. rewrite lookup_delete. case_decide as Hne; [done|].
      intros Hk'. destruct (H1 _ _ Hk') as [due Hd]. exists due.
      rewrite lookup_delete_ne; [done|]. intros <-.
      destruct (H1 _ _ Hk) as [d1 Hd1]. congruence.
    + intros id due k'. rewrite lookup_delete. case_decide as Hid; [done|].
      intros Hl. pose proof (H2 _ _ _ Hl) as Hr.
      rewrite lookup_delete_ne; [done|]. intros <-. congruence.
    + intros k'. rewrite has_true. destruct (decide (k = k')) as [<-|Hne].
      * rewrite get_delete_eq, lookup_delete_eq. split; intros H'; by destruct H'.
      * rewrite get_delete_ne, lookup_delete_ne by done. rewrite <- has_true. apply H3.
    + intros id. rewrite lookup_delete. case_decide; [intros H'; by destruct H'|apply H4].
  - split; cbn; [done|done| |done].
    intros k'. rewrite has_true. destruct (decide (k = k')) as [<-|Hne].
    + rewrite get_delete_eq, Hk. split; intros H'; by destruct H'.
    + rewrite get_delete_ne by done. rewrite <- has_true. apply H3.
Qed.

Lemma set_timers_id w : set_timers (timers w) w = w.
Proof. by destruct w. Qed.

Lemma clearTimeouts_run ids c w :
  clearTimeouts ids c w =
  (Ok tt, c, set_timers (fold_left (fun m id => delete id m) ids (timers w)) w).
Proof.
  revert w. induction ids as [|id ids IH]; intros w; cbn.
  - by rewrite set_timers_id.
  - unfold bind, clearTimeout. cbn. by rewrite IH.
Qed.

Lemma lookup_fold_delete (ids : list nat) (tm : gmap nat (Z * TimerAction)) id :
  fold_left (fun m i => delete i m) ids tm !! id =
  if bool_decide (id ∈ ids) then None else tm !! id.
Proof.
  revert tm. induction ids as [|i ids IH]; intros tm; cbn; [done|].
  rewrite IH. destruct (decide (i = id)) as [->|Hne].
  - rewrite lookup_delete_eq, (bool_decide_eq_true_2 (id ∈ id :: ids)); [|by left].
    by destruct (bool_decide _).
  - rewrite lookup_delete_ne by done.
    apply (f_equal (fun b : bool => if b then None else tm !! id)).
    apply bool_decide_ext. rewrite elem_of_cons. split; [by right|intros [H|H]; [congruence|done]].
Qed.

Lemma clearAllCache_run c w :
  clearAllCache c w =
  (Ok tt, set_cache [] (set_cacheTimers ∅ c),
   set_timers (fold_left (fun m id => delete id m)
                 (List.map snd (map_to_list (cacheTimers c))) (timers w)) w).
Proof.
  unfold clearAllCache, bind, this. cbn. by rewrite clearTimeouts_run.
Qed.

Lemma registered_in_range (m : gmap string nat) k id :
  m !! k = Some id -> id ∈ List.map snd (map_to_list m).
Proof.
  intros H. apply list_elem_of_In, in_map_iff. exists (k, id). split; [done|].
  by apply list_elem_of_In, elem_of_map_to_list.
Qed.

(** After [clearAllCache] no expiry timer is pending. *)
Lemma clearAllCache_no_expiry c w id due k :
  wf c w -> timers (world_of (clearAllCache c w)) !! id <> Some (due, TExpire k).
Proof.
  intros [H1 H2 H3 H4]. rewrite clearAllCache_run. cbn.
  rewrite lookup_fold_delete. case_bool_decide as Hin; [done|].
  intros Hl. apply Hin. apply H2 in Hl. by eapply registered_in_range.
Qed.

Lemma wf_clearAllCache : preserves keeps_wf clearAllCache.
Proof.
  intros c w Hwf. pose proof (clearAllCache_no_expiry c w) as Hno.
  destruct Hwf as [H1 H2 H3 H4]; cbn in H1, H2, H3, H4.
  revert Hno. rewrite clearAllCache_run. cbn. intros Hno. split; cbn.
  - intros k id. by rewrite lookup_empty.
  - intros id due k Hl. destruct (Hno id due k); [by split|done].
  - intros k. rewrite lookup_empty. cbn. split; [done|intros H'; by destruct H'].
  - intros id. rewrite lookup_fold_delete. case_bool_decide; [intros H'; by destruct H'|apply H4].
Qed.

Lemma wf_request url config : preserves keeps_wf (request url config).
Proof.
  apply request_preserves; [typeclasses eauto|intros; apply wf_emit|..];
    auto using wf_abort, wf_advance, wf_count_fetch, wf_emit, wf_timestamps, wf_push,
               wf_setCache.
Qed.

Lemma wf_settle {A} (m : M A) : preserves keeps_wf m -> preserves keeps_wf (settle m).
Proof. intros Hm. unfold settle. walk. exact Hm. Qed.

Lemma wf_modify f :
  (forall c, cache (f c) = cache c /\ cacheTimers (f c) = cacheTimers c) ->
  preserves keeps_wf (modify f).
Proof.
  intros Hf c w [H1 H2 H3 H4]; cbn in H1, H2, H3, H4.
  destruct (Hf c) as [Hc Ht]. split; cbn; rewrite ?Hc, ?Ht; done.
Qed.

Lemma wf_run_call x : preserves keeps_wf (run_call x).
Proof.
  destruct x; cbn [run_call].
  - apply wf_modify. by intros c'.
  - unfold setRefreshToken. walk. apply wf_modify. by intros c'.
  - apply wf_modify. by intros c'.
  - apply wf_modify. by intros c'.
  - apply wf_modify. by intros c'.
  - apply wf_settle, wf_request.
  - apply wf_settle, wf_request.
  - apply wf_settle, wf_request.
  - apply wf_settle, wf_request.
  - apply wf_settle, wf_request.
  - apply wf_settle, wf_request.
  - apply wf_clearCache.
  - apply wf_clearAllCache.
  - apply wf_settle. unfold getRateLimitStatus. walk.
  - apply wf_settle. unfold getCacheStats. walk.
  - apply wf_advance.
Qed.

Lemma wf_run_calls l : preserves keeps_wf (run_calls l).
Proof. induction l; cbn [run_calls]; walk; [apply wf_run_call|done]. Qed.

(** A new client is consistent with any world that holds no expiry timer
    and whose timer ids are below the counter. *)
Lemma wf_constructor opts w :
  (forall id due a, timers w !! id = Some (due, a) -> a = TAbort /\ (id < nextTimer w)%nat) ->
  wf (constructor opts) w.
Proof.
  intros Hw. split; cbn.
  - intros k id. by rewrite lookup_empty.
  - intros id due k Hl. by destruct (Hw _ _ _ Hl).
  - intros k. rewrite lookup_empty. split; [done|intros H'; by destruct H'].
  - intros id [[due a] Hx]. by destruct (Hw _ _ _ Hx).
Qed.

(** ** Interceptor chains *)

Lemma log_nil w : log [] w = w.
Proof. destruct w. unfold log. cbn. by rewrite app_nil_r. Qed.


Lemma fold_throw {A} (l : list (A -> Res A)) e :
  fold_left (fun acc f => res_bind acc f) l (Throw e) = Throw e.
Proof. induction l; cbn; done. Qed.

Lemma chain_result_cons {A} (f : A -> Res A) l x :
  chain_result (f :: l) x = res_bind (f x) (chain_result l).
Proof.
  unfold chain_result. cbn. destruct (f x); cbn; [done|apply fold_throw].
Qed.

Lemma chain_result_app {A} (l1 l2 : list (A -> Res A)) x :
  chain_result (l1 ++ l2) x = res_bind (chain_result l1 x) (chain_result l2).
Proof.
  unfold chain_result. rewrite fold_left_app.
  destruct (fold_left _ l1 (Ok x)); cbn; [done|apply fold_throw].
Qed.

Lemma run_chain_run {A} ev i (l : list (A -> Res A)) x c w :
  run_chain ev i l x c w =
  (chain_result l x, c, log (List.map ev (seq i (invoked l x))) w).
Proof.
  revert i x w. induction l as [|f l IH]; intros i x w; cbn [run_chain invoked].
  - cbn. by rewrite log_nil.
  - rewrite chain_result_cons. unfold bind, emit, lift. cbn [seq List.map].
    destruct (f x) as [y|e]; cbn [res_bind].
    + rewrite IH. unfold log. cbn. by rewrite <- app_assoc.
    + done.
Qed.

Lemma total_chain_ok {A} (l : list (A -> Res A)) x :
  total l -> exists y, chain_result l x = Ok y.
Proof.
  intros Hl. revert x. induction Hl as [|f l Hf _ IH]; intros x.
  - by exists x.
  - rewrite chain_result_cons. destruct (Hf x) as [y ->]. cbn. apply IH.
Qed.

(** ** One attempt *)

Lemma bind_run {A B} (m : M A) (k : A -> M B) c w :
  bind m k c w =
  match m c w with
  | (Ok a, c', w') => k a c' w'
  | (Throw e, c', w') => (Throw e, c', w')
  end.
Proof. reflexivity. Qed.


Lemma core_fields c c' :
  core c' = core c ->
  maxRetries c' = maxRetries c /\ retryDelay c' = retryDelay c /\
  tokenExpiryTime c' = tokenExpiryTime c /\
  requestInterceptors c' = requestInterceptors c /\
  responseInterceptors c' = responseInterceptors c /\
  errorInterceptors c' = errorInterceptors c /\
  rateLimitConfig c' = rateLimitConfig c.
Proof. unfold core. intros [= ? ? ? ? ? ? ? ? ? ? ? ?]. repeat split; done. Qed.

Lemma buildFetchConfig_run url config c w :
  exists r,
    buildFetchConfig url config c w =
      (r, c,
       mkWorld (now w) (<[nextTimer w := (now w + timer_delay (timeout c), TAbort)]> (timers w))
               (S (nextTimer w)) (fetches w) (trace w))
    /\ match query_string config with
       | Ok _ =>
           exists built,
             r = Ok built /\ d_originalConfig built = config
             /\ d_method built = method_or_GET config
       | Throw e => r = Throw e
       end.
Proof.
  unfold buildFetchConfig, query_string. rewrite bind_run. unfold this at 1. cbv beta iota.
  rewrite bind_run. unfold createAbortSignal, setTimeout. cbv beta iota zeta.
  rewrite bind_run.
  destruct (cfg_params config) as [p|]; [destruct (truthy p)|].
  - rewrite bind_run. unfold lift.
    destruct (URLSearchParams_toString p) as [q|e]; cbn [res_map res_bind].
    + eexists. split; [reflexivity|]. eexists. split; [reflexivity|]. by split.
    + eexists. split; [reflexivity|]. reflexivity.
  - eexists. split; [reflexivity|]. eexists. split; [reflexivity|]. by split.
  - eexists. split; [reflexivity|]. eexists. split; [reflexivity|]. by split.
Qed.

(** When the query cannot be serialised the attempt ends in
    [buildFetchConfig]: no interceptor runs and the transport is not called. *)
Lemma performRequest_unbuilt url config c w e :
  query_string config = Throw e ->
  performRequest url config c w =
    (Throw e, c,
     mkWorld (now w) (<[nextTimer w := (now w + timer_delay (timeout c), TAbort)]> (timers w))
             (S (nextTimer w)) (fetches w) (trace w)).
Proof.
  intros Hq. destruct (buildFetchConfig_run url config c w) as (r & Hb & Hr).
  rewrite Hq in Hr. subst r. unfold performRequest. by rewrite bind_run, Hb.
Qed.

(** The result of one attempt is the composition, in this order, of
    [buildFetchConfig], the request chain, the transport, [handleResponse]
    and the response chain; the transport is called exactly when the
    descriptor was built and the request chain returns. *)
Lemma performRequest_cases url config c w :
  match outcome (buildFetchConfig url config c w) with
  | Ok built =>
      outcome (performRequest url config c w) =
        res_bind (chain_result (requestInterceptors c) built) (fun d =>
        res_bind (snd (fetch (fetches w) d)) (fun response =>
        res_bind (handleResponse response) (chain_result (responseInterceptors c))))
      /\ fetches (world_of (performRequest url config c w)) =
           match chain_result (requestInterceptors c) built with
           | Ok _ => S (fetches w)
           | Throw _ => fetches w
           end
  | Throw e =>
      outcome (performRequest url config c w) = Throw e
      /\ fetches (world_of (performRequest url config c w)) = fetches w
      /\ trace (world_of (performRequest url config c w)) = trace w
  end.
Proof.
  destruct (buildFetchConfig_run url config c w) as (r & Hb & _).
  rewrite Hb. cbn [outcome fst]. destruct r as [built|e0].
  - remember (performRequest url config c w) as X eqn:HX.
    unfold performRequest in HX. rewrite bind_run, Hb in HX.
    unfold executeRequestInterceptors in HX. rewrite !bind_run in HX. unfold this in HX.
    rewrite run_chain_run in HX.
    destruct (chain_result (requestInterceptors c) built) as [d|e]; cbn [res_bind];
      [|by subst X].
    unfold do_fetch in HX. rewrite !bind_run in HX.
    unfold count_fetch, advance, lift in HX.
    rewrite bind_run in HX. cbv beta in HX.
    cbn [log fetches now timers nextTimer trace] in HX.
    destruct (snd (fetch (fetches w) d)) as [response|e]; cbn [res_bind]; [|by subst X].
    rewrite bind_run in HX.
    destruct (handleResponse response) as [result|e]; cbn [res_bind]; [|by subst X].
    unfold executeResponseInterceptors in HX. rewrite bind_run in HX. unfold this in HX.
    rewrite run_chain_run in HX.
    destruct (core_fields _ _ (run_actions_core
      (due_actions (now w + Z.max 0 (fst (fetch (fetches w) d)))
         (<[nextTimer w := (now w + timer_delay (timeout c), TAbort)]> (timers w))) c))
      as (_ & _ & _ & _ & Hr & _).
    rewrite Hr in HX. by subst X.
  - unfold performRequest. rewrite bind_run, Hb. done.
Qed.

Lemma serialisable_built url config c w :
  serialisable config -> exists built, outcome (buildFetchConfig url config c w) = Ok built.
Proof.
  intros [q Hq]. destruct (buildFetchConfig_run url config c w) as (r & Hb & Hr).
  rewrite Hq in Hr. destruct Hr as (built & -> & _). exists built. by rewrite Hb.
Qed.

Lemma performRequest_run url config c w :
  serialisable config ->
  exists built,
    outcome (buildFetchConfig url config c w) = Ok built /\
    outcome (performRequest url config c w) =
      res_bind (chain_result (requestInterceptors c) built) (fun d =>
      res_bind (snd (fetch (fetches w) d)) (fun response =>
      res_bind (handleResponse response) (chain_result (responseInterceptors c)))) /\
    fetches (world_of (performRequest url config c w)) =
      match chain_result (requestInterceptors c) built with
      | Ok _ => S (fetches w)
      | Throw _ => fetches w
      end.
Proof.
  intros Hs. destruct (serialisable_built url config c w Hs) as [built Hb].
  pose proof (performRequest_cases url config c w) as H. rewrite Hb in H.
  exists built. by split.
Qed.

(** ** The retry loop *)

Lemma try_catch_run {A} (m : M A) (h : JsError -> M A) c w :
  try_catch m h c w =
  match m c w with
  | (Ok a, c', w') => (Ok a, c', w')
  | (Throw e, c', w') => h e c' w'
  end.
Proof. reflexivity. Qed.

Lemma performRequest_maxRetries url config c w :
  maxRetries (client_of (performRequest url config c w)) = maxRetries c.
Proof.
  destruct (base_performRequest url config c w) as [Hc _]. by apply core_fields in Hc as (? & _).
Qed.

Lemma sleep_run ms c w :
  exists c' w', sleep ms c w = (Ok tt, c', w') /\ core c' = core c.
Proof.
  unfold sleep, emit, advance. rewrite bind_run. cbv beta.
  eexists _, _. split; [reflexivity|]. apply run_actions_core.
Qed.

(** The structurally recursive loop satisfies the recursive equation that
    is the body of [retryRequest] in the source. *)
Lemma retryRequest_unfold url config attempt c w :
  retryRequest url config attempt c w =
  try_catch (performRequest url config) (fun error =>
    let! c' := this in
    if retries c' attempt error then
      sleep (retryDelay c' * 2 ^ Z.of_nat attempt) ;;
      retryRequest url config (S attempt)
    else throw error) c w.
Proof.
  unfold retryRequest at 1. rewrite bind_run. unfold this at 1. cbv beta iota.
  pose proof (performRequest_maxRetries url config c w) as Hmax.
  destruct (Z.to_nat (maxRetries c - Z.of_nat attempt)) as [|n] eqn:Hn; cbn [retry_loop];
    rewrite !try_catch_run;
    destruct (performRequest url config c w) as [[[r|e] c1] w1]; try done;
    cbn [client_of fst snd] in Hmax;
    rewrite (bind_run this); unfold this; cbv beta iota; unfold retries.
  - destruct (Z.ltb_spec (Z.of_nat attempt) (maxRetries c1)); [lia|done].
  - destruct (Z.ltb_spec (Z.of_nat attempt) (maxRetries c1)); [|lia]. cbn [andb].
    destruct (isRetryableError e); [|done].
    rewrite !bind_run. cbv beta iota.
    destruct (sleep_run (retryDelay c1 * 2 ^ Z.of_nat attempt) c1 w1) as (c2 & w2 & -> & Hc).
    apply core_fields in Hc as (Hm & _).
    unfold retryRequest. rewrite bind_run. unfold this. cbv beta iota.
    replace (Z.to_nat (maxRetries c2 - Z.of_nat (S attempt))) with n by lia. done.
Qed.

Lemma isRetryableError_spec e :
  isRetryableError e = true <->
  e_status e = None \/ e_status e = Some 0 \/ exists s, e_status e = Some s /\ 500 <= s.
Proof.
  unfold isRetryableError. destruct (e_status e) as [s|]; [|by split; [left|]].
  destruct (Z.eqb_spec s 0) as [->|Hs].
  - split; [by right; left|done].
  - rewrite Z.leb_le. split.
    + intros H. right. right. by exists s.
    + intros [H|[H|(s' & [= <-] & H)]]; [done|congruence|done].
Qed.

Lemma handleResponse_error response d :
  r_ok response = false -> read_body response = Ok d -> d <> DJson JNull ->
  exists e, handleResponse response = Throw e /\ e_status e = Some (r_status response).
Proof.
  intros Hok Hd Hnull. unfold handleResponse. rewrite Hd, Hok. cbn.
  destruct d as [[| | | | |]| |]; cbn; try (by destruct Hnull);
    (eexists; split; reflexivity).
Qed.

Lemma handleResponse_ok response d :
  r_ok response = true -> read_body response = Ok d ->
  handleResponse response =
    Ok {| status := r_status response; statusText := r_statusText response;
          headers := r_headers response; data := d; fromCache := false |}.
Proof. intros Hok Hd. unfold handleResponse. by rewrite Hd, Hok. Qed.

(** An attempt whose request chain returns and whose transport answers
    [response]: the result is that of [handleResponse] followed by the
    response chain; one call is made and nothing is slept. *)
Lemma attempt_with_response url config c w response :
  serialisable config ->
  total (requestInterceptors c) ->
  (forall d, snd (fetch (fetches w) d) = Ok response) ->
  exists c1 w1,
    performRequest url config c w =
      (res_bind (handleResponse response) (chain_result (responseInterceptors c)), c1, w1)
    /\ core c1 = core c
    /\ fetches w1 = S (fetches w)
    /\ delays (trace w1) = delays (trace w).
Proof.
  intros Hs Htot Hfetch.
  destruct (performRequest_run url config c w Hs) as (built & _ & Hout & Hn).
  destruct (total_chain_ok _ built Htot) as [d Hd]. rewrite Hd in Hout, Hn.
  cbn [res_bind] in Hout. rewrite Hfetch in Hout. cbn [res_bind] in Hout.
  destruct (base_performRequest url config c w) as [Hcore _].
  pose proof (performRequest_no_delay url config c w) as Hq. unfold r_quiet in Hq.
  destruct (performRequest url config c w) as [[r c1] w1].
  cbn in Hout, Hn, Hcore, Hq. subst r. by exists c1, w1.
Qed.

Lemma sleep_effect ms c w :
  exists c' w',
    sleep ms c w = (Ok tt, c', w') /\ core c' = core c /\ fetches w' = fetches w
    /\ delays (trace w') = delays (trace w) ++ [ms].
Proof.
  unfold sleep. rewrite bind_run. unfold emit. cbv beta iota.
  pose proof (base_advance (timer_delay ms) c (log [EvDelay ms] w)) as [Hc _].
  pose proof (quiet_advance delay_of (timer_delay ms) (fun _ => eq_refl) c
                (log [EvDelay ms] w)) as Hq.
  unfold r_quiet in Hq. fold (log [EvDelay ms] w).
  destruct (advance (timer_delay ms) c (log [EvDelay ms] w)) as [[r c'] w'] eqn:Hadv.
  assert (r = Ok tt /\ fetches w' = fetches w) as [-> Hf].
  { unfold advance in Hadv. by inversion Hadv. }
  cbn in Hc, Hq. exists c', w'. repeat split; [done|done|].
  unfold delays. rewrite Hq. cbn. by rewrite flat_map_app.
Qed.

Lemma retry_after_failure url config attempt c w e c1 w1 :
  performRequest url config c w = (Throw e, c1, w1) ->
  retries c1 attempt e = true ->
  exists c2 w2,
    retryRequest url config attempt c w = retryRequest url config (S attempt) c2 w2
    /\ core c2 = core c1 /\ fetches w2 = fetches w1
    /\ delays (trace w2) = delays (trace w1) ++ [retryDelay c1 * 2 ^ Z.of_nat attempt].
Proof.
  intros Hp Hr. rewrite retryRequest_unfold, try_catch_run, Hp, bind_run.
  unfold this. cbv beta iota. rewrite Hr, bind_run.
  destruct (sleep_effect (retryDelay c1 * 2 ^ Z.of_nat attempt) c1 w1) as (c2 & w2 & -> & H).
  by exists c2, w2.
Qed.

Lemma no_retry_after_failure url config attempt c w e c1 w1 :
  performRequest url config c w = (Throw e, c1, w1) ->
  retries c1 attempt e = false ->
  retryRequest url config attempt c w = (Throw e, c1, w1).
Proof.
  intros Hp Hr. rewrite retryRequest_unfold, try_catch_run, Hp, bind_run.
  unfold this. cbv beta iota. by rewrite Hr.
Qed.

Lemma no_retry_after_success url config attempt c w r c1 w1 :
  performRequest url config c w = (Ok r, c1, w1) ->
  retryRequest url config attempt c w = (Ok r, c1, w1).
Proof. intros Hp. by rewrite retryRequest_unfold, try_catch_run, Hp. Qed.

Lemma retries_spec c attempt e :
  retries c attempt e = true <->
  Z.of_nat attempt < maxRetries c /\
  (e_status e = None \/ e_status e = Some 0 \/ exists s, e_status e = Some s /\ 500 <= s).
Proof.
  unfold retries. rewrite andb_true_iff, Z.ltb_lt, isRetryableError_spec. done.
Qed.

Lemma core_total c c' :
  core c' = core c ->
  (total (requestInterceptors c) -> total (requestInterceptors c')) /\
  (total (responseInterceptors c) -> total (responseInterceptors c')).
Proof. intros H. apply core_fields in H as (_ & _ & _ & -> & -> & _). done. Qed.

(** Two 503 answers, then a success, with three retries allowed. *)
Lemma retry_503_503_success url config c w r1 r2 r3 d1 d2 d3 :
  serialisable config ->
  maxRetries c = 3 ->
  total (requestInterceptors c) -> total (responseInterceptors c) ->
  (forall d, snd (fetch (fetches w) d) = Ok r1) ->
  (forall d, snd (fetch (S (fetches w)) d) = Ok r2) ->
  (forall d, snd (fetch (S (S (fetches w))) d) = Ok r3) ->
  r_status r1 = 503 -> read_body r1 = Ok d1 -> d1 <> DJson JNull ->
  r_status r2 = 503 -> read_body r2 = Ok d2 -> d2 <> DJson JNull ->
  r_ok r3 = true -> read_body r3 = Ok d3 ->
  exists env,
    outcome (retryRequest url config 0 c w) = Ok env
    /\ chain_result (responseInterceptors c)
         {| status := r_status r3; statusText := r_statusText r3;
            headers := r_headers r3; data := d3; fromCache := false |} = Ok env
    /\ delays (trace (world_of (retryRequest url config 0 c w))) =
         delays (trace w) ++ [retryDelay c * 1; retryDelay c * 2]
    /\ fetches (world_of (retryRequest url config 0 c w)) = S (S (S (fetches w))).
Proof.
  intros Hser Hmax Hrq Hrs F1 F2 F3 S1 B1 N1 S2 B2 N2 S3 B3.
  destruct (handleResponse_error r1 d1) as (e1 & He1 & Hs1); [by unfold r_ok; rewrite S1|done..|].
  destruct (handleResponse_error r2 d2) as (e2 & He2 & Hs2); [by unfold r_ok; rewrite S2|done..|].
  pose proof (handleResponse_ok r3 d3 S3 B3) as He3.
  (* first attempt *)
  destruct (attempt_with_response url config c w r1 Hser Hrq F1) as (c1 & w1 & Hp1 & Hc1 & Hf1 & Hd1).
  rewrite He1 in Hp1. cbn [res_bind] in Hp1.
  destruct (retry_after_failure url config 0 c w e1 c1 w1 Hp1)
    as (c2 & w2 & Heq1 & Hc2 & Hf2 & Hd2).
  { apply retries_spec. apply core_fields in Hc1 as (-> & _). split; [lia|].
    right. right. exists 503. split; [congruence|lia]. }
  (* second attempt *)
  assert (Hcore2 : core c2 = core c) by congruence.
  destruct (core_total _ _ Hcore2) as [Hrq2 Hrs2].
  rewrite <- Hf1, <- Hf2 in F2.
  destruct (attempt_with_response url config c2 w2 r2 Hser (Hrq2 Hrq) F2)
    as (c3 & w3 & Hp3 & Hc3 & Hf3 & Hd3).
  rewrite He2 in Hp3. cbn [res_bind] in Hp3.
  destruct (retry_after_failure url config 1%nat c2 w2 e2 c3 w3 Hp3)
    as (c4 & w4 & Heq2 & Hc4 & Hf4 & Hd4).
  { apply retries_spec. assert (core c3 = core c) as Hc by congruence.
    apply core_fields in Hc as (-> & _). split; [lia|].
    right. right. exists 503. split; [congruence|lia]. }
  (* third attempt *)
  assert (Hcore4 : core c4 = core c) by congruence.
  destruct (core_total _ _ Hcore4) as [Hrq4 Hrs4].
  assert (fetches w4 = S (S (fetches w))) as Hf by congruence.
  rewrite <- Hf in F3.
  destruct (attempt_with_response url config c4 w4 r3 Hser (Hrq4 Hrq) F3)
    as (c5 & w5 & Hp5 & Hc5 & Hf5 & Hd5).
  rewrite He3 in Hp5. cbn [res_bind] in Hp5.
  pose proof Hcore4 as Hcf. apply core_fields in Hcf as (_ & _ & _ & _ & Hresp & _).
  rewrite Hresp in Hp5.
  destruct (total_chain_ok (responseInterceptors c)
              {| status := r_status r3; statusText := r_statusText r3;
                 headers := r_headers r3; data := d3; fromCache := false |} Hrs) as [env Henv].
  rewrite Henv in Hp5.
  pose proof (no_retry_after_success url config 2%nat c4 w4 env c5 w5 Hp5) as Heq3.
  exists env. rewrite Heq1, Heq2, Heq3. cbn [outcome world_of fst snd].
  split; [done|]. split; [done|]. split; [|congruence].
  rewrite Hd5, Hd4, Hd3, Hd2, Hd1.
  assert (retryDelay c1 = retryDelay c) as ->
    by (by apply core_fields in Hc1 as (_ & -> & _)).
  assert (retryDelay c3 = retryDelay c) as ->.
  { assert (core c3 = core c) as Hc by congruence. by apply core_fields in Hc as (_ & -> & _). }
  rewrite <- app_assoc. done.
Qed.

(** A 404 answer is not retried. *)
Lemma no_retry_on_404 url config c w r d0 :
  serialisable config ->
  total (requestInterceptors c) ->
  (forall d, snd (fetch (fetches w) d) = Ok r) ->
  r_status r = 404 -> read_body r = Ok d0 -> d0 <> DJson JNull ->
  exists e,
    outcome (retryRequest url config 0 c w) = Throw e
    /\ e_status e = Some 404
    /\ delays (trace (world_of (retryRequest url config 0 c w))) = delays (trace w)
    /\ fetches (world_of (retryRequest url config 0 c w)) = S (fetches w).
Proof.
  intros Hser Hrq F1 S1 B1 N1.
  destruct (handleResponse_error r d0) as (e & He & Hs); [by unfold r_ok; rewrite S1|done..|].
  destruct (attempt_with_response url config c w r Hser Hrq F1) as (c1 & w1 & Hp1 & Hc1 & Hf1 & Hd1).
  rewrite He in Hp1. cbn [res_bind] in Hp1.
  rewrite (no_retry_after_failure url config 0 c w e c1 w1 Hp1).
  - exists e. cbn [outcome world_of fst snd]. repeat split; congruence.
  - unfold retries, isRetryableError. rewrite Hs, S1. cbn. by rewrite andb_false_r.
Qed.

Lemma timer_delay_in_range ms : 1 <= ms <= TIMEOUT_MAX -> timer_delay ms = ms.
Proof.
  intros [H1 H2]. unfold timer_delay.
  destruct (Z.leb_spec 1 ms); [|lia]. destruct (Z.leb_spec ms TIMEOUT_MAX); [done|lia].
Qed.

Lemma sleep_clock ms c w : now (world_of (sleep ms c w)) = now w + Z.max 0 (timer_delay ms).
Proof. reflexivity. Qed.

Lemma timer_delay_pos ms : 1 <= timer_delay ms.
Proof.
  unfold timer_delay. destruct (Z.leb_spec 1 ms); [|cbn; lia].
  destruct (ms <=? TIMEOUT_MAX); cbn; lia.
Qed.

(** C1 (as amended). An error raised by an attempt (attempts are counted
    from 0) is retried exactly when the attempt number is below
    [maxRetries] and the error's status is absent, zero, or at least 500;
    the retry follows a delay of [retryDelay * 2^attempt] ms asked of the
    timer and runs as attempt + 1; the timer waits that long when the delay
    lies between 1 and [2^31 - 1] ms, and 1 ms otherwise.  So, when the
    query parameters can be serialised, no interceptor throws, every body can
    be read and the body of an error response is not JSON [null]: with
    [maxRetries = 3], a transport answering 503, 503 and then a success
    gives the successful result after exactly the two delays
    [retryDelay * 1] and [retryDelay * 2], and a transport answering 404
    fails on the first attempt, without delay, with the status-404 error. *)
Theorem C1_retry_with_backoff :
  (forall url config attempt c w,
     retryRequest url config attempt c w =
     try_catch (performRequest url config) (fun error =>
       let! c' := this in
       if retries c' attempt error then
         sleep (retryDelay c' * 2 ^ Z.of_nat attempt) ;;
         retryRequest url config (S attempt)
       else throw error) c w)
  /\ (forall c attempt e,
        retries c attempt e = true <->
        Z.of_nat attempt < maxRetries c /\
        (e_status e = None \/ e_status e = Some 0 \/
         exists s, e_status e = Some s /\ 500 <= s))
  /\ (forall ms c w,
        delays (trace (world_of (sleep ms c w))) = delays (trace w) ++ [ms]
        /\ now (world_of (sleep ms c w)) = now w + timer_delay ms
        /\ (1 <= ms <= TIMEOUT_MAX -> timer_delay ms = ms)
        /\ (ms < 1 \/ TIMEOUT_MAX < ms -> timer_delay ms = 1))
  /\ (forall url config c w r1 r2 r3 d1 d2 d3,
        serialisable config ->
        maxRetries c = 3 ->
        total (requestInterceptors c) -> total (responseInterceptors c) ->
        (forall d, snd (fetch (fetches w) d) = Ok r1) ->
        (forall d, snd (fetch (S (fetches w)) d) = Ok r2) ->
        (forall d, snd (fetch (S (S (fetches w))) d) = Ok r3) ->
        r_status r1 = 503 -> read_body r1 = Ok d1 -> d1 <> DJson JNull ->
        r_status r2 = 503 -> read_body r2 = Ok d2 -> d2 <> DJson JNull ->
        r_ok r3 = true -> read_body r3 = Ok d3 ->
        exists env,
          outcome (retryRequest url config 0 c w) = Ok env
          /\ chain_result (responseInterceptors c)
               {| status := r_status r3; statusText := r_statusText r3;
                  headers := r_headers r3; data := d3; fromCache := false |} = Ok env
          /\ delays (trace (world_of (retryRequest url config 0 c w))) =
               delays (trace w) ++ [retryDelay c * 1; retryDelay c * 2]
          /\ fetches (world_of (retryRequest url config 0 c w)) = S (S (S (fetches w))))
  /\ (forall url config c w r d0,
        serialisable config ->
        total (requestInterceptors c) ->
        (forall d, snd (fetch (fetches w) d) = Ok r) ->
        r_status r = 404 -> read_body r = Ok d0 -> d0 <> DJson JNull ->
        exists e,
          outcome (retryRequest url config 0 c w) = Throw e
          /\ e_status e = Some 404
          /\ delays (trace (world_of (retryRequest url config 0 c w))) = delays (trace w)
          /\ fetches (world_of (retryRequest url config 0 c w)) = S (fetches w)).
Proof.
  split; [exact retryRequest_unfold|].
  split; [exact retries_spec|].
  split.
  { intros ms c w. destruct (sleep_effect ms c w) as (c' & w' & Hs & _ & _ & Hd).
    pose proof (sleep_clock ms c w) as Hn. pose proof (timer_delay_pos ms) as Hp.
    rewrite Hs in Hn |- *. cbn [world_of snd] in Hn |- *.
    split; [done|]. split; [lia|]. split; [apply timer_delay_in_range|].
    intros Hout. unfold timer_delay.
    destruct (Z.leb_spec 1 ms); [|done]. destruct (Z.leb_spec ms TIMEOUT_MAX); [lia|done]. }
  split; [exact retry_503_503_success|exact no_retry_on_404].
Qed.

(** ** [request], step by step *)

Lemma refresh_step_run c w :
  exists evs,
    refresh_step c w = (Ok tt, c, log evs w)
    /\ (forall e, e ∈ evs -> exists m, e = EvWarn m)
    /\ (tokenExpiryTime c = None -> evs = []).
Proof.
  unfold refresh_step, isTokenExpired. rewrite !bind_run. unfold this at 1. cbv beta iota.
  destruct (tokenExpiryTime c) as [t|] eqn:Ht.
  - destruct (t =? 0).
    + exists []. rewrite log_nil.
      split; [done|]. split; [intros e He; inversion He|done].
    + rewrite bind_run. unfold Date_now, ret, this. cbv beta iota.
      rewrite bind_run. cbv beta iota.
      destruct ((t - 60000 <? now w) && str_truthy (refreshToken c)); cbn [when].
      * eexists [_]. unfold refreshAuthToken, emit, log. split; [reflexivity|].
        split; [|done]. intros e He. apply list_elem_of_singleton in He. by eexists.
      * exists []. rewrite log_nil.
        split; [done|]. split; [intros e He; inversion He|done].
  - exists []. rewrite log_nil.
    split; [done|]. split; [intros e He; inversion He|done].
Qed.

Lemma error_handler_run {A} e c w :
  (let! handledError := executeErrorInterceptors e in @throw A handledError) c w =
  (Throw (raised (chain_result (errorInterceptors c) e)), c,
   log (List.map EvErrorInterceptor (seq 0 (invoked (errorInterceptors c) e))) w).
Proof.
  rewrite bind_run. unfold executeErrorInterceptors. rewrite bind_run. unfold this.
  cbv beta iota. rewrite run_chain_run. by destruct (chain_result _ e).
Qed.

(** [request] is the admitted pipeline run after the token check, with
    every error it throws sent through the error chain and thrown again. *)
Lemma request_run url config c w :
  exists evs,
    (forall e, e ∈ evs -> exists m, e = EvWarn m)
    /\ (tokenExpiryTime c = None -> evs = [])
    /\ request url config c w =
       match request_pipeline url config c (log evs w) with
       | (Ok r, c1, w1) => (Ok r, c1, w1)
       | (Throw e, c1, w1) =>
           (Throw (raised (chain_result (errorInterceptors c1) e)), c1,
            log (List.map EvErrorInterceptor (seq 0 (invoked (errorInterceptors c1) e))) w1)
       end.
Proof.
  destruct (refresh_step_run c w) as (evs & Hr & Hw & Hn). exists evs.
  split; [done|]. split; [done|].
  unfold request. rewrite try_catch_run. unfold request_body. rewrite bind_run, Hr.
  destruct (request_pipeline url config c (log evs w)) as [[[r|e] c1] w1]; [done|].
  apply error_handler_run.
Qed.

(** ** Rate limiting *)

Lemma checkRateLimit_run c w :
  checkRateLimit c w =
  if maxRequests (rateLimitConfig c) <=? Z.of_nat (length (in_window c (now w))) then
    (Throw (plain_error (MsgRateLimit
       (option_map ceil_seconds
          (option_map (fun o => windowMs (rateLimitConfig c) - (now w - o))
                      (head (in_window c (now w))))))),
     set_requestTimestamps (in_window c (now w)) c, w)
  else
    (Ok tt, set_requestTimestamps (in_window c (now w) ++ [now w]) c, w).
Proof.
  unfold checkRateLimit. rewrite !bind_run. unfold Date_now, this. cbv beta iota.
  rewrite bind_run. unfold modify at 1. cbv beta iota. fold (in_window c (now w)).
  by destruct (_ <=? _).
Qed.

Lemma ceil_seconds_pos ms : 0 < ms -> 1 <= ceil_seconds ms.
Proof.
  intros H. unfold ceil_seconds.
  assert (- ms / 1000 < 0); [|lia]. apply Z.div_lt_upper_bound; lia.
Qed.

Lemma in_window_bound c n t : t ∈ in_window c n -> n - windowMs (rateLimitConfig c) < t.
Proof.
  unfold in_window. rewrite list_elem_of_In, filter_In. intros [_ H]. lia.
Qed.

(** When the limit is reached (and is at least one), the check throws with
    a positive number of seconds and records nothing. *)
Lemma checkRateLimit_rejects c w :
  1 <= maxRequests (rateLimitConfig c) ->
  maxRequests (rateLimitConfig c) <= Z.of_nat (length (in_window c (now w))) ->
  exists oldest,
    head (in_window c (now w)) = Some oldest
    /\ checkRateLimit c w =
         (Throw (rate_limit_error c (now w) oldest),
          set_requestTimestamps (in_window c (now w)) c, w)
    /\ 1 <= ceil_seconds (windowMs (rateLimitConfig c) - (now w - oldest)).
Proof.
  intros Hpos Hfull. rewrite checkRateLimit_run.
  destruct (Z.leb_spec (maxRequests (rateLimitConfig c))
              (Z.of_nat (length (in_window c (now w))))); [|lia].
  destruct (in_window c (now w)) as [|oldest rest] eqn:Hk; [cbn in Hfull; lia|].
  exists oldest. split; [done|]. split; [done|].
  apply ceil_seconds_pos.
  assert (oldest ∈ in_window c (now w)) as Hin by (rewrite Hk; by left).
  apply in_window_bound in Hin. lia.
Qed.

Lemma checkRateLimit_admits c w :
  Z.of_nat (length (in_window c (now w))) < maxRequests (rateLimitConfig c) ->
  checkRateLimit c w =
    (Ok tt, set_requestTimestamps (in_window c (now w) ++ [now w]) c, w).
Proof.
  intros H. rewrite checkRateLimit_run.
  destruct (Z.leb_spec (maxRequests (rateLimitConfig c))
              (Z.of_nat (length (in_window c (now w))))); [lia|done].
Qed.

#[local] Instance r_stamps_preorder : PreOrder r_stamps.
Proof.
  split.
  - intros s. by unfold r_stamps.
  - intros s1 s2 s3 H1 H2. unfold r_stamps in *. congruence.
Qed.

Lemma stamps_world {A} (m : M A) :
  (forall c w, client_of (m c w) = c) -> preserves r_stamps m.
Proof. intros H c w. unfold r_stamps. cbn. by rewrite H. Qed.

Lemma stamps_advance ms : preserves r_stamps (advance ms).
Proof. intros c w. unfold r_stamps. cbn. apply run_actions_timestamps. Qed.

Lemma stamps_setCache k d ttl : preserves r_stamps (setCache k d ttl).
Proof. intros c w. unfold r_stamps. by rewrite setCache_run. Qed.

Lemma stamps_serve url config : preserves r_stamps (serve url config).
Proof.
  apply serve_preserves; [typeclasses eauto|..];
    try (intros; by apply stamps_world).
  - apply stamps_advance.
  - intros _. apply stamps_setCache.
Qed.

(** A call over the limit: [request] raises the rate-limit error (after the
    error chain), records no instant and never reaches the transport. *)
Lemma request_rejected url config c w :
  1 <= maxRequests (rateLimitConfig c) ->
  maxRequests (rateLimitConfig c) <= Z.of_nat (length (in_window c (now w))) ->
  exists oldest evs,
    head (in_window c (now w)) = Some oldest
    /\ 1 <= ceil_seconds (windowMs (rateLimitConfig c) - (now w - oldest))
    /\ request url config c w =
         (Throw (raised (chain_result (errorInterceptors c)
                           (rate_limit_error c (now w) oldest))),
          set_requestTimestamps (in_window c (now w)) c,
          log (List.map EvErrorInterceptor
                 (seq 0 (invoked (errorInterceptors c) (rate_limit_error c (now w) oldest))))
              (log evs w))
    /\ (forall e, e ∈ evs -> exists m, e = EvWarn m).
Proof.
  intros Hpos Hfull.
  destruct (request_run url config c w) as (evs & Hw & _ & Hreq).
  destruct (checkRateLimit_rejects c (log evs w) Hpos Hfull) as (oldest & Hh & Hc & Hs).
  exists oldest, evs. split; [done|]. split; [done|]. split; [|done].
  rewrite Hreq. unfold request_pipeline. rewrite bind_run, Hc. done.
Qed.

(** A call under the limit: the instant is recorded and [request] goes on
    to serve the call. *)
Lemma request_admitted url config c w :
  Z.of_nat (length (in_window c (now w))) < maxRequests (rateLimitConfig c) ->
  requestTimestamps (client_of (request url config c w)) = in_window c (now w) ++ [now w]
  /\ exists evs,
       request url config c w =
       match serve url config
               (set_requestTimestamps (in_window c (now w) ++ [now w]) c) (log evs w) with
       | (Ok r, c1, w1) => (Ok r, c1, w1)
       | (Throw e, c1, w1) =>
           (Throw (raised (chain_result (errorInterceptors c1) e)), c1,
            log (List.map EvErrorInterceptor (seq 0 (invoked (errorInterceptors c1) e))) w1)
       end.
Proof.
  intros Hfree.
  destruct (request_run url config c w) as (evs & Hw & _ & Hreq).
  pose proof (checkRateLimit_admits c (log evs w) Hfree) as Hc. cbn [now log] in Hc.
  assert (Heq : request url config c w =
       match serve url config
               (set_requestTimestamps (in_window c (now w) ++ [now w]) c) (log evs w) with
       | (Ok r, c1, w1) => (Ok r, c1, w1)
       | (Throw e, c1, w1) =>
           (Throw (raised (chain_result (errorInterceptors c1) e)), c1,
            log (List.map EvErrorInterceptor (seq 0 (invoked (errorInterceptors c1) e))) w1)
       end).
  { rewrite Hreq. unfold request_pipeline. by rewrite bind_run, Hc. }
  split; [|by exists evs].
  rewrite Heq.
  pose proof (stamps_serve url config
    (set_requestTimestamps (in_window c (now w) ++ [now w]) c) (log evs w)) as Hs.
  unfold r_stamps in Hs.
  destruct (serve url config _ (log evs w)) as [[[r|e] c1] w1]; exact Hs.
Qed.

Lemma filter_keep_all (f : Z -> bool) l :
  (forall x, x ∈ l -> f x = true) -> List.filter f l = l.
Proof.
  induction l as [|x l IH]; intros H; cbn; [done|].
  rewrite (H x) by (by left). f_equal. apply IH. intros y Hy. apply H. by right.
Qed.

Lemma filter_drop_all (f : Z -> bool) l :
  (forall x, x ∈ l -> f x = false) -> List.filter f l = [].
Proof.
  induction l as [|x l IH]; intros H; cbn; [done|].
  rewrite (H x) by (by left). apply IH. intros y Hy. apply H. by right.
Qed.

(** Calls at instants that all lie in one window are admitted while the
    limit is not reached, and each is recorded. *)
Lemma checks_pass_burst lo hi times c w :
  hi - lo <= windowMs (rateLimitConfig c) ->
  (forall t, t ∈ requestTimestamps c ++ times -> lo < t <= hi) ->
  Z.of_nat (length (requestTimestamps c ++ times)) <= maxRequests (rateLimitConfig c) ->
  exists c' w',
    checks_pass times c w = Some (c', w')
    /\ requestTimestamps c' = requestTimestamps c ++ times
    /\ rateLimitConfig c' = rateLimitConfig c.
Proof.
  revert c w. induction times as [|t times IH]; intros c w Hwin Hin Hlen.
  - exists c, w. by rewrite app_nil_r.
  - cbn [checks_pass]. unfold checkRateLimit_at.
    set (w0 := mkWorld t (timers w) (nextTimer w) (fetches w) (trace w)).
    assert (Hkeep : in_window c (now w0) = requestTimestamps c).
    { unfold in_window. apply filter_keep_all. intros x Hx. cbn.
      assert (lo < x <= hi) by (apply Hin, elem_of_app; by left).
      assert (lo < t <= hi) by (apply Hin, elem_of_app; right; by left). lia. }
    rewrite checkRateLimit_admits; rewrite Hkeep.
    2:{ rewrite length_app in Hlen. cbn in Hlen. lia. }
    destruct (IH (set_requestTimestamps (requestTimestamps c ++ [now w0]) c) w0)
      as (c' & w' & Hp & Ht & Hr).
    + done.
    + cbn. intros x. rewrite <- app_assoc. apply Hin.
    + cbn. by rewrite <- app_assoc.
    + exists c', w'. split; [done|]. cbn in Ht, Hr. by rewrite Ht, <- app_assoc.
Qed.

(** [maxRequests] calls in one window pass, one more in the same window is
    rejected with a positive wait, and a call made once the window has
    passed is admitted again. *)
Lemma rate_limit_burst lo hi times t t' c w :
  1 <= maxRequests (rateLimitConfig c) ->
  requestTimestamps c = [] ->
  Z.of_nat (length times) = maxRequests (rateLimitConfig c) ->
  hi - lo <= windowMs (rateLimitConfig c) ->
  (forall x, x ∈ times -> lo < x <= hi) ->
  lo < t <= hi ->
  (forall x, x ∈ times -> x <= t' - windowMs (rateLimitConfig c)) ->
  exists c' w',
    checks_pass times c w = Some (c', w')
    /\ (exists seconds,
          checkRateLimit_at t c' w' =
            (Throw (plain_error (MsgRateLimit (Some seconds))), c',
             mkWorld t (timers w') (nextTimer w') (fetches w') (trace w'))
          /\ 1 <= seconds)
    /\ outcome (checkRateLimit_at t' c' w') = Ok tt.
Proof.
  intros Hpos Hempty Hlen Hwin Hin Ht Hafter.
  destruct (checks_pass_burst lo hi times c w) as (c' & w' & Hp & Hts & Hrl).
  { done. } { by rewrite Hempty. } { rewrite Hempty. cbn. lia. }
  rewrite Hempty in Hts. cbn in Hts.
  exists c', w'. split; [done|]. split.
  - unfold checkRateLimit_at.
    set (w0 := mkWorld t (timers w') (nextTimer w') (fetches w') (trace w')).
    assert (Hkeep : in_window c' (now w0) = times).
    { unfold in_window. rewrite Hts, Hrl. apply filter_keep_all. intros x Hx. cbn.
      specialize (Hin x Hx). lia. }
    destruct (checkRateLimit_rejects c' w0) as (oldest & Hh & Hc & Hs).
    { by rewrite Hrl. } { rewrite Hkeep, Hrl. lia. }
    eexists. split; [|exact Hs]. rewrite Hc, Hkeep. unfold rate_limit_error.
    f_equal. f_equal. destruct c'. cbn in *. by subst.
  - unfold checkRateLimit_at.
    set (w0 := mkWorld t' (timers w') (nextTimer w') (fetches w') (trace w')).
    assert (Hdrop : in_window c' (now w0) = []).
    { unfold in_window. rewrite Hts, Hrl. apply filter_drop_all. intros x Hx. cbn.
      specialize (Hafter x Hx). lia. }
    rewrite checkRateLimit_admits; [done|]. rewrite Hdrop, Hrl. cbn. lia.
Qed.

(** C2 (as amended). With [maxRequests >= 1]: after the instants outside
    the window are pruned, a call that finds [maxRequests] or more instants
    left fails with the rate-limit error, whose wait is the ceiling in
    seconds of the time left in the window of the oldest instant and is
    positive, and no instant is recorded; [request] then raises that error
    (through the error chain) without calling the transport.  A call that
    finds fewer instants records the current instant and goes on.  Hence
    [maxRequests] calls in one window pass, the next one in that window is
    rejected, and a call after the window has passed is admitted. *)
Theorem C2_rate_limit :
  (forall c w,
     1 <= maxRequests (rateLimitConfig c) ->
     maxRequests (rateLimitConfig c) <= Z.of_nat (length (in_window c (now w))) ->
     exists oldest,
       head (in_window c (now w)) = Some oldest
       /\ checkRateLimit c w =
            (Throw (rate_limit_error c (now w) oldest),
             set_requestTimestamps (in_window c (now w)) c, w)
       /\ 1 <= ceil_seconds (windowMs (rateLimitConfig c) - (now w - oldest)))
  /\ (forall c w,
        Z.of_nat (length (in_window c (now w))) < maxRequests (rateLimitConfig c) ->
        checkRateLimit c w =
          (Ok tt, set_requestTimestamps (in_window c (now w) ++ [now w]) c, w))
  /\ (forall url config c w,
        1 <= maxRequests (rateLimitConfig c) ->
        maxRequests (rateLimitConfig c) <= Z.of_nat (length (in_window c (now w))) ->
        exists oldest evs,
          head (in_window c (now w)) = Some oldest
          /\ 1 <= ceil_seconds (windowMs (rateLimitConfig c) - (now w - oldest))
          /\ request url config c w =
               (Throw (raised (chain_result (errorInterceptors c)
                                 (rate_limit_error c (now w) oldest))),
                set_requestTimestamps (in_window c (now w)) c,
                log (List.map EvErrorInterceptor
                       (seq 0 (invoked (errorInterceptors c)
                                  (rate_limit_error c (now w) oldest))))
                    (log evs w))
          /\ (forall e, e ∈ evs -> exists m, e = EvWarn m))
  /\ (forall url config c w,
        Z.of_nat (length (in_window c (now w))) < maxRequests (rateLimitConfig c) ->
        requestTimestamps (client_of (request url config c w)) =
          in_window c (now w) ++ [now w])
  /\ (forall lo hi times t t' c w,
        1 <= maxRequests (rateLimitConfig c) ->
        requestTimestamps c = [] ->
        Z.of_nat (length times) = maxRequests (rateLimitConfig c) ->
        hi - lo <= windowMs (rateLimitConfig c) ->
        (forall x, x ∈ times -> lo < x <= hi) ->
        lo < t <= hi ->
        (forall x, x ∈ times -> x <= t' - windowMs (rateLimitConfig c)) ->
        exists c' w',
          checks_pass times c w = Some (c', w')
          /\ (exists seconds,
                checkRateLimit_at t c' w' =
                  (Throw (plain_error (MsgRateLimit (Some seconds))), c',
                   mkWorld t (timers w') (nextTimer w') (fetches w') (trace w'))
                /\ 1 <= seconds)
          /\ outcome (checkRateLimit_at t' c' w') = Ok tt).
Proof.
  split; [exact checkRateLimit_rejects|].
  split; [exact checkRateLimit_admits|].
  split; [exact request_rejected|].
  split; [intros url config c w H; by apply request_admitted|exact rate_limit_burst].
Qed.

(** ** Cache hits *)

Lemma request_cache_hit url config c w entry :
  cacheable config = true ->
  JsMap.get (generateCacheKey (if startsWith "http" url then url else baseURL c +:+ url) config)
            (cache c) = Some entry ->
  Z.of_nat (length (in_window c (now w))) < maxRequests (rateLimitConfig c) ->
  exists evs,
    request url config c w =
      (Ok (served_from_cache entry),
       set_requestTimestamps (in_window c (now w) ++ [now w]) c,
       log evs w)
    /\ (forall e, e ∈ evs -> exists m, e = EvWarn m)
    /\ (tokenExpiryTime c = None -> evs = []).
Proof.
  intros Hc Hget Hfree.
  destruct (request_run url config c w) as (evs & Hw & Hn & Hreq).
  exists evs. split; [|by split].
  pose proof (checkRateLimit_admits c (log evs w) Hfree) as Hadm. cbn [now log] in Hadm.
  rewrite Hreq. unfold request_pipeline. rewrite bind_run, Hadm.
  unfold serve. rewrite bind_run. unfold this. cbv beta iota.
  rewrite Hc, bind_run. unfold getFromCache. rewrite bind_run. unfold this.
  cbv beta iota. cbn [cache set_requestTimestamps baseURL]. by rewrite Hget.
Qed.

Lemma expired_by_advance ms c w id due k :
  timers w !! id = Some (due, TExpire k) -> due <= now w + Z.max 0 ms ->
  JsMap.get k (cache (client_of (advance ms c w))) = None.
Proof.
  intros Hl Hdue. cbn. rewrite run_actions_cache.
  rewrite bool_decide_eq_true_2; [done|]. apply in_due_actions. by exists id, due.
Qed.

Lemma kept_by_advance ms c w id due k :
  wf c w -> cacheTimers c !! k = Some id -> timers w !! id = Some (due, TExpire k) ->
  now w + Z.max 0 ms < due ->
  JsMap.get k (cache (client_of (advance ms c w))) = JsMap.get k (cache c).
Proof.
  intros [H1 H2 H3 H4] Hk Hl Hdue. cbn. rewrite run_actions_cache.
  rewrite bool_decide_eq_false_2; [done|]. intros Hin.
  apply in_due_actions in Hin as (id' & due' & Hl' & Hd').
  pose proof (H2 _ _ _ Hl') as Hr. assert (id' = id) as -> by congruence.
  assert (due' = due) by congruence. lia.
Qed.

(** C3 (as amended). For a request whose method is not POST and whose cache
    flag is not [false], if the cache holds an entry under its key and the
    rate limiter admits the call, [request] returns that entry with
    [fromCache = true]: the instant of the call is recorded, the cache and
    the call counter of the transport are unchanged, and the only events
    logged are those of the token check, so no interceptor runs, nothing is
    retried and nothing is slept.  The entry is there until it is cleared
    or its expiry timer comes due; the timer is set when the entry is
    stored, [ttl] ms ahead for a TTL between 1 and [2^31 - 1] ms and 1 ms
    ahead for any other TTL. *)
Theorem C3_cache_hit :
  (forall url config c w entry,
     cacheable config = true ->
     JsMap.get
       (generateCacheKey (if startsWith "http" url then url else baseURL c +:+ url) config)
       (cache c) = Some entry ->
     Z.of_nat (length (in_window c (now w))) < maxRequests (rateLimitConfig c) ->
     exists evs,
       request url config c w =
         (Ok (served_from_cache entry),
          set_requestTimestamps (in_window c (now w) ++ [now w]) c,
          log evs w)
       /\ (forall e, e ∈ evs -> exists m, e = EvWarn m)
       /\ (tokenExpiryTime c = None -> evs = []))
  /\ (forall k d ttl c w,
        let x := setCache k d ttl c w in
        JsMap.get k (cache (client_of x)) = Some d
        /\ cacheTimers (client_of x) !! k = Some (nextTimer w)
        /\ timers (world_of x) !! nextTimer w =
             Some (now w + timer_delay (match ttl with Some t => t | None => cacheTTL c end),
                   TExpire k))
  /\ (forall t,
        (1 <= t <= TIMEOUT_MAX -> timer_delay t = t)
        /\ (t < 1 \/ TIMEOUT_MAX < t -> timer_delay t = 1))
  /\ (forall ms c w id due k,
        wf c w -> cacheTimers c !! k = Some id -> timers w !! id = Some (due, TExpire k) ->
        now w + Z.max 0 ms < due ->
        JsMap.get k (cache (client_of (advance ms c w))) = JsMap.get k (cache c))
  /\ (forall ms c w id due k,
        timers w !! id = Some (due, TExpire k) -> due <= now w + Z.max 0 ms ->
        JsMap.get k (cache (client_of (advance ms c w))) = None)
  /\ (forall k c w, JsMap.get k (cache (client_of (clearCache k c w))) = None)
  /\ (forall k c w, JsMap.get k (cache (client_of (clearAllCache c w))) = None).
Proof.
  split; [exact request_cache_hit|].
  split.
  { intros k d ttl c w x. unfold x. rewrite setCache_run. cbn.
    by rewrite get_set_eq, !lookup_insert_eq. }
  split.
  { intros t. split; [apply timer_delay_in_range|].
    intros Hout. unfold timer_delay.
    destruct (Z.leb_spec 1 t); [|done]. destruct (Z.leb_spec t TIMEOUT_MAX); [lia|done]. }
  split; [exact kept_by_advance|].
  split; [exact expired_by_advance|].
  split.
  - intros k c w. rewrite clearCache_run. cbn. apply get_delete_eq.
  - intros k c w. by rewrite clearAllCache_run.
Qed.

(** ** Requests that bypass the cache *)

Lemma cacheable_POST config : is_POST config -> cacheable config = false.
Proof. intros (m & Hm & Hu). unfold cacheable. by rewrite Hm, Hu. Qed.

(** A request that is not cacheable is served by the retry loop alone. *)
Lemma serve_uncached url config c w :
  cacheable config = false ->
  serve url config c w =
  retryRequest (if startsWith "http" url then url else baseURL c +:+ url) config 0 c w.
Proof.
  intros Hc. unfold serve. rewrite bind_run. unfold this at 1. cbv beta iota.
  rewrite Hc, bind_run. unfold ret at 1. cbv beta iota. rewrite bind_run.
  destruct (retryRequest _ config 0 c w) as [[[r|e] c1] w1]; done.
Qed.

Lemma attempt_ok_fetches url config c w r c1 w1 :
  performRequest url config c w = (Ok r, c1, w1) -> fetches w1 = S (fetches w).
Proof.
  intros Hp. pose proof (performRequest_cases url config c w) as H. rewrite Hp in H.
  destruct (outcome (buildFetchConfig url config c w)) as [built|e].
  - destruct H as [Hout Hn]. cbn in Hout, Hn.
    by destruct (chain_result (requestInterceptors c) built).
  - destruct H as [Hout _]. cbn in Hout. done.
Qed.

Lemma retry_loop_ok_fetches budget url config attempt c w env :
  outcome (retry_loop budget url config attempt c w) = Ok env ->
  (fetches w < fetches (world_of (retry_loop budget url config attempt c w)))%nat.
Proof.
  revert attempt c w. induction budget as [|budget IH]; intros attempt c w;
    cbn [retry_loop]; rewrite try_catch_run;
    pose proof (base_performRequest url config c w) as [_ Hmono];
    destruct (performRequest url config c w) as [[[r|e] c1] w1] eqn:Hp;
    cbn in Hmono.
  - intros _. apply attempt_ok_fetches in Hp. cbn. lia.
  - done.
  - intros _. apply attempt_ok_fetches in Hp. cbn. lia.
  - destruct (isRetryableError e); [|done].
    rewrite bind_run. unfold this. cbv beta iota. rewrite bind_run.
    destruct (sleep_effect (retryDelay c1 * 2 ^ Z.of_nat attempt) c1 w1) as (c2 & w2 & -> & _ & Hf & _).
    intros Hok. apply IH in Hok. lia.
Qed.

(** A successful request that is not cacheable has called the transport. *)
Lemma uncached_ok_fetches url config c w env :
  cacheable config = false ->
  outcome (request url config c w) = Ok env ->
  (fetches w < fetches (world_of (request url config c w)))%nat.
Proof.
  intros Hc Hok. destruct (request_run url config c w) as (evs & _ & _ & Hreq).
  rewrite Hreq in Hok |- *.
  remember (request_pipeline url config c (log evs w)) as X eqn:HX.
  unfold request_pipeline in HX. rewrite bind_run, checkRateLimit_run in HX.
  destruct (_ <=? _) in HX; [by subst X|].
  rewrite serve_uncached in HX by done.
  unfold retryRequest in HX. rewrite bind_run in HX. unfold this in HX.
  cbv beta iota in HX.
  pose proof (fun e => retry_loop_ok_fetches
    (Z.to_nat (maxRetries (set_requestTimestamps (in_window c (now (log evs w)) ++ [now (log evs w)]) c) - Z.of_nat 0))
    (if startsWith "http" url
     then url
     else baseURL (set_requestTimestamps (in_window c (now (log evs w)) ++ [now (log evs w)]) c) +:+ url)
    config 0
    (set_requestTimestamps (in_window c (now (log evs w)) ++ [now (log evs w)]) c)
    (log evs w) e) as H.
  rewrite <- HX in H. destruct X as [[[r|e] c2] w2]; [|done].
  cbn in H |- *. by apply (H r).
Qed.

(** C5. A POST request is never served from the cache and its response is
    never written to it, whatever the cache flag: such a request is not
    cacheable, it is served by the retry loop alone, when it succeeds the
    transport has been called, and afterwards the cache holds no entry and
    the timer table no expiry timer that was not there before.  The [post]
    wrapper issues such a request. *)
Theorem C5_post_bypasses_cache :
  (forall url config c w,
     is_POST config ->
     cacheable config = false
     /\ serve url config c w =
          retryRequest (if startsWith "http" url then url else baseURL c +:+ url)
                       config 0 c w
     /\ shrinks c (client_of (request url config c w))
     /\ (forall id due k,
           timers (world_of (request url config c w)) !! id = Some (due, TExpire k) ->
           timers w !! id = Some (due, TExpire k))
     /\ (forall env,
           outcome (request url config c w) = Ok env ->
           (fetches w < fetches (world_of (request url config c w)))%nat))
  /\ (forall url d config,
        post url d config = request url (with_body "POST" d config)
        /\ is_POST (with_body "POST" d config)).
Proof.
  split.
  - intros url config c w Hpost. pose proof (cacheable_POST config Hpost) as Hc.
    split; [done|]. split; [by apply serve_uncached|].
    destruct (nowrite_request url config Hc c w) as [Hs Ht].
    split; [exact Hs|]. split; [exact Ht|].
    intros env. by apply uncached_ok_fetches.
  - intros url d config. split; [done|]. by exists "POST".
Qed.

(** ** Errors and interceptors *)

Lemma request_pipeline_errorInterceptors url config c w :
  errorInterceptors (client_of (request_pipeline url config c w)) = errorInterceptors c.
Proof.
  assert (preserves r_base (request_pipeline url config)) as H.
  { apply request_pipeline_preserves; [typeclasses eauto|intros; apply base_emit|..];
      auto using base_setTimeout, base_advance, base_count_fetch, base_emit, base_setCache.
    - intros ts. by apply base_modify.
    - intros n. by apply base_modify. }
  destruct (H c w) as [Hc _]. cbn in Hc.
  by apply core_fields in Hc as (_ & _ & _ & _ & _ & -> & _).
Qed.

Lemma core_more c c' :
  core c' = core c ->
  baseURL c' = baseURL c /\ cacheTTL c' = cacheTTL c /\ authToken c' = authToken c
  /\ refreshToken c' = refreshToken c.
Proof. unfold core. intros [= ? ? ? ? ? ? ? ? ? ? ? ?]. repeat split; done. Qed.

Lemma serve_run url config c w :
  serve url config c w =
  match (if cacheable config then JsMap.get (request_key c url config) (cache c) else None) with
  | Some entry => (Ok (served_from_cache entry), c, w)
  | None =>
      match retryRequest (if startsWith "http" url then url else baseURL c +:+ url)
                         config 0 c w with
      | (Ok r, c1, w1) =>
          if cacheable config
          then (Ok r,
                client_of (setCache (request_key c url config) r (cfg_cacheTTL config) c1 w1),
                world_of (setCache (request_key c url config) r (cfg_cacheTTL config) c1 w1))
          else (Ok r, c1, w1)
      | (Throw e, c1, w1) => (Throw e, c1, w1)
      end
  end.
Proof.
  unfold serve, request_key. rewrite bind_run. unfold this at 1. cbv beta iota.
  destruct (cacheable config).
  - rewrite bind_run. unfold getFromCache. rewrite bind_run. unfold this at 1.
    cbv beta iota.
    destruct (JsMap.get _ (cache c)) as [entry|]; [reflexivity|].
    unfold ret at 1. cbv beta iota. rewrite bind_run.
    destruct (retryRequest _ config 0 c w) as [[[r|e] c1] w1]; [|done].
    cbn [when]. rewrite bind_run, setCache_run. reflexivity.
  - rewrite bind_run. unfold ret at 1. cbv beta iota. rewrite bind_run.
    destruct (retryRequest _ config 0 c w) as [[[r|e] c1] w1]; done.
Qed.

(** What [handleResponse] returns: the envelope of a response in the
    success range whose body could be read. *)
Lemma handleResponse_returns response r :
  handleResponse response = Ok r ->
  r_ok response = true
  /\ exists body,
       read_body response = Ok body
       /\ r = {| status := r_status response; statusText := r_statusText response;
                 headers := r_headers response; data := body; fromCache := false |}.
Proof.
  unfold handleResponse. destruct (read_body response) as [body|e]; cbn [res_bind]; [|done].
  destruct (r_ok response); cbn [negb].
  - intros [= <-]. split; [done|]. by exists body.
  - destruct (data_message body); cbn; done.
Qed.

(** An attempt that returns has called the transport and got a response in
    the success range; what it returns is what the response chain made of
    the envelope of that response. *)
Lemma attempt_returns url config c w env c1 w1 :
  performRequest url config c w = (Ok env, c1, w1) ->
  exists d response body,
    snd (fetch (fetches w) d) = Ok response
    /\ r_ok response = true
    /\ read_body response = Ok body
    /\ chain_result (responseInterceptors c)
         {| status := r_status response; statusText := r_statusText response;
            headers := r_headers response; data := body; fromCache := false |} = Ok env.
Proof.
  intros Hp. pose proof (performRequest_cases url config c w) as H. rewrite Hp in H.
  destruct (outcome (buildFetchConfig url config c w)) as [built|e];
    [|destruct H as [H _]; done].
  destruct H as [Hout _]. cbn [outcome fst] in Hout.
  destruct (chain_result (requestInterceptors c) built) as [d|e]; [|done].
  cbn [res_bind] in Hout.
  destruct (snd (fetch (fetches w) d)) as [response|e] eqn:Hf; [|done].
  cbn [res_bind] in Hout.
  destruct (handleResponse response) as [r|e] eqn:Hh; [|done]. cbn [res_bind] in Hout.
  apply handleResponse_returns in Hh as (Hok & body & Hb & ->).
  by exists d, response, body.
Qed.

Lemma retry_loop_returns budget url config attempt c w env :
  outcome (retry_loop budget url config attempt c w) = Ok env ->
  exists n d response body,
    snd (fetch n d) = Ok response
    /\ r_ok response = true
    /\ read_body response = Ok body
    /\ chain_result (responseInterceptors c)
         {| status := r_status response; statusText := r_statusText response;
            headers := r_headers response; data := body; fromCache := false |} = Ok env.
Proof.
  revert attempt c w. induction budget as [|budget IH]; intros attempt c w;
    cbn [retry_loop]; rewrite try_catch_run;
    pose proof (base_performRequest url config c w) as [Hcore _];
    destruct (performRequest url config c w) as [[[r|e] c1] w1] eqn:Hp;
    cbn [fst snd client_of] in Hcore.
  - intros [= <-]. destruct (attempt_returns _ _ _ _ _ _ _ Hp) as (d & response & body & H).
    by exists (fetches w), d, response, body.
  - done.
  - intros [= <-]. destruct (attempt_returns _ _ _ _ _ _ _ Hp) as (d & response & body & H).
    by exists (fetches w), d, response, body.
  - destruct (isRetryableError e); [|done].
    rewrite bind_run. unfold this. cbv beta iota. rewrite bind_run.
    destruct (sleep_effect (retryDelay c1 * 2 ^ Z.of_nat attempt) c1 w1)
      as (c2 & w2 & -> & Hc2 & _ & _).
    intros Hok. destruct (IH _ _ _ Hok) as (n & d & response & body & H1 & H2 & H3 & H4).
    exists n, d, response, body. split; [done|]. split; [done|]. split; [done|].
    assert (Hc : core c2 = core c) by congruence.
    apply core_fields in Hc as (_ & _ & _ & _ & Hr & _). by rewrite <- Hr.
Qed.

(** What [request] returns: an entry of the cache, marked as such, or what
    the response chain made of the envelope of a response in the success
    range that the transport gave during the call. *)
Lemma request_returns url config c w env :
  outcome (request url config c w) = Ok env ->
  (exists entry,
     cacheable config = true
     /\ JsMap.get (request_key c url config) (cache c) = Some entry
     /\ env = served_from_cache entry)
  \/ (exists n d response body,
        snd (fetch n d) = Ok response
        /\ r_ok response = true
        /\ read_body response = Ok body
        /\ chain_result (responseInterceptors c)
             {| status := r_status response; statusText := r_statusText response;
                headers := r_headers response; data := body; fromCache := false |} = Ok env).
Proof.
  intros Hok. destruct (request_run url config c w) as (evs & _ & _ & Hreq).
  rewrite Hreq in Hok.
  remember (request_pipeline url config c (log evs w)) as X eqn:HX.
  unfold request_pipeline in HX. rewrite bind_run, checkRateLimit_run in HX.
  destruct (_ <=? _) in HX; [by subst X|].
  rewrite serve_run in HX.
  change (request_key (set_requestTimestamps
            (in_window c (now (log evs w)) ++ [now (log evs w)]) c) url config)
    with (request_key c url config) in HX.
  change (cache (set_requestTimestamps
            (in_window c (now (log evs w)) ++ [now (log evs w)]) c))
    with (cache c) in HX.
  destruct (cacheable config) eqn:Hc;
    [destruct (JsMap.get (request_key c url config) (cache c)) as [entry|] eqn:Hget|].
  - subst X. cbn in Hok. injection Hok as <-. left. by exists entry.
  - right. unfold retryRequest in HX. rewrite bind_run in HX. unfold this in HX.
    cbv beta iota in HX.
    match type of HX with
    | X = match ?m with _ => _ end =>
        pose proof (retry_loop_returns _ _ _ _ _ _ : forall env0, outcome m = Ok env0 -> _) as H;
        destruct m as [[[r|e] c2] w2]
    end; [|by subst X].
    subst X. cbn in Hok. injection Hok as <-. by apply (H r).
  - right. unfold retryRequest in HX. rewrite bind_run in HX. unfold this in HX.
    cbv beta iota in HX.
    match type of HX with
    | X = match ?m with _ => _ end =>
        pose proof (retry_loop_returns _ _ _ _ _ _ : forall env0, outcome m = Ok env0 -> _) as H;
        destruct m as [[[r|e] c2] w2]
    end; [|by subst X].
    subst X. cbn in Hok. injection Hok as <-. by apply (H r).
Qed.

(** C6. Every error thrown inside the [try] of [request] (by the rate
    limiter, by an attempt that is not retried, by anything else) goes
    through the error interceptors, applied one after the other in the
    order they were registered, and what comes out (or what an interceptor
    threw) is thrown to the caller; a result is returned only when the
    body returned one.  So [request], and the verb wrappers, which are
    calls to [request], either return an envelope or raise: every error
    raised comes out of the error chain, and every envelope returned is an
    entry of the cache marked [fromCache], or what the response chain made
    of the envelope [status, statusText, headers, data, fromCache = false]
    of a response in the success range that the transport gave during the
    call; a response outside that range is never returned. *)
Theorem C6_errors_reach_the_caller :
  (forall url config c w,
     exists evs,
       (forall e, e ∈ evs -> exists m, e = EvWarn m)
       /\ request url config c w =
          match request_pipeline url config c (log evs w) with
          | (Ok r, c1, w1) => (Ok r, c1, w1)
          | (Throw e, c1, w1) =>
              (Throw (raised (chain_result (errorInterceptors c) e)), c1,
               log (List.map EvErrorInterceptor (seq 0 (invoked (errorInterceptors c) e))) w1)
          end)
  /\ (forall f c w,
        errorInterceptors (client_of (addErrorInterceptor f c w)) = errorInterceptors c ++ [f])
  /\ (forall (l : list (JsError -> Res JsError)) f e,
        chain_result (l ++ [f]) e = res_bind (chain_result l e) f)
  /\ (forall e c w,
        executeErrorInterceptors e c w =
          (chain_result (errorInterceptors c) e, c,
           log (List.map EvErrorInterceptor (seq 0 (invoked (errorInterceptors c) e))) w))
  /\ (forall url d config,
        get url config = request url (with_method "GET" config)
        /\ post url d config = request url (with_body "POST" d config)
        /\ put url d config = request url (with_body "PUT" d config)
        /\ patch url d config = request url (with_body "PATCH" d config)
        /\ delete_ url config = request url (no_cache "DELETE" config))
  /\ (forall url config c w e',
        outcome (request url config c w) = Throw e' ->
        exists e evs,
          outcome (request_pipeline url config c (log evs w)) = Throw e
          /\ e' = raised (chain_result (errorInterceptors c) e))
  /\ (forall url config c w env,
        outcome (request url config c w) = Ok env ->
        (exists entry,
           cacheable config = true
           /\ JsMap.get (request_key c url config) (cache c) = Some entry
           /\ env = served_from_cache entry)
        \/ (exists n d response body,
              snd (fetch n d) = Ok response
              /\ r_ok response = true
              /\ read_body response = Ok body
              /\ chain_result (responseInterceptors c)
                   {| status := r_status response; statusText := r_statusText response;
                      headers := r_headers response; data := body; fromCache := false |} =
                 Ok env))
  /\ (forall response,
        r_ok response = false -> forall r, handleResponse response <> Ok r).
Proof.
  split.
  { intros url config c w. destruct (request_run url config c w) as (evs & Hw & _ & Hreq).
    exists evs. split; [done|]. rewrite Hreq.
    pose proof (request_pipeline_errorInterceptors url config c (log evs w)) as He.
    destruct (request_pipeline url config c (log evs w)) as [[[r|e] c1] w1]; [done|].
    cbn in He. by rewrite He. }
  split; [done|].
  split.
  { intros l f e. rewrite chain_result_app. destruct (chain_result l e); [|done].
    cbn. unfold chain_result. cbn. done. }
  split.
  { intros e c w. unfold executeErrorInterceptors. rewrite bind_run. unfold this.
    cbv beta iota. apply run_chain_run. }
  split; [done|].
  split.
  { intros url config c w e' Hthrow.
    destruct (request_run url config c w) as (evs & _ & _ & Hreq). rewrite Hreq in Hthrow.
    pose proof (request_pipeline_errorInterceptors url config c (log evs w)) as He.
    destruct (request_pipeline url config c (log evs w)) as [[[r|e] c1] w1] eqn:Hp; [done|].
    cbn in He, Hthrow. injection Hthrow as <-. exists e, evs. rewrite Hp, He. done. }
  split; [exact request_returns|].
  intros response Hok r Hr. apply handleResponse_returns in Hr as [Hr _]. congruence.
Qed.

(** C7. Interceptors run one at a time in the order they were registered:
    registering A and then B puts them, in that order, after those
    already registered; on every attempt for which [buildFetchConfig]
    returns a descriptor the request chain is applied to that descriptor,
    each interceptor receiving what the previous one returned, and likewise
    the response chain to every result [handleResponse] returns.  When
    [buildFetchConfig] throws (the query parameters cannot be serialised)
    the attempt throws that error: no interceptor runs and the transport is
    not called. *)
Theorem C7_interceptor_order :
  (forall A B c w,
     requestInterceptors
       (client_of ((addRequestInterceptor A ;; addRequestInterceptor B) c w)) =
     requestInterceptors c ++ [A; B])
  /\ (forall A B c w,
        responseInterceptors
          (client_of ((addResponseInterceptor A ;; addResponseInterceptor B) c w)) =
        responseInterceptors c ++ [A; B])
  /\ (forall (T : Type) (l : list (T -> Res T)) A B x,
        chain_result (l ++ [A; B]) x = res_bind (res_bind (chain_result l x) A) B)
  /\ (forall d c w,
        executeRequestInterceptors d c w =
          (chain_result (requestInterceptors c) d, c,
           log (List.map EvRequestInterceptor (seq 0 (invoked (requestInterceptors c) d))) w))
  /\ (forall r c w,
        executeResponseInterceptors r c w =
          (chain_result (responseInterceptors c) r, c,
           log (List.map EvResponseInterceptor (seq 0 (invoked (responseInterceptors c) r))) w))
  /\ (forall url config c w,
        match outcome (buildFetchConfig url config c w) with
        | Ok built =>
            outcome (performRequest url config c w) =
              res_bind (chain_result (requestInterceptors c) built) (fun d =>
              res_bind (snd (fetch (fetches w) d)) (fun response =>
              res_bind (handleResponse response) (chain_result (responseInterceptors c))))
            /\ fetches (world_of (performRequest url config c w)) =
                 match chain_result (requestInterceptors c) built with
                 | Ok _ => S (fetches w)
                 | Throw _ => fetches w
                 end
        | Throw e =>
            outcome (performRequest url config c w) = Throw e
            /\ fetches (world_of (performRequest url config c w)) = fetches w
            /\ trace (world_of (performRequest url config c w)) = trace w
        end)
  /\ (forall url config c w,
        serialisable config <->
        exists built, outcome (buildFetchConfig url config c w) = Ok built).
Proof.
  split; [intros A B c w; cbn; by rewrite <- app_assoc|].
  split; [intros A B c w; cbn; by rewrite <- app_assoc|].
  split.
  { intros T l A B x. rewrite chain_result_app.
    destruct (chain_result l x) as [y|e]; [|done].
    cbn [res_bind]. rewrite chain_result_cons. destruct (A y) as [a|e]; [|done].
    cbn [res_bind]. rewrite chain_result_cons. by destruct (B a). }
  split.
  { intros d c w. unfold executeRequestInterceptors. rewrite bind_run. unfold this.
    cbv beta iota. apply run_chain_run. }
  split.
  { intros r c w. unfold executeResponseInterceptors. rewrite bind_run. unfold this.
    cbv beta iota. apply run_chain_run. }
  split; [exact performRequest_cases|].
  intros url config c w. split; [apply serialisable_built|].
  intros [built Hb]. destruct (buildFetchConfig_run url config c w) as (r & Hr & Hq).
  rewrite Hr in Hb. cbn in Hb. subst r. unfold serialisable.
  destruct (query_string config) as [q|e]; [by exists q|done].
Qed.

(** C9. [getRateLimitStatus] and [getCacheStats] return their snapshot and
    leave the client and the world exactly as they were. *)
Theorem C9_accessors_are_read_only :
  forall c w,
    let recentRequests := in_window c (now w) in
    getRateLimitStatus c w =
      (Ok {| requestsInWindow := Z.of_nat (length recentRequests);
             rl_maxRequests := maxRequests (rateLimitConfig c);
             remaining := maxRequests (rateLimitConfig c) - Z.of_nat (length recentRequests);
             rl_windowMs := windowMs (rateLimitConfig c);
             resetTime :=
               match head recentRequests with
               | Some t => if t =? 0 then now w else t
               | None => now w
               end + windowMs (rateLimitConfig c) |}, c, w)
    /\ getCacheStats c w =
         (Ok {| entries := Z.of_nat (length (cache c));
                keys := List.map fst (cache c);
                totalSize :=
                  Z.of_nat (String.length
                    (JSON_stringify (JArr (List.map envelope_json (List.map snd (cache c)))))) |},
          c, w).
Proof. intros c w. split; reflexivity. Qed.

(** ** Clearing the cache *)

Lemma fold_aborts acts c :
  Forall (fun a => a = TAbort) acts ->
  fold_left (fun acc a => run_action a acc) acts c = c
  /\ concat (List.map action_event acts) = [].
Proof.
  induction 1 as [|a acts -> _ IH]; cbn; [done|]. exact IH.
Qed.

(** With no expiry timer pending, time passing leaves the client alone, no
    expiry fires, and still no expiry timer is pending. *)
Lemma advance_without_expiry ms c w :
  (forall id due k, timers w !! id <> Some (due, TExpire k)) ->
  client_of (advance ms c w) = c
  /\ trace (world_of (advance ms c w)) = trace w
  /\ (forall id due k, timers (world_of (advance ms c w)) !! id <> Some (due, TExpire k)).
Proof.
  intros Hno. cbn.
  destruct (fold_aborts (due_actions (now w + Z.max 0 ms) (timers w)) c) as [-> ->].
  { apply Forall_forall. intros a Ha.
    apply in_due_actions in Ha as (id & due & Hl & _).
    destruct a as [k|]; [by destruct (Hno id due k)|done]. }
  split; [done|]. split; [by rewrite app_nil_r|].
  intros id due k Hl. apply map_lookup_filter_Some in Hl as [Hl _]. by destruct (Hno id due k).
Qed.

Lemma elapse_without_expiry steps c w :
  (forall id due k, timers w !! id <> Some (due, TExpire k)) ->
  client_of (run_calls (List.map Elapse steps) c w) = c
  /\ trace (world_of (run_calls (List.map Elapse steps) c w)) = trace w.
Proof.
  revert w. induction steps as [|ms steps IH]; intros w Hno; cbn [List.map run_calls].
  - done.
  - rewrite bind_run. cbn [run_call].
    destruct (advance_without_expiry ms c w Hno) as (Hc & Ht & Hno').
    destruct (advance ms c w) as [[r c1] w1] eqn:Hadv.
    assert (r = Ok tt) as -> by (unfold advance in Hadv; by inversion Hadv).
    cbn in Hc, Ht, Hno'. subst c1. rewrite <- Ht. by apply IH.
Qed.

Lemma no_entries_no_timers c w : wf c w -> cache c = [] -> cacheTimers c = ∅.
Proof.
  intros [_ _ H3 _] Hc. apply map_eq. intros k. rewrite lookup_empty.
  destruct (cacheTimers c !! k) eqn:Hk; [|done].
  assert (JsMap.has k (cache c) = true) as Hh by (apply H3; by eexists).
  by rewrite Hc in Hh.
Qed.

(** C8. After [clearAllCache] the cache statistics show no entry and no
    key, no expiry timer is left pending, and this stays so however much
    time passes: no expiry callback runs.  On a client without cache
    entries, [clearCache] and [clearAllCache] change nothing. *)
Theorem C8_clearAllCache :
  (forall c w,
     wf c w ->
     let x := clearAllCache c w in
     (forall id due k, timers (world_of x) !! id <> Some (due, TExpire k))
     /\ forall steps,
          let y := run_calls (List.map Elapse steps) (client_of x) (world_of x) in
          outcome (getCacheStats (client_of y) (world_of y)) =
            Ok {| entries := 0; keys := [];
                  totalSize := Z.of_nat (String.length (JSON_stringify (JArr []))) |}
          /\ expiries (trace (world_of y)) = expiries (trace w))
  /\ (forall k c w,
        wf c w -> cache c = [] ->
        clearCache k c w = (Ok tt, c, w) /\ clearAllCache c w = (Ok tt, c, w)).
Proof.
  split.
  - intros c w Hwf x.
    assert (Hno : forall id due k, timers (world_of x) !! id <> Some (due, TExpire k)).
    { intros id due k. by apply clearAllCache_no_expiry. }
    split; [exact Hno|]. intros steps y.
    destruct (elapse_without_expiry steps (client_of x) (world_of x) Hno) as [Hc Ht].
    fold y in Hc, Ht. rewrite Hc, Ht. unfold x. rewrite clearAllCache_run. done.
  - intros k c w Hwf Hc. pose proof (no_entries_no_timers c w Hwf Hc) as Ht.
    split.
    + rewrite clearCache_run, Ht, lookup_empty, Hc. cbn. destruct c. cbn in *. by subst.
    + rewrite clearAllCache_run, Ht, map_to_list_empty. cbn. rewrite set_timers_id.
      destruct c. cbn in *. by subst.
Qed.

(** ** The token check *)

Lemma warnings_log evs w :
  warnings (trace (log evs w)) = warnings (trace w) ++ warnings evs.
Proof. unfold warnings, log. cbn. by rewrite flat_map_app. Qed.

Lemma warnings_error_events l : warnings (List.map EvErrorInterceptor l) = [].
Proof. induction l; cbn; done. Qed.

(** Without an expiry instant, [request] logs no warning: the hook is not
    called. *)
Lemma request_no_refresh url config c w :
  tokenExpiryTime c = None ->
  tokenExpiryTime (client_of (request url config c w)) = None
  /\ warnings (trace (world_of (request url config c w))) = warnings (trace w).
Proof.
  intros Hnone. split.
  - destruct (base_request url config c w) as [Hc _]. cbn in Hc.
    apply core_fields in Hc as (_ & _ & -> & _). done.
  - destruct (request_run url config c w) as (evs & _ & Hn & ->).
    rewrite (Hn Hnone), log_nil.
    pose proof (request_pipeline_no_warning url config c w) as Hq. unfold r_quiet in Hq.
    destruct (request_pipeline url config c w) as [[[r|e] c1] w1];
      cbn in Hq; cbn [world_of snd].
    + exact Hq.
    + by rewrite warnings_log, warnings_error_events, app_nil_r.
Qed.

Lemma settle_state {A} (m : M A) c w :
  client_of (settle m c w) = client_of (m c w)
  /\ world_of (settle m c w) = world_of (m c w).
Proof.
  unfold settle. rewrite try_catch_run, bind_run.
  destruct (m c w) as [[[r|e] c1] w1]; done.
Qed.

Lemma call_no_refresh x c w :
  is_setRefreshToken x = false ->
  tokenExpiryTime c = None ->
  tokenExpiryTime (client_of (run_call x c w)) = None
  /\ warnings (trace (world_of (run_call x c w))) = warnings (trace w).
Proof.
  intros Hx Hnone.
  destruct x; try discriminate Hx; cbn [run_call];
    try (destruct (settle_state (request url config) c w) as [-> ->];
         by apply request_no_refresh);
    try (by split).
  - destruct (settle_state (get url config) c w) as [-> ->]. by apply request_no_refresh.
  - destruct (settle_state (post url d config) c w) as [-> ->]. by apply request_no_refresh.
  - destruct (settle_state (put url d config) c w) as [-> ->]. by apply request_no_refresh.
  - destruct (settle_state (patch url d config) c w) as [-> ->]. by apply request_no_refresh.
  - destruct (settle_state (delete_ url config) c w) as [-> ->]. by apply request_no_refresh.
  - rewrite clearCache_run. cbn. split; [by destruct (cacheTimers c !! cacheKey)|].
    by destruct (cacheTimers c !! cacheKey).
  - by rewrite clearAllCache_run.
  - split.
    + destruct (base_advance ms c w) as [Hc _].
      apply core_fields in Hc as (_ & _ & Ht & _). cbn [fst] in Ht. by rewrite Ht.
    + apply (quiet_advance warning_of ms (fun _ => eq_refl) c w).
Qed.

Lemma settle_ok {A} (m : M A) c w : outcome (settle m c w) = Ok tt.
Proof.
  unfold settle. rewrite try_catch_run, bind_run.
  by destruct (m c w) as [[[r|e] c1] w1].
Qed.

Lemma run_call_ok x c w : outcome (run_call x c w) = Ok tt.
Proof.
  destruct x; cbn [run_call]; try apply settle_ok; try reflexivity.
  - by rewrite clearCache_run.
  - by rewrite clearAllCache_run.
Qed.

Lemma calls_no_refresh calls c w :
  forallb (fun x => negb (is_setRefreshToken x)) calls = true ->
  tokenExpiryTime c = None ->
  tokenExpiryTime (client_of (run_calls calls c w)) = None
  /\ warnings (trace (world_of (run_calls calls c w))) = warnings (trace w).
Proof.
  revert c w. induction calls as [|x calls IH]; intros c w Hall Hnone; cbn [run_calls].
  - done.
  - cbn in Hall. apply andb_true_iff in Hall as [Hx Hall]. apply negb_true_iff in Hx.
    rewrite bind_run. pose proof (run_call_ok x c w) as Hok.
    destruct (call_no_refresh x c w Hx Hnone) as [Ht Hw].
    destruct (run_call x c w) as [[r c1] w1]. cbn in Hok, Ht, Hw. subst r.
    destruct (IH c1 w1 Hall Ht) as [Ht' Hw']. split; [done|congruence].
Qed.

(** C10. A client on which [setRefreshToken] was never called has no
    expiry instant, and then no call (to [request], to a verb wrapper, or
    to anything else) invokes the refresh hook, whether or not an auth
    token or a refresh token is set: the hook's warning is never logged.
    The default hook itself only logs that warning and leaves the client
    as it was. *)
Theorem C10_no_refresh_without_expiry :
  (forall opts calls w,
     forallb (fun x => negb (is_setRefreshToken x)) calls = true ->
     let x := run_calls calls (constructor opts) w in
     tokenExpiryTime (client_of x) = None
     /\ warnings (trace (world_of x)) = warnings (trace w))
  /\ (forall url config c w,
        tokenExpiryTime c = None ->
        warnings (trace (world_of (request url config c w))) = warnings (trace w))
  /\ (forall c w,
        refreshAuthToken c w =
          (Ok tt, c,
           log [EvWarn "Token refresh not implemented. Please set custom refresh logic."] w)).
Proof.
  split; [intros opts calls w Hall x; by apply calls_no_refresh|].
  split; [intros url config c w H; by apply request_no_refresh|done].
Qed.

(** The wrappers for PUT, PATCH and DELETE switch the cache off, so through
    them nothing is written to the cache either. *)
Lemma mutating_wrappers_bypass_cache url d config :
  preserves r_nowrite (post url d config)
  /\ preserves r_nowrite (put url d config)
  /\ preserves r_nowrite (patch url d config)
  /\ preserves r_nowrite (delete_ url config).
Proof.
  repeat split; apply nowrite_request; unfold cacheable; cbn;
    by rewrite andb_false_r.
Qed.

(** ** Retries that never succeed *)

Lemma attempt_always_fails url config c w e :
  serialisable config ->
  total (requestInterceptors c) ->
  (forall n d, res_bind (snd (fetch n d)) handleResponse = Throw e) ->
  exists c1 w1,
    performRequest url config c w = (Throw e, c1, w1)
    /\ core c1 = core c
    /\ fetches w1 = S (fetches w)
    /\ delays (trace w1) = delays (trace w).
Proof.
  intros Hser Htot Hfetch.
  destruct (performRequest_run url config c w Hser) as (built & _ & Hout & Hn).
  destruct (total_chain_ok _ built Htot) as [d Hd]. rewrite Hd in Hout, Hn.
  cbn [res_bind] in Hout.
  assert (Hthrow : res_bind (snd (fetch (fetches w) d)) (fun response =>
            res_bind (handleResponse response) (chain_result (responseInterceptors c))) =
          Throw e).
  { specialize (Hfetch (fetches w) d).
    destruct (snd (fetch (fetches w) d)) as [response|e']; cbn in Hfetch |- *; [|done].
    by rewrite Hfetch. }
  rewrite Hthrow in Hout.
  destruct (base_performRequest url config c w) as [Hcore _].
  pose proof (performRequest_no_delay url config c w) as Hq. unfold r_quiet in Hq.
  destruct (performRequest url config c w) as [[r c1] w1].
  cbn in Hout, Hn, Hcore, Hq. subst r. by exists c1, w1.
Qed.

Lemma backoff_S c attempt k :
  backoff c attempt (S k) = retryDelay c * 2 ^ Z.of_nat attempt :: backoff c (S attempt) k.
Proof.
  unfold backoff. cbn [seq List.map]. rewrite Nat.add_0_r. f_equal.
  rewrite <- seq_shift, List.map_map. apply List.map_ext. intros i.
  do 3 f_equal. lia.
Qed.

Lemma backoff_core c c' attempt k : core c' = core c -> backoff c' attempt k = backoff c attempt k.
Proof. intros H. apply core_fields in H as (_ & Hd & _). unfold backoff. by rewrite Hd. Qed.

Lemma retry_loop_exhausts budget url config attempt c w e :
  serialisable config ->
  total (requestInterceptors c) ->
  (forall n d, res_bind (snd (fetch n d)) handleResponse = Throw e) ->
  isRetryableError e = true ->
  exists c' w',
    retry_loop budget url config attempt c w = (Throw e, c', w')
    /\ core c' = core c
    /\ fetches w' = (fetches w + S budget)%nat
    /\ delays (trace w') = delays (trace w) ++ backoff c attempt budget.
Proof.
  intros Hser Htot Hfetch Hretry. revert attempt c w Htot.
  induction budget as [|budget IH]; intros attempt c w Htot;
    destruct (attempt_always_fails url config c w e Hser Htot Hfetch)
      as (c1 & w1 & Hp & Hc1 & Hf1 & Hd1);
    cbn [retry_loop]; rewrite try_catch_run, Hp.
  - exists c1, w1. split; [done|]. split; [done|]. split; [lia|].
    unfold backoff. cbn. by rewrite app_nil_r.
  - rewrite Hretry, bind_run. unfold this. cbv beta iota. rewrite bind_run.
    destruct (sleep_effect (retryDelay c1 * 2 ^ Z.of_nat attempt) c1 w1) as (c2 & w2 & -> & Hc2 & Hf2 & Hd2).
    assert (Hcore : core c2 = core c) by congruence.
    destruct (IH (S attempt) c2 w2) as (c' & w' & Hl & Hc' & Hf' & Hd').
    { by apply (core_total _ _ Hcore). }
    exists c', w'. split; [done|]. split; [congruence|]. split; [lia|].
    rewrite Hd', Hd2, Hd1, backoff_S, (backoff_core c c2) by done.
    apply core_fields in Hc1 as (_ & -> & _). by rewrite <- app_assoc.
Qed.

(** X1. When the query parameters can be serialised, the request
    interceptors do not throw and every attempt fails with the same
    retryable error (the transport throws it, or answers a response that
    [handleResponse] turns into it), [retryRequest] calls the transport
    [maxRetries + 1] times, asking the timer for a delay of
    [retryDelay * 2^i] ms before retry [i + 1], and then throws that error. *)
Theorem retries_are_exhausted url config c w e :
  serialisable config ->
  total (requestInterceptors c) ->
  (forall n d, res_bind (snd (fetch n d)) handleResponse = Throw e) ->
  isRetryableError e = true ->
  outcome (retryRequest url config 0 c w) = Throw e
  /\ fetches (world_of (retryRequest url config 0 c w)) =
       (fetches w + S (Z.to_nat (maxRetries c)))%nat
  /\ delays (trace (world_of (retryRequest url config 0 c w))) =
       delays (trace w) ++ backoff c 0 (Z.to_nat (maxRetries c)).
Proof.
  intros Hser Htot Hfetch Hretry. unfold retryRequest. rewrite bind_run. unfold this.
  cbv beta iota. change (Z.of_nat 0) with 0. rewrite Z.sub_0_r.
  destruct (retry_loop_exhausts (Z.to_nat (maxRetries c)) url config 0 c w e
              Hser Htot Hfetch Hretry) as (c' & w' & -> & _ & Hf & Hd).
  done.
Qed.

(** X2. An error response whose JSON body is [null] does not surface as an
    HTTP status error: reading [data.message] throws an error without status,
    which is retryable.  When the query parameters can be serialised and the
    request interceptors do not throw, a transport that keeps answering such
    a response, whatever its status (a 404, say), is called
    [maxRetries + 1] times. *)
Theorem null_body_error_is_retried url config c w response :
  serialisable config ->
  total (requestInterceptors c) ->
  (forall n d, snd (fetch n d) = Ok response) ->
  r_ok response = false ->
  read_body response = Ok (DJson JNull) ->
  handleResponse response = Throw (plain_error MsgTypeError)
  /\ outcome (retryRequest url config 0 c w) = Throw (plain_error MsgTypeError)
  /\ fetches (world_of (retryRequest url config 0 c w)) =
       (fetches w + S (Z.to_nat (maxRetries c)))%nat.
Proof.
  intros Hser Htot Hfetch Hok Hbody.
  assert (Hh : handleResponse response = Throw (plain_error MsgTypeError)).
  { unfold handleResponse. by rewrite Hbody, Hok. }
  split; [done|].
  destruct (retry_loop_exhausts (Z.to_nat (maxRetries c)) url config 0 c w
              (plain_error MsgTypeError) Hser Htot) as (c' & w' & Hl & _ & Hf & _).
  { intros n d. by rewrite Hfetch. }
  { done. }
  unfold retryRequest. rewrite bind_run. unfold this. cbv beta iota.
  change (Z.of_nat 0) with 0. rewrite Z.sub_0_r, Hl. done.
Qed.

(** X3. The constructor reads its numeric options with [||], so a
    [maxRetries] of 0 is replaced by the default 3: on a client constructed
    with [maxRetries: 0] (or without it), for a request whose query
    parameters can be serialised, a transport that keeps failing with a
    retryable error is still called four times. *)
Theorem zero_maxRetries_still_retries opts url config w e :
  o_maxRetries opts = Some 0 \/ o_maxRetries opts = None ->
  serialisable config ->
  (forall n d, res_bind (snd (fetch n d)) handleResponse = Throw e) ->
  isRetryableError e = true ->
  maxRetries (constructor opts) = 3
  /\ outcome (retryRequest url config 0 (constructor opts) w) = Throw e
  /\ fetches (world_of (retryRequest url config 0 (constructor opts) w)) = (fetches w + 4)%nat.
Proof.
  intros Hopt Hser Hfetch Hretry.
  assert (Hmax : maxRetries (constructor opts) = 3).
  { cbn. by destruct Hopt as [-> | ->]. }
  split; [done|].
  destruct (retry_loop_exhausts 3 url config 0 (constructor opts) w e) as (c' & w' & Hl & _ & Hf & _);
    [done|constructor|done|done|].
  unfold retryRequest. rewrite bind_run. unfold this. cbv beta iota.
  rewrite Hmax. change (Z.to_nat (3 - Z.of_nat 0)) with 3%nat. rewrite Hl.
  split; [done|]. cbn [world_of snd]. lia.
Qed.

(** ** The rate limiter over time *)

(** The instants recorded after [request]: those kept by the pruning, and
    the current one when the call was admitted; retries add none. *)
Lemma request_stamps url config c w :
  requestTimestamps (client_of (request url config c w)) =
    (if maxRequests (rateLimitConfig c) <=? Z.of_nat (length (in_window c (now w)))
     then in_window c (now w)
     else in_window c (now w) ++ [now w])
  /\ rateLimitConfig (client_of (request url config c w)) = rateLimitConfig c.
Proof.
  split.
  - destruct (request_run url config c w) as (evs & _ & _ & ->).
    unfold request_pipeline. rewrite bind_run, checkRateLimit_run. cbn [now log].
    destruct (_ <=? _); [done|].
    pose proof (stamps_serve url config
      (set_requestTimestamps (in_window c (now w) ++ [now w]) c) (log evs w)) as Hs.
    unfold r_stamps in Hs.
    destruct (serve url config _ (log evs w)) as [[[r|e] c1] w1]; exact Hs.
  - destruct (base_request url config c w) as [Hc _]. cbn [fst] in Hc.
    by apply core_fields in Hc as (_ & _ & _ & _ & _ & _ & ->).
Qed.

Lemma in_window_length c n :
  (length (in_window c n) <= length (requestTimestamps c))%nat.
Proof. unfold in_window. apply List.filter_length_le. Qed.

Lemma request_keeps_bound url config c w :
  stamps_bounded c -> stamps_bounded (client_of (request url config c w)).
Proof.
  unfold stamps_bounded. intros Hb.
  destruct (request_stamps url config c w) as [-> ->].
  pose proof (in_window_length c (now w)) as Hl.
  destruct (Z.leb_spec (maxRequests (rateLimitConfig c))
              (Z.of_nat (length (in_window c (now w))))).
  - lia.
  - rewrite length_app. cbn. lia.
Qed.

Lemma run_call_keeps_bound x c w :
  stamps_bounded c -> stamps_bounded (client_of (run_call x c w)).
Proof.
  intros Hb. destruct x; cbn [run_call]; try exact Hb.
  - destruct (settle_state (request url config) c w) as [-> _]. by apply request_keeps_bound.
  - destruct (settle_state (get url config) c w) as [-> _]. by apply request_keeps_bound.
  - destruct (settle_state (post url d config) c w) as [-> _]. by apply request_keeps_bound.
  - destruct (settle_state (put url d config) c w) as [-> _]. by apply request_keeps_bound.
  - destruct (settle_state (patch url d config) c w) as [-> _]. by apply request_keeps_bound.
  - destruct (settle_state (delete_ url config) c w) as [-> _]. by apply request_keeps_bound.
  - rewrite clearCache_run. cbn. by destruct (cacheTimers c !! cacheKey).
  - by rewrite clearAllCache_run.
  - unfold stamps_bounded in *. cbn.
    rewrite run_actions_timestamps.
    pose proof (run_actions_core (due_actions (now w + Z.max 0 ms) (timers w)) c) as Hc.
    by apply core_fields in Hc as (_ & _ & _ & _ & _ & _ & ->).
Qed.

Lemma run_calls_keep_bound calls c w :
  stamps_bounded c -> stamps_bounded (client_of (run_calls calls c w)).
Proof.
  revert c w. induction calls as [|x calls IH]; intros c w Hb; cbn [run_calls]; [done|].
  rewrite bind_run. pose proof (run_call_ok x c w) as Hok.
  pose proof (run_call_keeps_bound x c w Hb) as Hb'.
  destruct (run_call x c w) as [[r c1] w1]. cbn in Hok, Hb'. subst r. by apply IH.
Qed.

(** X4. On a client made by the constructor, whatever calls follow, the
    rate limiter never holds more instants than [maxRequests] (none when
    that is negative); so with a limit that is not negative
    [getRateLimitStatus] never reports more requests in the window than the
    limit, nor a negative [remaining]. *)
Theorem recorded_instants_stay_within_limit opts calls w w' :
  stamps_bounded (client_of (run_calls calls (constructor opts) w))
  /\ match outcome (getRateLimitStatus (client_of (run_calls calls (constructor opts) w)) w') with
     | Ok s =>
         requestsInWindow s <= Z.max 0 (rl_maxRequests s)
         /\ Z.min 0 (rl_maxRequests s) <= remaining s
     | Throw _ => False
     end.
Proof.
  assert (Hb : stamps_bounded (client_of (run_calls calls (constructor opts) w))).
  { apply run_calls_keep_bound. unfold stamps_bounded. cbn. lia. }
  split; [exact Hb|]. cbn. unfold stamps_bounded in Hb.
  set (c := client_of (run_calls calls (constructor opts) w)) in *.
  pose proof (in_window_length c (now w')) as Hl. unfold in_window in Hl. lia.
Qed.

(** X5. [getRateLimitStatus] predicts what the rate limiter does next: at
    the same instant, [remaining] is positive exactly when [checkRateLimit]
    admits the call; and when it is not, [request] fails without calling the
    transport. *)
Theorem status_predicts_admission url config c w :
  match outcome (getRateLimitStatus c w) with
  | Ok s =>
      (0 < remaining s <-> outcome (checkRateLimit c w) = Ok tt)
      /\ (remaining s <= 0 ->
          (exists e, outcome (request url config c w) = Throw e)
          /\ fetches (world_of (request url config c w)) = fetches w)
  | Throw _ => False
  end.
Proof.
  cbn [getRateLimitStatus outcome fst]. unfold getRateLimitStatus. rewrite !bind_run.
  unfold Date_now, this, ret. cbv beta iota. cbn [outcome fst remaining].
  fold (in_window c (now w)). split.
  - rewrite checkRateLimit_run.
    destruct (Z.leb_spec (maxRequests (rateLimitConfig c))
                (Z.of_nat (length (in_window c (now w))))); unfold in_window in *; cbn;
      (split; [intros; try lia; done|intros; try lia; done]).
  - intros Hrem. cbn in Hrem. fold (in_window c (now w)) in Hrem.
    destruct (request_run url config c w) as (evs & _ & _ & ->).
    unfold request_pipeline. rewrite bind_run, checkRateLimit_run. cbn [now log].
    destruct (Z.leb_spec (maxRequests (rateLimitConfig c))
                (Z.of_nat (length (in_window c (now w))))); [|lia].
    split; [by eexists|done].
Qed.

Lemma ceil_seconds_covers ms : ms <= 1000 * ceil_seconds ms.
Proof.
  unfold ceil_seconds. pose proof (Z.mul_div_le (- ms) 1000). lia.
Qed.

(** X6. The wait announced by the rate-limit error is long enough: on a
    client that holds no more instants than its limit (at least 1), when a
    call is rejected and announces [n] seconds, a call made [n] seconds
    later or more is admitted. *)
Theorem announced_wait_is_enough c w w' oldest :
  1 <= maxRequests (rateLimitConfig c) ->
  stamps_bounded c ->
  maxRequests (rateLimitConfig c) <= Z.of_nat (length (in_window c (now w))) ->
  head (in_window c (now w)) = Some oldest ->
  now w + 1000 * ceil_seconds (windowMs (rateLimitConfig c) - (now w - oldest)) <= now w' ->
  outcome (checkRateLimit c w) = Throw (rate_limit_error c (now w) oldest)
  /\ outcome (checkRateLimit (client_of (checkRateLimit c w)) w') = Ok tt.
Proof.
  intros Hpos Hb Hfull Hhead Hlater.
  destruct (checkRateLimit_rejects c w Hpos Hfull) as (o & Ho & Hrej & _).
  assert (o = oldest) as -> by congruence.
  rewrite Hrej. split; [done|]. cbn [client_of fst snd].
  rewrite checkRateLimit_admits; [done|].
  unfold in_window at 1. cbn [requestTimestamps set_requestTimestamps rateLimitConfig].
  pose proof (in_window_length c (now w)) as Hl. unfold stamps_bounded in Hb.
  pose proof (ceil_seconds_covers (windowMs (rateLimitConfig c) - (now w - oldest))) as Hc.
  destruct (in_window c (now w)) as [|o rest]; [done|]. injection Hhead as ->.
  cbn [List.filter].
  destruct (Z.ltb_spec (now w' - windowMs (rateLimitConfig c)) oldest); [lia|].
  pose proof (List.filter_length_le
    (fun timestamp => now w' - windowMs (rateLimitConfig c) <? timestamp) rest) as Hf.
  cbn [length] in Hl, Hfull. lia.
Qed.

(** ** The cache and its timers over time *)

(** X7. On a client made by the constructor, in a world that holds no
    expiry timer yet, the cache and the timers agree after any calls: a key
    is cached exactly when an expiry timer is registered for it, that timer
    is pending, and no other expiry timer is pending; so a key never has two
    expiry timers. *)
Theorem timer_tables_stay_consistent opts calls w :
  (forall id due a, timers w !! id = Some (due, a) -> a = TAbort /\ (id < nextTimer w)%nat) ->
  wf (client_of (run_calls calls (constructor opts) w))
     (world_of (run_calls calls (constructor opts) w))
  /\ forall id1 id2 d1 d2 k,
       timers (world_of (run_calls calls (constructor opts) w)) !! id1 = Some (d1, TExpire k) ->
       timers (world_of (run_calls calls (constructor opts) w)) !! id2 = Some (d2, TExpire k) ->
       id1 = id2 /\ d1 = d2.
Proof.
  intros Hw.
  pose proof (wf_run_calls calls (constructor opts) w (wf_constructor opts w Hw)) as Hwf.
  cbn [fst snd] in Hwf. split; [exact Hwf|].
  intros id1 id2 d1 d2 k H1 H2. destruct Hwf as [_ Hp _ _].
  pose proof (Hp _ _ _ H1) as R1. pose proof (Hp _ _ _ H2) as R2.
  assert (id1 = id2) as -> by congruence. split; [done|congruence].
Qed.

(** X8. Storing or clearing one key leaves every other key alone: its
    entry, its registered timer and that timer's due time are as before. *)
Theorem other_keys_are_untouched k k' d ttl c w :
  k' <> k ->
  wf c w ->
  (JsMap.get k' (cache (client_of (setCache k d ttl c w))) = JsMap.get k' (cache c)
   /\ cacheTimers (client_of (setCache k d ttl c w)) !! k' = cacheTimers c !! k'
   /\ forall id, cacheTimers c !! k' = Some id ->
        timers (world_of (setCache k d ttl c w)) !! id = timers w !! id)
  /\ (JsMap.get k' (cache (client_of (clearCache k c w))) = JsMap.get k' (cache c)
      /\ cacheTimers (client_of (clearCache k c w)) !! k' = cacheTimers c !! k'
      /\ forall id, cacheTimers c !! k' = Some id ->
           timers (world_of (clearCache k c w)) !! id = timers w !! id).
Proof.
  intros Hne [H1 H2 H3 H4].
  assert (Hother : forall id old, cacheTimers c !! k' = Some id ->
                     cacheTimers c !! k = Some old -> id <> old).
  { intros id old Hk' Hk ->. destruct (H1 _ _ Hk') as [a Ha]. destruct (H1 _ _ Hk) as [b Hb].
    congruence. }
  split.
  - rewrite setCache_run. cbn [client_of world_of fst snd cache cacheTimers timers
      set_cache set_cacheTimers].
    split; [by apply get_set_ne|]. split; [by apply lookup_insert_ne|].
    intros id Hk'. rewrite lookup_insert_ne.
    + destruct (cacheTimers c !! k) as [old|] eqn:Hk; [|done].
      apply lookup_delete_ne. intros ->. by apply (Hother id id).
    + intros <-. destruct (H1 _ _ Hk') as [a Ha].
      assert (nextTimer w < nextTimer w)%nat; [|lia]. apply H4. by eexists.
  - rewrite clearCache_run. cbn [client_of world_of fst snd].
    destruct (cacheTimers c !! k) as [old|] eqn:Hk;
      cbn [cache cacheTimers timers set_cache set_cacheTimers set_timers].
    + split; [by apply get_delete_ne|]. split; [by apply lookup_delete_ne|].
      intros id Hk'. apply lookup_delete_ne. intros ->. by apply (Hother id id).
    + split; [by apply get_delete_ne|]. by split.
Qed.

Lemma setCache_then_advance k d ttl c w ms :
  wf c w ->
  0 <= ms ->
  (ms < timer_delay (match ttl with Some t => t | None => cacheTTL c end) ->
   JsMap.get k (cache (client_of
     (advance ms (client_of (setCache k d ttl c w)) (world_of (setCache k d ttl c w))))) =
   Some d)
  /\ (timer_delay (match ttl with Some t => t | None => cacheTTL c end) <= ms ->
      JsMap.get k (cache (client_of
        (advance ms (client_of (setCache k d ttl c w)) (world_of (setCache k d ttl c w))))) =
      None).
Proof.
  intros Hwf Hms.
  pose proof (wf_setCache k d ttl c w Hwf) as Hwf'. cbn [fst snd] in Hwf'.
  pose proof (setCache_run k d ttl c w) as Hrun.
  destruct (setCache k d ttl c w) as [[r c1] w1]. cbn [client_of world_of fst snd] in *.
  injection Hrun as _ -> ->.
  set (t := match ttl with Some t => t | None => cacheTTL c end) in *.
  split; intros Hlt.
  - etrans; [apply (kept_by_advance ms _ _ (nextTimer w) (now w + timer_delay t) k Hwf')|].
    + cbn. apply lookup_insert_eq.
    + cbn. apply lookup_insert_eq.
    + cbn. lia.
    + cbn. apply get_set_eq.
  - apply (expired_by_advance ms _ _ (nextTimer w) (now w + timer_delay t) k).
    + cbn. apply lookup_insert_eq.
    + cbn. lia.
Qed.

(** X9. An entry lives as long as its expiry timer runs, counted from the
    store: whatever entry and timer the key had before, after [setCache] the
    value is there while less than that delay has passed and is gone once it
    has passed.  The delay is the TTL when the TTL lies between 1 and
    [2^31 - 1] ms; for any other TTL (0, a negative one, 30 days) it is
    1 ms. *)
Theorem stored_entry_lives_for_its_ttl k d ttl c w ms :
  wf c w ->
  0 <= ms ->
  (ms < timer_delay (match ttl with Some t => t | None => cacheTTL c end) ->
   JsMap.get k (cache (client_of (elapsed ms (setCache k d ttl c w)))) = Some d)
  /\ (timer_delay (match ttl with Some t => t | None => cacheTTL c end) <= ms ->
      JsMap.get k (cache (client_of (elapsed ms (setCache k d ttl c w)))) = None)
  /\ (1 <= match ttl with Some t => t | None => cacheTTL c end <= TIMEOUT_MAX ->
      timer_delay (match ttl with Some t => t | None => cacheTTL c end) =
      match ttl with Some t => t | None => cacheTTL c end)
  /\ (match ttl with Some t => t | None => cacheTTL c end < 1
      \/ TIMEOUT_MAX < match ttl with Some t => t | None => cacheTTL c end ->
      timer_delay (match ttl with Some t => t | None => cacheTTL c end) = 1).
Proof.
  intros Hwf Hms. unfold elapsed.
  destruct (setCache_then_advance k d ttl c w ms Hwf Hms) as [Hkeep Hgone].
  split; [exact Hkeep|]. split; [exact Hgone|]. split; [apply timer_delay_in_range|].
  intros Hout. unfold timer_delay.
  destruct (Z.leb_spec 1 (match ttl with Some t => t | None => cacheTTL c end)); [|done].
  destruct (Z.leb_spec (match ttl with Some t => t | None => cacheTTL c end) TIMEOUT_MAX);
    [lia|done].
Qed.

(** ** What [request] does on a cache miss *)

Lemma wf_retryRequest url config attempt : preserves keeps_wf (retryRequest url config attempt).
Proof.
  apply retryRequest_preserves; [typeclasses eauto|intros; apply wf_emit|..];
    auto using wf_abort, wf_advance, wf_count_fetch, wf_emit.
Qed.

Lemma base_retryRequest url config attempt : preserves r_base (retryRequest url config attempt).
Proof.
  apply retryRequest_preserves; [typeclasses eauto|intros; apply base_emit|..];
    auto using base_setTimeout, base_advance, base_count_fetch, base_emit.
Qed.

Lemma nowrite_retryRequest url config attempt :
  preserves r_nowrite (retryRequest url config attempt).
Proof.
  apply retryRequest_preserves; [typeclasses eauto|intros; apply nowrite_emit|..];
    auto using nowrite_abort, nowrite_advance, nowrite_count_fetch, nowrite_emit.
Qed.

(** The token check, exactly. *)
Lemma refresh_step_exact c w :
  refresh_step c w =
  (Ok tt, c, if refresh_due c w then log [EvWarn refresh_warning] w else w).
Proof.
  unfold refresh_step, isTokenExpired, refresh_due. rewrite !bind_run. unfold this at 1.
  cbv beta iota.
  destruct (tokenExpiryTime c) as [t|] eqn:Ht.
  - destruct (t =? 0); [reflexivity|].
    rewrite bind_run. unfold Date_now, ret, this. cbv beta iota.
    rewrite bind_run. cbv beta iota. cbn [negb andb].
    destruct ((t - 60000 <? now w) && str_truthy (refreshToken c)); reflexivity.
  - reflexivity.
Qed.

Lemma request_exact url config c w :
  request url config c w =
  match request_pipeline url config c
          (if refresh_due c w then log [EvWarn refresh_warning] w else w) with
  | (Ok r, c1, w1) => (Ok r, c1, w1)
  | (Throw e, c1, w1) =>
      (Throw (raised (chain_result (errorInterceptors c1) e)), c1,
       log (List.map EvErrorInterceptor (seq 0 (invoked (errorInterceptors c1) e))) w1)
  end.
Proof.
  unfold request. rewrite try_catch_run. unfold request_body.
  rewrite bind_run, refresh_step_exact.
  destruct (request_pipeline url config c _) as [[[r|e] c1] w1]; [done|].
  apply error_handler_run.
Qed.

(** The state a request is served in once the limiter has admitted it. *)
Lemma request_served url config c w :
  outcome (checkRateLimit c w) = Ok tt ->
  request url config c w =
  match serve url config (set_requestTimestamps (in_window c (now w) ++ [now w]) c)
              (if refresh_due c w then log [EvWarn refresh_warning] w else w) with
  | (Ok r, c1, w1) => (Ok r, c1, w1)
  | (Throw e, c1, w1) =>
      (Throw (raised (chain_result (errorInterceptors c1) e)), c1,
       log (List.map EvErrorInterceptor (seq 0 (invoked (errorInterceptors c1) e))) w1)
  end.
Proof.
  intros Hadm. rewrite request_exact. unfold request_pipeline. rewrite bind_run.
  rewrite checkRateLimit_run in Hadm |- *.
  assert (Hnow : now (if refresh_due c w then log [EvWarn refresh_warning] w else w) = now w)
    by (by destruct (refresh_due c w)).
  rewrite Hnow.
  destruct (maxRequests (rateLimitConfig c) <=? Z.of_nat (length (in_window c (now w))));
    [discriminate|reflexivity].
Qed.

Lemma request_not_admitted url config c w e :
  outcome (checkRateLimit c w) = Throw e ->
  request url config c w =
  (Throw (raised (chain_result (errorInterceptors c) e)),
   set_requestTimestamps (in_window c (now w)) c,
   log (List.map EvErrorInterceptor (seq 0 (invoked (errorInterceptors c) e)))
       (if refresh_due c w then log [EvWarn refresh_warning] w else w)).
Proof.
  intros Hadm. rewrite request_exact. unfold request_pipeline. rewrite bind_run.
  rewrite checkRateLimit_run in Hadm |- *.
  assert (Hnow : now (if refresh_due c w then log [EvWarn refresh_warning] w else w) = now w)
    by (by destruct (refresh_due c w)).
  rewrite Hnow.
  destruct (maxRequests (rateLimitConfig c) <=? Z.of_nat (length (in_window c (now w))));
    [|discriminate].
  cbn in Hadm. injection Hadm as <-. reflexivity.
Qed.

Lemma checkRateLimit_outcome c w :
  outcome (checkRateLimit c w) = Ok tt \/ exists e, outcome (checkRateLimit c w) = Throw e.
Proof. destruct (checkRateLimit c w) as [[[[]|e] c1] w1]; cbn; eauto. Qed.

Lemma wf_logged c w ts evs : wf c w -> wf (set_requestTimestamps ts c) (log evs w).
Proof. intros [H1 H2 H3 H4]. split; assumption. Qed.

Lemma wf_warned c w ts (b : bool) evs :
  wf c w -> wf (set_requestTimestamps ts c) (if b then log evs w else w).
Proof.
  intros H. destruct b; [by apply wf_logged|].
  destruct H as [H1 H2 H3 H4]. split; assumption.
Qed.

(** X10. A response obtained by a cacheable request that missed the cache
    is stored: the same request, made again while the expiry timer of the
    entry runs (less than the TTL later, for a TTL between 1 and
    [2^31 - 1] ms; less than 1 ms later for any other) and admitted by the
    limiter, returns that response marked [fromCache] without calling the
    transport. *)
Theorem stored_response_is_served url config c w env ms :
  cacheable config = true ->
  wf c w ->
  JsMap.get (request_key c url config) (cache c) = None ->
  outcome (request url config c w) = Ok env ->
  0 <= ms < timer_delay (entry_ttl c config) ->
  outcome (checkRateLimit (client_of (elapsed ms (request url config c w)))
                          (world_of (elapsed ms (request url config c w)))) = Ok tt ->
  outcome (request url config (client_of (elapsed ms (request url config c w)))
                              (world_of (elapsed ms (request url config c w)))) =
    Ok (served_from_cache env)
  /\ fetches (world_of (request url config (client_of (elapsed ms (request url config c w)))
                                           (world_of (elapsed ms (request url config c w))))) =
     fetches (world_of (elapsed ms (request url config c w))).
Proof.
  intros Hc Hwf Hmiss Hok [Hms Httl] Hadm2.
  pose proof (base_request url config c w) as [Hcore1 _]. cbn [fst snd] in Hcore1.
  assert (Hget : JsMap.get (request_key c url config)
                   (cache (client_of (elapsed ms (request url config c w)))) = Some env).
  { destruct (checkRateLimit_outcome c w) as [Hadm|[e Hrej]];
      [|rewrite (request_not_admitted _ _ _ _ _ Hrej) in Hok; discriminate].
    revert Hok. rewrite (request_served _ _ _ _ Hadm), serve_run, Hc.
    change (request_key (set_requestTimestamps (in_window c (now w) ++ [now w]) c) url config)
      with (request_key c url config).
    change (cache (set_requestTimestamps (in_window c (now w) ++ [now w]) c)) with (cache c).
    rewrite Hmiss.
    pose proof (wf_retryRequest
      (if startsWith "http" url
       then url
       else baseURL (set_requestTimestamps (in_window c (now w) ++ [now w]) c) +:+ url)
      config 0 _ _
      (wf_warned c w (in_window c (now w) ++ [now w]) (refresh_due c w)
         [EvWarn refresh_warning] Hwf)) as Hwf1.
    pose proof (base_retryRequest
      (if startsWith "http" url
       then url
       else baseURL (set_requestTimestamps (in_window c (now w) ++ [now w]) c) +:+ url)
      config 0 (set_requestTimestamps (in_window c (now w) ++ [now w]) c)
      (if refresh_due c w then log [EvWarn refresh_warning] w else w)) as [Hcore _].
    destruct (retryRequest _ config 0 _ _) as [[[r|e] c1] w1]; [|discriminate].
    cbn [client_of world_of outcome fst snd] in Hwf1, Hcore. intros [= ->]. unfold elapsed.
    cbn [client_of world_of fst snd].
    apply (setCache_then_advance (request_key c url config) env (cfg_cacheTTL config) c1 w1 ms
             Hwf1 Hms).
    apply core_more in Hcore as (_ & -> & _). exact Httl. }
  pose proof (base_advance ms (client_of (request url config c w))
                (world_of (request url config c w))) as [Hcore2 _].
  cbn [fst snd] in Hcore2. fold (elapsed ms (request url config c w)) in Hcore2.
  assert (Hcore : core (client_of (elapsed ms (request url config c w))) = core c)
    by congruence.
  destruct (request_cache_hit url config (client_of (elapsed ms (request url config c w)))
              (world_of (elapsed ms (request url config c w))) env Hc) as (evs & -> & _).
  - apply core_more in Hcore as (-> & _). exact Hget.
  - rewrite checkRateLimit_run in Hadm2.
    destruct (Z.leb_spec (maxRequests (rateLimitConfig (client_of (elapsed ms (request url config c w)))))
                (Z.of_nat (length (in_window (client_of (elapsed ms (request url config c w)))
                   (now (world_of (elapsed ms (request url config c w)))))))); [discriminate|lia].
  - done.
Qed.

(** X11. A request that ends in an error leaves no trace in the cache:
    every entry present afterwards was present, with the same value, before
    the call, and no expiry timer was created. *)
Theorem failed_request_caches_nothing url config c w e :
  outcome (request url config c w) = Throw e ->
  r_nowrite (c, w) (client_of (request url config c w), world_of (request url config c w)).
Proof.
  intros Hthrow.
  destruct (checkRateLimit_outcome c w) as [Hadm|[e' Hrej]].
  - revert Hthrow. rewrite (request_served _ _ _ _ Hadm), serve_run.
    destruct (if cacheable config then _ else None) as [entry|]; [discriminate|].
    pose proof (nowrite_retryRequest
      (if startsWith "http" url
       then url
       else baseURL (set_requestTimestamps (in_window c (now w) ++ [now w]) c) +:+ url)
      config 0 (set_requestTimestamps (in_window c (now w) ++ [now w]) c)
      (if refresh_due c w then log [EvWarn refresh_warning] w else w)) as [Hs Ht].
    destruct (retryRequest _ config 0 _ _) as [[[r|e1] c1] w1].
    + destruct (cacheable config); discriminate.
    + intros _. cbn [client_of world_of outcome fst snd] in Hs, Ht |- *.
      split; cbn [fst snd].
      * exact Hs.
      * intros id due k Hl. specialize (Ht id due k Hl). by destruct (refresh_due c w).
  - rewrite (request_not_admitted _ _ _ _ _ Hrej). split; cbn [client_of world_of fst snd].
    + intros k v Hk. exact Hk.
    + intros id due k Hl. by destruct (refresh_due c w).
Qed.

(** X12. The cache key is made of the method, the URL and the query
    parameters only.  An entry stored for one request is therefore served to
    a later request with other headers, another body or another TTL, and
    after the auth token was replaced. *)
Theorem cache_ignores_headers_body_and_token url config config' tok ty c w entry :
  cacheable config' = true ->
  method_or_GET config' = method_or_GET config ->
  cfg_params config' = cfg_params config ->
  JsMap.get (request_key c url config) (cache c) = Some entry ->
  outcome (checkRateLimit c w) = Ok tt ->
  outcome (request url config' (client_of (setAuthToken tok ty c w))
                               (world_of (setAuthToken tok ty c w))) =
    Ok (served_from_cache entry)
  /\ fetches (world_of (request url config' (client_of (setAuthToken tok ty c w))
                                            (world_of (setAuthToken tok ty c w)))) =
     fetches w.
Proof.
  intros Hc Hm Hp Hget Hadm.
  assert (Hkey : request_key c url config' = request_key c url config).
  { unfold request_key, generateCacheKey. by rewrite Hm, Hp. }
  cbn [setAuthToken modify client_of world_of fst snd].
  destruct (request_cache_hit url config'
              (set_auth (Some {| token := tok;
                                 type := match ty with Some t => t | None => "Bearer" end |})
                        (refreshToken c) (tokenExpiryTime c) c)
              w entry Hc) as (evs & -> & _).
  - rewrite <- Hkey in Hget. exact Hget.
  - rewrite checkRateLimit_run in Hadm. unfold in_window in *. cbn.
    destruct (Z.leb_spec (maxRequests (rateLimitConfig c))
                (Z.of_nat (length (List.filter
                   (fun timestamp => now w - windowMs (rateLimitConfig c) <? timestamp)
                   (requestTimestamps c))))); [discriminate|lia].
  - done.
Qed.

Lemma request_warnings url config c w :
  warnings (trace (world_of (request url config c w))) =
    warnings (trace w) ++ (if refresh_due c w then [refresh_warning] else []).
Proof.
  rewrite request_exact.
  pose proof (request_pipeline_no_warning url config c
                (if refresh_due c w then log [EvWarn refresh_warning] w else w)) as Hq.
  unfold r_quiet in Hq. cbn [fst snd] in Hq.
  fold (warnings (trace (if refresh_due c w then log [EvWarn refresh_warning] w else w))) in Hq.
  assert (Hw0 : warnings (trace (if refresh_due c w then log [EvWarn refresh_warning] w else w)) =
                warnings (trace w) ++ (if refresh_due c w then [refresh_warning] else [])).
  { destruct (refresh_due c w); [by rewrite warnings_log|by rewrite app_nil_r]. }
  rewrite Hw0 in Hq.
  destruct (request_pipeline url config c _) as [[[r|e] c1] w1];
    cbn [client_of world_of fst snd] in Hq |- *.
  - exact Hq.
  - rewrite warnings_log, warnings_error_events, app_nil_r. exact Hq.
Qed.

(** X13. The token check only writes to the console.  [request] logs the
    warning of the default hook exactly when a refresh token is set and the
    expiry instant is less than a minute away or past, and logs no other
    warning; the token fields are left as they were, so once the warning
    is due every later request logs it again. *)
Theorem refresh_hook_only_warns url config c w :
  warnings (trace (world_of (request url config c w))) =
    warnings (trace w) ++ (if refresh_due c w then [refresh_warning] else [])
  /\ authToken (client_of (request url config c w)) = authToken c
  /\ refreshToken (client_of (request url config c w)) = refreshToken c
  /\ tokenExpiryTime (client_of (request url config c w)) = tokenExpiryTime c
  /\ forall w', refresh_due c w = true -> now w <= now w' ->
       refresh_due (client_of (request url config c w)) w' = true.
Proof.
  pose proof (base_request url config c w) as [Hcore _]. cbn [fst snd] in Hcore.
  pose proof (core_more _ _ Hcore) as (_ & _ & Ha & Hr).
  pose proof (core_fields _ _ Hcore) as (_ & _ & Ht & _).
  split; [apply request_warnings|split; [done|split; [done|split; [done|]]]].
  intros w' Hdue Hnow. unfold refresh_due in *. rewrite Ht, Hr.
  destruct (tokenExpiryTime c) as [t|]; [|done].
  apply andb_prop in Hdue as [Hdue Hs]. apply andb_prop in Hdue as [Hz Hlt].
  rewrite Hz, Hs. apply Z.ltb_lt in Hlt.
  replace (t - 60000 <? now w') with true; [done|]. symmetry. apply Z.ltb_lt. lia.
Qed.

(** ** How often the transport is called *)

Lemma attempt_fetch_bound url config c w :
  (fetches (world_of (performRequest url config c w)) <= S (fetches w))%nat.
Proof.
  pose proof (performRequest_cases url config c w) as H.
  destruct (outcome (buildFetchConfig url config c w)) as [built|e].
  - destruct H as [_ ->]. destruct (chain_result (requestInterceptors c) built); lia.
  - destruct H as (_ & -> & _). lia.
Qed.

Lemma retry_loop_fetch_bound budget url config attempt c w :
  (fetches (world_of (retry_loop budget url config attempt c w)) <= fetches w + S budget)%nat.
Proof.
  revert attempt c w. induction budget as [|budget IH]; intros attempt c w;
    pose proof (attempt_fetch_bound url config c w) as Hb;
    cbn [retry_loop]; rewrite try_catch_run;
    destruct (performRequest url config c w) as [[[r|e] c1] w1];
    cbn [world_of snd] in Hb.
  - cbn [world_of snd]. lia.
  - cbn [world_of snd throw]. lia.
  - cbn [world_of snd]. lia.
  - destruct (isRetryableError e); [|cbn [world_of snd throw]; lia].
    rewrite bind_run. unfold this. cbv beta iota. rewrite bind_run.
    destruct (sleep_effect (retryDelay c1 * 2 ^ Z.of_nat attempt) c1 w1) as (c2 & w2 & -> & _ & Hf2 & _).
    specialize (IH (S attempt) c2 w2). lia.
Qed.

(** X14. One call of [request] calls the transport at most
    [maxRetries + 1] times (once when [maxRetries] is negative), whatever
    the transport and the interceptors do, and not at all when the limiter
    rejects the call; and it records at most one instant, so the limiter
    counts calls of [request], not attempts. *)
Theorem transport_calls_are_bounded url config c w :
  (fetches (world_of (request url config c w)) <= fetches w + S (Z.to_nat (maxRetries c)))%nat
  /\ (length (requestTimestamps (client_of (request url config c w))) <=
      S (length (in_window c (now w))))%nat
  /\ match outcome (checkRateLimit c w) with
     | Ok _ => True
     | Throw _ => fetches (world_of (request url config c w)) = fetches w
     end.
Proof.
  assert (Hf0 : fetches (if refresh_due c w then log [EvWarn refresh_warning] w else w) =
                fetches w) by (by destruct (refresh_due c w)).
  split; [|split].
  - destruct (checkRateLimit_outcome c w) as [Hadm|[e Hrej]].
    + rewrite (request_served _ _ _ _ Hadm), serve_run.
      destruct (if cacheable config then _ else None) as [entry|].
      { cbn [world_of snd]. lia. }
      unfold retryRequest. rewrite bind_run. unfold this. cbv beta iota.
      pose proof (retry_loop_fetch_bound
        (Z.to_nat (maxRetries (set_requestTimestamps (in_window c (now w) ++ [now w]) c) - 0))
        (if startsWith "http" url
         then url
         else baseURL (set_requestTimestamps (in_window c (now w) ++ [now w]) c) +:+ url)
        config 0 (set_requestTimestamps (in_window c (now w) ++ [now w]) c)
        (if refresh_due c w then log [EvWarn refresh_warning] w else w)) as Hb.
      rewrite Hf0 in Hb. cbn [maxRetries set_requestTimestamps] in Hb |- *.
      rewrite Z.sub_0_r in Hb |- *.
      destruct (retry_loop _ _ config 0 _ _) as [[[r|e] c1] w1]; cbn [world_of snd] in Hb |- *.
      * destruct (cacheable config); [rewrite setCache_run|]; cbn [world_of snd fetches]; lia.
      * cbn [log fetches]. lia.
    + rewrite (request_not_admitted _ _ _ _ _ Hrej). cbn [world_of snd log fetches]. lia.
  - destruct (request_stamps url config c w) as [-> _].
    destruct (_ <=? _); [lia|]. rewrite length_app. cbn. lia.
  - destruct (outcome (checkRateLimit c w)) as [[]|e] eqn:Hrej; [done|].
    rewrite (request_not_admitted _ _ _ _ _ Hrej). cbn [world_of snd log fetches]. lia.
Qed.

(** ** Attempts stopped before the transport *)

Lemma attempt_stopped url config c w e :
  (serialisable config /\ forall d, chain_result (requestInterceptors c) d = Throw e)
  \/ query_string config = Throw e ->
  exists c1 w1,
    performRequest url config c w = (Throw e, c1, w1)
    /\ core c1 = core c
    /\ fetches w1 = fetches w
    /\ delays (trace w1) = delays (trace w).
Proof.
  intros [[Hser Hchain]|Hq].
  - destruct (performRequest_run url config c w Hser) as (built & _ & Hout & Hn).
    rewrite Hchain in Hout, Hn. cbn [res_bind] in Hout.
    destruct (base_performRequest url config c w) as [Hcore _].
    pose proof (performRequest_no_delay url config c w) as Hq. unfold r_quiet in Hq.
    destruct (performRequest url config c w) as [[r c1] w1].
    cbn in Hout, Hn, Hcore, Hq. subst r. by exists c1, w1.
  - rewrite (performRequest_unbuilt url config c w e Hq). eexists _, _.
    split; [reflexivity|]. by split.
Qed.

Lemma retry_loop_stopped budget url config attempt c w e :
  (serialisable config /\ forall d, chain_result (requestInterceptors c) d = Throw e)
  \/ query_string config = Throw e ->
  isRetryableError e = true ->
  exists c' w',
    retry_loop budget url config attempt c w = (Throw e, c', w')
    /\ fetches w' = fetches w
    /\ delays (trace w') = delays (trace w) ++ backoff c attempt budget.
Proof.
  intros Hchain Hretry. revert attempt c w Hchain.
  induction budget as [|budget IH]; intros attempt c w Hchain;
    destruct (attempt_stopped url config c w e Hchain)
      as (c1 & w1 & Hp & Hc1 & Hf1 & Hd1);
    cbn [retry_loop]; rewrite try_catch_run, Hp.
  - exists c1, w1. split; [done|]. split; [done|].
    unfold backoff. cbn. by rewrite app_nil_r.
  - rewrite Hretry, bind_run. unfold this. cbv beta iota. rewrite bind_run.
    destruct (sleep_effect (retryDelay c1 * 2 ^ Z.of_nat attempt) c1 w1)
      as (c2 & w2 & -> & Hc2 & Hf2 & Hd2).
    assert (Hcore : core c2 = core c) by congruence.
    destruct (IH (S attempt) c2 w2) as (c' & w' & Hl & Hf' & Hd').
    { apply core_fields in Hcore as (_ & _ & _ & -> & _). exact Hchain. }
    exists c', w'. split; [done|]. split; [lia|].
    rewrite Hd', Hd2, Hd1, backoff_S, (backoff_core c c2) by done.
    apply core_fields in Hc1 as (_ & -> & _). by rewrite <- app_assoc.
Qed.

(** X15. An attempt that is stopped before the transport is retried like a
    failure of the transport.  When the query parameters cannot be
    serialised, so that [buildFetchConfig] throws, or when they can and the
    request chain throws, each time the same retryable error (an error
    without status, say), [retryRequest] makes [maxRetries + 1] attempts,
    asking the timer for the usual delays in between, never calls the
    transport, and throws that error. *)
Theorem stopped_attempt_is_retried url config c w e :
  (serialisable config /\ forall d, chain_result (requestInterceptors c) d = Throw e)
  \/ query_string config = Throw e ->
  isRetryableError e = true ->
  outcome (retryRequest url config 0 c w) = Throw e
  /\ fetches (world_of (retryRequest url config 0 c w)) = fetches w
  /\ delays (trace (world_of (retryRequest url config 0 c w))) =
       delays (trace w) ++ backoff c 0 (Z.to_nat (maxRetries c)).
Proof.
  intros Hchain Hretry. unfold retryRequest. rewrite bind_run. unfold this.
  cbv beta iota. change (Z.of_nat 0) with 0. rewrite Z.sub_0_r.
  destruct (retry_loop_stopped (Z.to_nat (maxRetries c)) url config 0 c w e
              Hchain Hretry) as (c' & w' & -> & Hf & Hd).
  done.
Qed.

(** X16. [put], [patch], [delete] and [post] never answer from the cache:
    whenever one of them returns a response, the transport was called during
    that call, whatever the cache holds. *)
Theorem mutating_wrappers_call_transport url d config c w :
  match outcome (put url d config c w) with
  | Ok _ => (fetches w < fetches (world_of (put url d config c w)))%nat
  | Throw _ => True
  end
  /\ match outcome (patch url d config c w) with
     | Ok _ => (fetches w < fetches (world_of (patch url d config c w)))%nat
     | Throw _ => True
     end
  /\ match outcome (delete_ url config c w) with
     | Ok _ => (fetches w < fetches (world_of (delete_ url config c w)))%nat
     | Throw _ => True
     end
  /\ match outcome (post url d config c w) with
     | Ok _ => (fetches w < fetches (world_of (post url d config c w)))%nat
     | Throw _ => True
     end.
Proof.
  assert (Hgen : forall cfg, cacheable cfg = false ->
            match outcome (request url cfg c w) with
            | Ok _ => (fetches w < fetches (world_of (request url cfg c w)))%nat
            | Throw _ => True
            end).
  { intros cfg Hc. destruct (outcome (request url cfg c w)) as [env|e] eqn:Hok; [|done].
    by apply (uncached_ok_fetches url cfg c w env). }
  unfold put, patch, delete_, post.
  repeat split; apply Hgen; unfold cacheable, with_body, no_cache; cbn;
    apply andb_false_r.
Qed.

(** ** Abort timers *)

#[local] Instance keeps_aborts_preorder : PreOrder keeps_aborts.
Proof.
  split.
  - intros s Hwf. split; [done|]. split; [lia|done].
  - intros s1 s2 s3 H12 H23 Hwf.
    destruct (H12 Hwf) as (Hwf2 & Hn2 & Hk2). destruct (H23 Hwf2) as (Hwf3 & Hn3 & Hk3).
    split; [done|]. split; [lia|].
    intros id due Hl Hdue. apply Hk3; [|done]. apply Hk2; [done|lia].
Qed.

Lemma aborts_from {A} (m : M A) :
  preserves keeps_wf m ->
  (forall c w, wf c w ->
     now w <= now (world_of (m c w))
     /\ forall id due, timers w !! id = Some (due, TAbort) -> now (world_of (m c w)) < due ->
          timers (world_of (m c w)) !! id = Some (due, TAbort)) ->
  preserves keeps_aborts m.
Proof.
  intros Hwf Hm c w Hc. cbn [fst snd] in Hc. split; [by apply (Hwf c w)|].
  cbn [fst snd]. by apply Hm.
Qed.

Lemma aborts_emit e : preserves keeps_aborts (emit e).
Proof. apply aborts_from; [apply wf_emit|]. intros c w _. cbn. split; [lia|done]. Qed.

Lemma aborts_modify f :
  (forall c, cache (f c) = cache c /\ cacheTimers (f c) = cacheTimers c) ->
  preserves keeps_aborts (modify f).
Proof.
  intros Hf. apply aborts_from; [by apply wf_modify|]. intros c w _. cbn. split; [lia|done].
Qed.

Lemma aborts_count_fetch d : preserves keeps_aborts (count_fetch d).
Proof. apply aborts_from; [apply wf_count_fetch|]. intros c w _. cbn. split; [lia|done]. Qed.

Lemma aborts_abort ms : preserves keeps_aborts (setTimeout TAbort ms).
Proof.
  apply aborts_from; [apply wf_abort|]. intros c w [_ _ _ H4]. cbn. split; [lia|].
  intros id due Hl _. rewrite lookup_insert_ne; [done|].
  intros <-. assert (nextTimer w < nextTimer w)%nat; [|lia]. apply H4. by eexists.
Qed.

Lemma aborts_advance ms : preserves keeps_aborts (advance ms).
Proof.
  apply aborts_from; [apply wf_advance|]. intros c w _. cbn. split; [lia|].
  intros id due Hl Hdue. apply map_lookup_filter_Some. split; [done|]. cbn. lia.
Qed.

Lemma aborts_setCache k d ttl : preserves keeps_aborts (setCache k d ttl).
Proof.
  apply aborts_from; [apply wf_setCache|]. intros c w [H1 _ _ H4]. rewrite setCache_run.
  cbn. split; [lia|]. intros id due Hl _.
  rewrite lookup_insert_ne.
  - destruct (cacheTimers c !! k) as [old|] eqn:Hk; [|done].
    rewrite lookup_delete_ne; [done|]. intros <-.
    destruct (H1 _ _ Hk) as [due' Hd]. congruence.
  - intros <-. assert (nextTimer w < nextTimer w)%nat; [|lia]. apply H4. by eexists.
Qed.

Lemma aborts_clearCache k : preserves keeps_aborts (clearCache k).
Proof.
  apply aborts_from; [apply wf_clearCache|]. intros c w [H1 _ _ _]. rewrite clearCache_run.
  cbn. destruct (cacheTimers c !! k) as [old|] eqn:Hk; cbn; (split; [lia|]); [|done].
  intros id due Hl _. rewrite lookup_delete_ne; [done|]. intros <-.
  destruct (H1 _ _ Hk) as [due' Hd]. congruence.
Qed.

Lemma in_range_registered (m : gmap string nat) id :
  id ∈ List.map snd (map_to_list m) -> exists k, m !! k = Some id.
Proof.
  intros H. apply list_elem_of_In, in_map_iff in H as [[k id'] [Hs Hin]]. cbn in Hs. subst id'.
  exists k. by apply elem_of_map_to_list, list_elem_of_In.
Qed.

Lemma aborts_clearAllCache : preserves keeps_aborts clearAllCache.
Proof.
  apply aborts_from; [apply wf_clearAllCache|]. intros c w [H1 _ _ _].
  rewrite clearAllCache_run. cbn. split; [lia|]. intros id due Hl _.
  rewrite lookup_fold_delete. case_bool_decide as Hin; [|done].
  apply in_range_registered in Hin as [k Hk]. destruct (H1 _ _ Hk) as [due' Hd]. congruence.
Qed.

Lemma aborts_request url config : preserves keeps_aborts (request url config).
Proof.
  apply request_preserves; [typeclasses eauto|intros; apply aborts_emit|..];
    auto using aborts_abort, aborts_advance, aborts_count_fetch, aborts_emit, aborts_setCache.
  - intros ts. by apply aborts_modify.
  - intros n. by apply aborts_modify.
Qed.

Lemma aborts_settle {A} (m : M A) : preserves keeps_aborts m -> preserves keeps_aborts (settle m).
Proof. intros Hm. unfold settle. walk. exact Hm. Qed.

Lemma aborts_run_call x : preserves keeps_aborts (run_call x).
Proof.
  destruct x; cbn [run_call].
  - apply aborts_modify. by intros c'.
  - unfold setRefreshToken. walk. apply aborts_modify. by intros c'.
  - apply aborts_modify. by intros c'.
  - apply aborts_modify. by intros c'.
  - apply aborts_modify. by intros c'.
  - apply aborts_settle, aborts_request.
  - apply aborts_settle, aborts_request.
  - apply aborts_settle, aborts_request.
  - apply aborts_settle, aborts_request.
  - apply aborts_settle, aborts_request.
  - apply aborts_settle, aborts_request.
  - apply aborts_clearCache.
  - apply aborts_clearAllCache.
  - apply aborts_settle. unfold getRateLimitStatus. walk.
  - apply aborts_settle. unfold getCacheStats. walk.
  - apply aborts_advance.
Qed.

Lemma aborts_run_calls l : preserves keeps_aborts (run_calls l).
Proof. induction l; cbn [run_calls]; walk; [apply aborts_run_call|done]. Qed.

(** X17. The timer behind the abort signal of an attempt is never
    cancelled.  Whatever is called on the client afterwards, a pending abort
    timer stays pending until its due time has come, also when the attempt
    it was armed for returned long before. *)
Theorem abort_timers_are_never_cancelled calls c w id due :
  wf c w ->
  timers w !! id = Some (due, TAbort) ->
  now (world_of (run_calls calls c w)) < due ->
  timers (world_of (run_calls calls c w)) !! id = Some (due, TAbort).
Proof.
  intros Hwf Hl Hdue.
  destruct (aborts_run_calls calls c w Hwf) as (_ & _ & Hk). cbn [fst snd] in Hk.
  by apply Hk.
Qed.

Lemma aborts_attempt_rest built :
  preserves keeps_aborts
    (let! interceptedConfig := executeRequestInterceptors built in
     let! response := do_fetch interceptedConfig in
     let! result := lift (handleResponse response) in
     executeResponseInterceptors result).
Proof.
  pre preserves_bind.
  { apply executeRequestInterceptors_preserves; [typeclasses eauto|].
    intros; apply aborts_emit. }
  intros d. pre preserves_bind.
  { apply do_fetch_preserves; [typeclasses eauto| |];
      auto using aborts_advance, aborts_count_fetch. }
  intros response. pre preserves_bind; [pre preserves_lift|intros result].
  apply executeResponseInterceptors_preserves; [typeclasses eauto|].
  intros; apply aborts_emit.
Qed.

(** X18. Every attempt arms one abort timer and does not disarm it when
    the transport has answered: after an attempt that ended before the timer
    is due, whether it returned or threw, the timer is still pending.  The
    timer is due [timeout] ms after the attempt began when [timeout] lies
    between 1 and [2^31 - 1] ms, and 1 ms after it began for any other
    [timeout]. *)
Theorem attempt_leaves_its_abort_timer url config c w :
  wf c w ->
  now (world_of (performRequest url config c w)) < now w + timer_delay (timeout c) ->
  timers (world_of (performRequest url config c w)) !! nextTimer w =
    Some (now w + timer_delay (timeout c), TAbort)
  /\ (1 <= timeout c <= TIMEOUT_MAX -> timer_delay (timeout c) = timeout c)
  /\ (timeout c < 1 \/ TIMEOUT_MAX < timeout c -> timer_delay (timeout c) = 1).
Proof.
  intros Hwf Hdue. split.
  - revert Hdue. unfold performRequest. rewrite bind_run.
    destruct (buildFetchConfig_run url config c w) as (r & -> & _).
    destruct r as [built|e].
    + pose proof (wf_abort (timeout c) c w Hwf) as Hwf0.
      cbn [setTimeout client_of world_of fst snd] in Hwf0.
      destruct (aborts_attempt_rest built c _ Hwf0) as (_ & _ & Hk). cbn [fst snd] in Hk.
      intros Hdue. apply Hk; [|exact Hdue].
      cbn [timers]. apply lookup_insert_eq.
    + intros _. cbn [world_of snd timers]. apply lookup_insert_eq.
  - split; [apply timer_delay_in_range|].
    intros Hout. unfold timer_delay.
    destruct (Z.leb_spec 1 (timeout c)); [|done].
    destruct (Z.leb_spec (timeout c) TIMEOUT_MAX); [lia|done].
Qed.

Lemma filter_drops_one {A} (p : A -> bool) (l : list A) x :
  x ∈ l -> p x = false -> (length (List.filter p l) < length l)%nat.
Proof.
  induction l as [|y l IH]; intros Hin Hp; [by apply elem_of_nil in Hin|].
  pose proof (List.filter_length_le p l) as Hle. cbn [List.filter length].
  apply elem_of_cons in Hin as [->|Hin].
  - rewrite Hp. lia.
  - specialize (IH Hin Hp). destruct (p y); cbn [length]; lia.
Qed.

(** X19. The [resetTime] reported by [getRateLimitStatus] is an instant at
    which a slot is free: on a client that holds no more instants than its
    limit (at least 1), with some request in the window, a call made at
    [resetTime] or later is admitted. *)
Theorem reset_time_frees_a_slot c w w' oldest :
  1 <= maxRequests (rateLimitConfig c) ->
  stamps_bounded c ->
  head (in_window c (now w)) = Some oldest ->
  oldest <= now w ->
  exists s,
    outcome (getRateLimitStatus c w) = Ok s
    /\ (resetTime s <= now w' -> outcome (checkRateLimit c w') = Ok tt).
Proof.
  intros Hpos Hb Hhead Hpast. eexists. split; [reflexivity|].
  cbn [resetTime]. fold (in_window c (now w)). rewrite Hhead. intros Hlater.
  rewrite checkRateLimit_admits; [done|].
  assert (Hin : oldest ∈ requestTimestamps c).
  { assert (H : oldest ∈ in_window c (now w)).
    { destruct (in_window c (now w)) as [|o rest]; [done|]. injection Hhead as ->. by left. }
    unfold in_window in H. apply list_elem_of_In, filter_In in H as [H _].
    by apply list_elem_of_In. }
  assert (Hout : (now w' - windowMs (rateLimitConfig c) <? oldest) = false).
  { apply Z.ltb_ge. revert Hlater. destruct (Z.eqb_spec oldest 0); lia. }
  pose proof (filter_drops_one
    (fun timestamp => now w' - windowMs (rateLimitConfig c) <? timestamp) _ _ Hin Hout) as Hlt.
  unfold stamps_bounded in Hb. unfold in_window. lia.
Qed.

(** ** A cleared key *)

Lemma expiry_logged acts k :
  k ∈ expiries (concat (List.map action_event acts)) -> TExpire k ∈ acts.
Proof.
  induction acts as [|a acts IH]; cbn; [intros H; by apply elem_of_nil in H|].
  unfold expiries. rewrite flat_map_app. fold (expiries (action_event a)).
  fold (expiries (concat (List.map action_event acts))).
  rewrite elem_of_app. intros [H|H].
  - destruct a as [key|]; cbn in H.
    + apply list_elem_of_singleton in H as ->. by left.
    + by apply elem_of_nil in H.
  - right. by apply IH.
Qed.

Lemma advance_spares k ms c w :
  (forall id due, timers w !! id <> Some (due, TExpire k)) ->
  exists l,
    expiries (trace (world_of (advance ms c w))) = expiries (trace w) ++ l
    /\ (k ∉ l)
    /\ (forall id due, timers (world_of (advance ms c w)) !! id <> Some (due, TExpire k)).
Proof.
  intros Hno. cbn [advance world_of snd trace timers].
  exists (expiries (concat (List.map action_event
            (due_actions (now w + Z.max 0 ms) (timers w))))).
  split; [unfold expiries; by rewrite flat_map_app|]. split.
  - intros Hin. apply expiry_logged, in_due_actions in Hin as (id & due & Hl & _).
    by destruct (Hno id due).
  - intros id due Hl. apply map_lookup_filter_Some in Hl as [Hl _]. by destruct (Hno id due).
Qed.

Lemma elapse_spares k steps c w :
  (forall id due, timers w !! id <> Some (due, TExpire k)) ->
  exists l,
    expiries (trace (world_of (run_calls (List.map Elapse steps) c w))) =
      expiries (trace w) ++ l
    /\ (k ∉ l).
Proof.
  revert c w. induction steps as [|ms steps IH]; intros c w Hno; cbn [List.map run_calls].
  - exists []. split; [by rewrite app_nil_r|]. apply not_elem_of_nil.
  - rewrite bind_run. cbn [run_call].
    destruct (advance_spares k ms c w Hno) as (l1 & Ht & Hk & Hno').
    destruct (advance ms c w) as [[r c1] w1] eqn:Hadv.
    assert (r = Ok tt) as -> by (unfold advance in Hadv; by inversion Hadv).
    cbn [world_of snd] in Ht, Hno'.
    destruct (IH c1 w1 Hno') as (l2 & Ht2 & Hk2).
    exists (l1 ++ l2). split; [by rewrite Ht2, Ht, app_assoc|].
    rewrite elem_of_app. by intros [H|H].
Qed.

(** X20. An entry removed by [clearCache] is not removed a second time:
    after [clearCache] the key is not cached, no expiry timer for it is
    pending, and however much time passes no expiry callback runs for it. *)
Theorem cleared_key_never_expires k steps c w :
  wf c w ->
  JsMap.get k (cache (client_of (clearCache k c w))) = None
  /\ (forall id due, timers (world_of (clearCache k c w)) !! id <> Some (due, TExpire k))
  /\ exists l,
       expiries (trace (world_of (run_calls (List.map Elapse steps)
                                    (client_of (clearCache k c w))
                                    (world_of (clearCache k c w))))) =
         expiries (trace w) ++ l
       /\ (k ∉ l).
Proof.
  intros [H1 H2 H3 H4].
  assert (Hno : forall id due, timers (world_of (clearCache k c w)) !! id <> Some (due, TExpire k)).
  { rewrite clearCache_run. cbn [world_of snd].
    destruct (cacheTimers c !! k) as [t|] eqn:Hk; cbn [set_timers timers]; intros id due Hl.
    - rewrite lookup_delete in Hl. case_decide as Hid; [done|].
      apply H2 in Hl. congruence.
    - apply H2 in Hl. congruence. }
  split; [|split; [exact Hno|]].
  - rewrite clearCache_run. cbn [client_of fst snd cache set_cache]. apply get_delete_eq.
  - destruct (elapse_spares k steps (client_of (clearCache k c w))
                (world_of (clearCache k c w)) Hno) as (l & Ht & Hk).
    exists l. split; [|done]. rewrite Ht. f_equal.
    rewrite clearCache_run. cbn [world_of snd].
    by destruct (cacheTimers c !! k).
Qed.

(** X21. After [setRefreshToken(token, expiry)] with a non-empty token,
    [request] logs the warning of the refresh hook from one minute before
    the expiry instant on and not earlier; with an expiry of a minute or
    less it does so at once. *)
Theorem warning_starts_a_minute_before_expiry rt expiry url config c w w' :
  rt <> "" ->
  now w + match expiry with Some e => e | None => 3600000 end <> 0 ->
  warnings (trace (world_of (request url config
                               (client_of (setRefreshToken rt expiry c w)) w'))) =
    warnings (trace w') ++
    (if now w + match expiry with Some e => e | None => 3600000 end - 60000 <? now w'
     then [refresh_warning] else []).
Proof.
  intros Hrt Ht. rewrite request_warnings. f_equal.
  unfold refresh_due.
  cbn [setRefreshToken bind Date_now modify client_of fst snd tokenExpiryTime refreshToken
       set_auth str_truthy].
  destruct (Z.eqb_spec (now w + match expiry with Some e => e | None => 3600000 end) 0);
    [done|].
  destruct (String.eqb_spec rt ""); [done|].
  cbn [negb andb]. by rewrite andb_true_r.
Qed.
End Platform.

(** ** Concrete runs *)

(** The sample states are the ones [request] reaches. *)
Lemma sample_states_reached :
  request sample_stringify sample_query always_ok "/x" emptyConfig client0 world0 =
    (Ok ok_envelope, warm_client, warm_world)
  /\ request sample_stringify sample_query always_ok "/x" emptyConfig (limited 1) world0 =
       (Ok ok_envelope, spent_client, spent_world)
  /\ request sample_stringify sample_query always_ok "/x" put_config client0 world0 =
       (Ok ok_envelope, after_put_client, after_put_world).
Proof. repeat split; vm_compute; reflexivity. Qed.

Lemma wf_world0 opts : wf (constructor opts) world0.
Proof.
  apply wf_constructor. intros id due a H. cbn in H. by rewrite lookup_empty in H.
Qed.

Lemma warm_state_wf : wf warm_client warm_world.
Proof.
  pose proof (wf_request sample_stringify sample_query always_ok "/x" emptyConfig
                client0 world0 (wf_world0 no_options)) as H.
  destruct sample_states_reached as (Hr & _). rewrite Hr in H. exact H.
Qed.

Lemma C1_witness :
  (exists env,
     outcome (retryRequest sample_stringify sample_query
                (answers [json_response 503; json_response 503] (json_response 200))
                "/x" emptyConfig 0 client1 world0) = Ok env
     /\ delays (trace (world_of (retryRequest sample_stringify sample_query
                (answers [json_response 503; json_response 503] (json_response 200))
                "/x" emptyConfig 0 client1 world0))) = [1000; 2000]
     /\ fetches (world_of (retryRequest sample_stringify sample_query
                (answers [json_response 503; json_response 503] (json_response 200))
                "/x" emptyConfig 0 client1 world0)) = 3%nat)
  /\ (exists e,
        outcome (retryRequest sample_stringify sample_query (answers [] (json_response 404))
                   "/x" emptyConfig 0 client1 world0) = Throw e
        /\ e_status e = Some 404
        /\ fetches (world_of (retryRequest sample_stringify sample_query
                   (answers [] (json_response 404)) "/x" emptyConfig 0 client1 world0)) = 1%nat).
Proof.
  assert (Hrq : total (requestInterceptors client1)).
  { repeat constructor. intros x. eexists. reflexivity. }
  assert (Hrs : total (responseInterceptors client1)).
  { repeat constructor. intros x. eexists. reflexivity. }
  assert (Hbody : DJson (JObj []) <> DJson JNull) by discriminate.
  assert (Hser : serialisable sample_query emptyConfig) by (exists None; reflexivity).
  split.
  - destruct (proj1 (proj2 (proj2 (proj2 (C1_retry_with_backoff sample_stringify sample_query
        (answers [json_response 503; json_response 503] (json_response 200))))))
        "/x" emptyConfig client1 world0
        (json_response 503) (json_response 503) (json_response 200)
        (DJson (JObj [])) (DJson (JObj [])) (DJson (JObj []))
        Hser eq_refl Hrq Hrs (fun _ => eq_refl) (fun _ => eq_refl) (fun _ => eq_refl)
        eq_refl eq_refl Hbody eq_refl eq_refl Hbody eq_refl eq_refl)
      as (env & H1 & _ & H3 & H4).
    exists env. split; [exact H1|]. split; [exact H3|exact H4].
  - destruct (proj2 (proj2 (proj2 (proj2 (C1_retry_with_backoff sample_stringify sample_query
        (answers [] (json_response 404))))))
        "/x" emptyConfig client1 world0 (json_response 404) (DJson (JObj []))
        Hser Hrq (fun _ => eq_refl) eq_refl eq_refl Hbody)
      as (e & H1 & H2 & _ & H4).
    exists e. split; [exact H1|]. split; [exact H2|exact H4].
Defined.

(** C1, as the claim words it, fails for an error whose status is 0: the
    status is there and is below 500, yet the error is retried.  A transport
    that answers an opaque response (status 0) and then a 200 is called
    twice, with one delay of [retryDelay] in between. *)
Lemma C1_status_zero_is_retried :
  let e := mkError (MsgHttpError 0) (Some 0) (Some (DBlob [])) (Some []) in
  handleResponse opaque_response = Throw e
  /\ e_status e <> None
  /\ ~ (exists s, e_status e = Some s /\ 500 <= s)
  /\ retries client0 0 e = true
  /\ outcome (retryRequest sample_stringify sample_query
                (answers [opaque_response] (json_response 200))
                "/x" emptyConfig 0 client0 world0) = Ok ok_envelope
  /\ delays (trace (world_of (retryRequest sample_stringify sample_query
                (answers [opaque_response] (json_response 200))
                "/x" emptyConfig 0 client0 world0))) = [1000]
  /\ fetches (world_of (retryRequest sample_stringify sample_query
                (answers [opaque_response] (json_response 200))
                "/x" emptyConfig 0 client0 world0)) = 2%nat.
Proof.
  cbv zeta. split; [reflexivity|]. split; [discriminate|].
  split; [intros (s & [= <-] & H); lia|].
  split; [reflexivity|]. split; [vm_compute; reflexivity|].
  split; vm_compute; reflexivity.
Qed.


Lemma C2_witness :
  (exists oldest,
     head (in_window spent_client (now spent_world)) = Some oldest
     /\ checkRateLimit spent_client spent_world =
          (Throw (rate_limit_error spent_client (now spent_world) oldest),
           set_requestTimestamps (in_window spent_client (now spent_world)) spent_client,
           spent_world)
     /\ 1 <= ceil_seconds (windowMs (rateLimitConfig spent_client) - (now spent_world - oldest)))
  /\ (exists c' w',
        checks_pass [100; 200] (limited 2) world0 = Some (c', w')
        /\ (exists seconds,
              checkRateLimit_at 300 c' w' =
                (Throw (plain_error (MsgRateLimit (Some seconds))), c',
                 mkWorld 300 (timers w') (nextTimer w') (fetches w') (trace w'))
              /\ 1 <= seconds)
        /\ outcome (checkRateLimit_at 70000 c' w') = Ok tt).
Proof.
  split.
  - apply (proj1 (C2_rate_limit sample_stringify sample_query always_ok)
             spent_client spent_world); vm_compute; discriminate.
  - apply (proj2 (proj2 (proj2 (proj2 (C2_rate_limit sample_stringify sample_query always_ok))))
             0 60000 [100; 200] 300 70000 (limited 2) world0).
    + cbn. lia.
    + reflexivity.
    + reflexivity.
    + cbn. lia.
    + intros x Hx. repeat (apply elem_of_cons in Hx as [->|Hx]); try lia.
      by apply elem_of_nil in Hx.
    + lia.
    + intros x Hx. cbn. repeat (apply elem_of_cons in Hx as [->|Hx]); try lia.
      by apply elem_of_nil in Hx.
Defined.

(** C2, as the claim words it, fails for a client configured with a limit of
    zero requests: the first call is rejected with nothing recorded, so
    there is no oldest instant and the wait is not a number, and a call made
    after the window has passed is rejected just the same. *)
Lemma C2_zero_limit :
  maxRequests (rateLimitConfig (limited 0)) = 0
  /\ in_window (limited 0) (now world0) = []
  /\ checkRateLimit (limited 0) world0 =
       (Throw (plain_error (MsgRateLimit None)), limited 0, world0)
  /\ outcome (request sample_stringify sample_query always_ok "/x" emptyConfig
                (limited 0) world0) = Throw (plain_error (MsgRateLimit None))
  /\ outcome (checkRateLimit_at (now world0 + 60000 + 1) (limited 0) world0) =
       Throw (plain_error (MsgRateLimit None)).
Proof. repeat split; vm_compute; reflexivity. Qed.

Lemma C3_witness :
  (exists evs,
     request sample_stringify sample_query always_ok "/x" emptyConfig warm_client warm_world =
       (Ok (served_from_cache ok_envelope),
        set_requestTimestamps
          (in_window warm_client (now warm_world) ++ [now warm_world]) warm_client,
        log evs warm_world)
     /\ evs = [])
  /\ JsMap.get "GET:/x:" (cache (client_of (advance 299999 warm_client warm_world))) =
       Some ok_envelope
  /\ JsMap.get "GET:/x:" (cache (client_of (advance 300000 warm_client warm_world))) = None.
Proof.
  destruct (C3_cache_hit sample_stringify sample_query always_ok)
    as (Hhit & _ & _ & Hkept & Hexpired & _).
  split; [|split].
  - destruct (Hhit "/x" emptyConfig warm_client warm_world ok_envelope)
      as (evs & H1 & _ & H3).
    + reflexivity.
    + vm_compute. reflexivity.
    + vm_compute. reflexivity.
    + exists evs. split; [exact H1|]. apply H3. vm_compute. reflexivity.
  - rewrite (Hkept 299999 warm_client warm_world 1%nat 1300010 "GET:/x:" warm_state_wf).
    + reflexivity.
    + vm_compute. reflexivity.
    + vm_compute. reflexivity.
    + vm_compute. reflexivity.
  - apply (Hexpired 300000 warm_client warm_world 1%nat 1300010 "GET:/x:").
    + vm_compute. reflexivity.
    + vm_compute. discriminate.
Defined.

(** C3, as the claim words it, fails when the rate limiter rejects the call:
    the entry for [GET /x] is in the cache, the request is cacheable, and
    [request] raises the rate-limit error instead of returning the entry. *)
Lemma C3_cached_but_rate_limited :
  cacheable emptyConfig = true
  /\ JsMap.get (generateCacheKey sample_stringify "/x" emptyConfig) (cache spent_client) =
       Some ok_envelope
  /\ outcome (request sample_stringify sample_query always_ok "/x" emptyConfig
                spent_client spent_world) =
       Throw (plain_error (MsgRateLimit (Some 60)))
  /\ fetches (world_of (request sample_stringify sample_query always_ok "/x" emptyConfig
                spent_client spent_world)) = fetches spent_world.
Proof. repeat split; vm_compute; reflexivity. Qed.

(** C4 fails on the code: a PUT issued through [request] itself, without the
    cache flag, is cacheable; its response is stored under the key
    [PUT:/x:], and the next such PUT is answered from the cache without the
    transport being called. *)
Theorem C4_put_through_request_is_cached :
  cacheable put_config = true
  /\ JsMap.get "PUT:/x:" (cache client0) = None
  /\ JsMap.get "PUT:/x:" (cache after_put_client) = Some ok_envelope
  /\ outcome (request sample_stringify sample_query always_ok "/x" put_config
                after_put_client after_put_world) = Ok (served_from_cache ok_envelope)
  /\ fetches (world_of (request sample_stringify sample_query always_ok "/x" put_config
                after_put_client after_put_world)) = fetches after_put_world.
Proof. repeat split; vm_compute; reflexivity. Qed.

Lemma C5_witness :
  cacheable (with_method "post" emptyConfig) = false
  /\ shrinks warm_client
       (client_of (request sample_stringify sample_query always_ok "/x"
                     (with_method "post" emptyConfig) warm_client warm_world))
  /\ JsMap.keys
       (cache (client_of (request sample_stringify sample_query always_ok "/x"
                            (with_method "post" emptyConfig) warm_client warm_world))) =
     ["GET:/x:"].
Proof.
  destruct (proj1 (C5_post_bypasses_cache sample_stringify sample_query always_ok)
              "/x" (with_method "post" emptyConfig) warm_client warm_world
              (ex_intro _ "post" (conj eq_refl eq_refl)))
    as (H1 & _ & H3 & _).
  split; [exact H1|]. split; [exact H3|]. vm_compute. reflexivity.
Defined.

(** A TTL of [2^31 - 1] ms is honoured; one of [2^31] ms overflows the
    timer, and the entry is gone a millisecond after it was stored. *)
Lemma ttl_overflow_run :
  JsMap.get "k" (cache (client_of (elapsed 1
    (setCache "k" ok_envelope (Some 2147483647) client0 world0)))) = Some ok_envelope
  /\ JsMap.get "k" (cache (client_of (elapsed 0
       (setCache "k" ok_envelope (Some 2147483648) client0 world0)))) = Some ok_envelope
  /\ JsMap.get "k" (cache (client_of (elapsed 1
       (setCache "k" ok_envelope (Some 2147483648) client0 world0)))) = None.
Proof. repeat split; vm_compute; reflexivity. Qed.

(** On [tagging_client] a 404 goes through both error interceptors, "a"
    before "b", and the error they made of it is the one raised. *)
Lemma tagging_client_run :
  outcome (request_pipeline sample_stringify sample_query (answers [] (json_response 404))
             "/x" emptyConfig tagging_client world0) = Throw error_404
  /\ chain_result (errorInterceptors tagging_client) error_404 = Ok tagged_404
  /\ outcome (request sample_stringify sample_query (answers [] (json_response 404))
                "/x" emptyConfig tagging_client world0) = Throw tagged_404
  /\ trace (world_of (request sample_stringify sample_query (answers [] (json_response 404))
                        "/x" emptyConfig tagging_client world0)) =
       [EvFetch 0 "/x"; EvErrorInterceptor 0; EvErrorInterceptor 1].
Proof. repeat split; vm_compute; reflexivity. Qed.

Lemma C6_witness :
  (exists e evs,
     outcome (request_pipeline sample_stringify sample_query (answers [] (json_response 404))
                "/x" emptyConfig tagging_client (log evs world0)) = Throw e
     /\ tagged_404 = raised (chain_result (errorInterceptors tagging_client) e))
  /\ ((exists entry,
         cacheable emptyConfig = true
         /\ JsMap.get (request_key sample_stringify client1 "/x" emptyConfig) (cache client1) =
            Some entry
         /\ seen_envelope = served_from_cache entry)
      \/ (exists n d response body,
            snd (always_ok n d) = Ok response
            /\ r_ok response = true
            /\ read_body response = Ok body
            /\ chain_result (responseInterceptors client1)
                 {| status := r_status response; statusText := r_statusText response;
                    headers := r_headers response; data := body; fromCache := false |} =
               Ok seen_envelope)).
Proof.
  split.
  - apply (proj1 (proj2 (proj2 (proj2 (proj2 (proj2
             (C6_errors_reach_the_caller sample_stringify sample_query
                (answers [] (json_response 404))))))))
             "/x" emptyConfig tagging_client world0 tagged_404).
    vm_compute. reflexivity.
  - apply (proj1 (proj2 (proj2 (proj2 (proj2 (proj2 (proj2
             (C6_errors_reach_the_caller sample_stringify sample_query always_ok)))))))
             "/x" emptyConfig client1 world0 seen_envelope).
    vm_compute. reflexivity.
Defined.



Lemma C8_witness :
  JsMap.keys (cache warm_client) = ["GET:/x:"]
  /\ (clearCache "GET:/x:" client0 world0 = (Ok tt, client0, world0)
      /\ clearAllCache client0 world0 = (Ok tt, client0, world0))
  /\ (forall id due k,
        timers (world_of (clearAllCache warm_client warm_world)) !! id <> Some (due, TExpire k))
  /\ outcome
       (getCacheStats sample_stringify
          (client_of (run_calls sample_stringify sample_query always_ok
                        (List.map Elapse [300000; 1])
                        (client_of (clearAllCache warm_client warm_world))
                        (world_of (clearAllCache warm_client warm_world))))
          (world_of (run_calls sample_stringify sample_query always_ok
                        (List.map Elapse [300000; 1])
                        (client_of (clearAllCache warm_client warm_world))
                        (world_of (clearAllCache warm_client warm_world))))) =
     Ok {| entries := 0; keys := []; totalSize := 2 |}.
Proof.
  destruct (proj1 (C8_clearAllCache sample_stringify sample_query always_ok)
              warm_client warm_world warm_state_wf) as [H1 H2].
  split; [vm_compute; reflexivity|].
  split; [exact (proj2 (C8_clearAllCache sample_stringify sample_query always_ok)
                   "GET:/x:" client0 world0 (wf_world0 no_options) eq_refl)|].
  split; [exact H1|].
  exact (proj1 (H2 [300000; 1])).
Defined.

Lemma C10_witness :
  tokenExpiryTime
    (client_of (run_calls sample_stringify sample_query always_ok
       [CallSetAuthToken "secret" None; CallGet "/x" emptyConfig;
        CallPost "/y" None emptyConfig; Elapse 5000; CallRequest "/x" emptyConfig]
       (constructor (mkOptions None None None None None None (Some "refresh-me") None))
       world0)) = None
  /\ warnings
       (trace (world_of (run_calls sample_stringify sample_query always_ok
          [CallSetAuthToken "secret" None; CallGet "/x" emptyConfig;
           CallPost "/y" None emptyConfig; Elapse 5000; CallRequest "/x" emptyConfig]
          (constructor (mkOptions None None None None None None (Some "refresh-me") None))
          world0))) = [].
Proof.
  exact (proj1 (C10_no_refresh_without_expiry sample_stringify sample_query always_ok)
               (mkOptions None None None None None None (Some "refresh-me") None)
               [CallSetAuthToken "secret" None; CallGet "/x" emptyConfig;
                CallPost "/y" None emptyConfig; Elapse 5000; CallRequest "/x" emptyConfig]
               world0 eq_refl).
Defined.


(** ** Runs of the further properties *)

Lemma retries_are_exhausted_witness :
  outcome (retryRequest sample_stringify sample_query always_503 "/x" emptyConfig 0
             client1 world0) = Throw error_503
  /\ fetches (world_of (retryRequest sample_stringify sample_query always_503 "/x"
                          emptyConfig 0 client1 world0)) =
       (fetches world0 + S (Z.to_nat (maxRetries client1)))%nat
  /\ delays (trace (world_of (retryRequest sample_stringify sample_query always_503 "/x"
                                emptyConfig 0 client1 world0))) =
       delays (trace world0) ++ backoff client1 0 (Z.to_nat (maxRetries client1)).
Proof.
  assert (Hrq : total (requestInterceptors client1)).
  { repeat constructor. intros x. eexists. reflexivity. }
  assert (Hser : serialisable sample_query emptyConfig) by (exists None; reflexivity).
  exact (retries_are_exhausted sample_stringify sample_query always_503 "/x" emptyConfig
           client1 world0 error_503 Hser Hrq (fun _ _ => eq_refl) eq_refl).
Defined.

Lemma null_body_error_is_retried_witness :
  handleResponse null_404 = Throw (plain_error MsgTypeError)
  /\ outcome (retryRequest sample_stringify sample_query always_null_404 "/x" emptyConfig 0
                client1 world0) = Throw (plain_error MsgTypeError)
  /\ fetches (world_of (retryRequest sample_stringify sample_query always_null_404 "/x"
                          emptyConfig 0 client1 world0)) =
       (fetches world0 + S (Z.to_nat (maxRetries client1)))%nat.
Proof.
  assert (Hrq : total (requestInterceptors client1)).
  { repeat constructor. intros x. eexists. reflexivity. }
  assert (Hser : serialisable sample_query emptyConfig) by (exists None; reflexivity).
  exact (null_body_error_is_retried sample_stringify sample_query always_null_404 "/x"
           emptyConfig client1 world0 null_404 Hser Hrq (fun _ _ => eq_refl) eq_refl eq_refl).
Defined.

Lemma zero_maxRetries_still_retries_witness :
  maxRetries (constructor zero_retries) = 3
  /\ outcome (retryRequest sample_stringify sample_query always_503 "/x" emptyConfig 0
                (constructor zero_retries) world0) = Throw error_503
  /\ fetches (world_of (retryRequest sample_stringify sample_query always_503 "/x"
                          emptyConfig 0 (constructor zero_retries) world0)) =
       (fetches world0 + 4)%nat.
Proof.
  assert (Hser : serialisable sample_query emptyConfig) by (exists None; reflexivity).
  exact (zero_maxRetries_still_retries sample_stringify sample_query always_503 zero_retries
           "/x" emptyConfig world0 error_503 (or_introl eq_refl) Hser (fun _ _ => eq_refl)
           eq_refl).
Defined.

Lemma announced_wait_is_enough_witness :
  outcome (checkRateLimit spent_client spent_world) =
    Throw (rate_limit_error spent_client (now spent_world) 1000000)
  /\ outcome (checkRateLimit (client_of (checkRateLimit spent_client spent_world))
                             world_later) = Ok tt.
Proof.
  apply (announced_wait_is_enough spent_client spent_world world_later 1000000).
  - vm_compute. discriminate.
  - vm_compute. discriminate.
  - vm_compute. discriminate.
  - reflexivity.
  - vm_compute. discriminate.
Defined.

Lemma timer_tables_stay_consistent_witness :
  wf (client_of (run_calls sample_stringify sample_query always_ok
                   [CallRequest "/x" emptyConfig; Elapse 1000; CallGet "/y" emptyConfig;
                    CallClearCache "GET:/x:"]
                   (constructor no_options) world0))
     (world_of (run_calls sample_stringify sample_query always_ok
                   [CallRequest "/x" emptyConfig; Elapse 1000; CallGet "/y" emptyConfig;
                    CallClearCache "GET:/x:"]
                   (constructor no_options) world0)).
Proof.
  refine (proj1 (timer_tables_stay_consistent sample_stringify sample_query always_ok
                   no_options _ world0 _)).
  intros id due a H. cbn in H. by rewrite lookup_empty in H.
Defined.

Lemma other_keys_are_untouched_witness :
  JsMap.get "GET:/x:"
    (cache (client_of (setCache "GET:/y:" ok_envelope None warm_client warm_world))) =
  JsMap.get "GET:/x:" (cache warm_client).
Proof.
  refine (proj1 (proj1 (other_keys_are_untouched "GET:/y:" "GET:/x:" ok_envelope None
                          warm_client warm_world _ warm_state_wf))).
  discriminate.
Defined.

Lemma stored_entry_lives_for_its_ttl_witness :
  JsMap.get "GET:/x:"
    (cache (client_of (elapsed 1000
       (setCache "GET:/x:" ok_envelope (Some 5000) warm_client warm_world)))) =
  Some ok_envelope.
Proof.
  refine (proj1 (stored_entry_lives_for_its_ttl "GET:/x:" ok_envelope (Some 5000)
                   warm_client warm_world 1000 warm_state_wf _) _).
  - vm_compute. discriminate.
  - reflexivity.
Defined.

Lemma stored_response_is_served_witness :
  outcome (request sample_stringify sample_query always_ok "/x" emptyConfig
             (client_of (elapsed 1000
                (request sample_stringify sample_query always_ok "/x" emptyConfig
                         client0 world0)))
             (world_of (elapsed 1000
                (request sample_stringify sample_query always_ok "/x" emptyConfig
                         client0 world0)))) =
    Ok (served_from_cache ok_envelope)
  /\ fetches (world_of (request sample_stringify sample_query always_ok "/x" emptyConfig
             (client_of (elapsed 1000
                (request sample_stringify sample_query always_ok "/x" emptyConfig
                         client0 world0)))
             (world_of (elapsed 1000
                (request sample_stringify sample_query always_ok "/x" emptyConfig
                         client0 world0))))) =
     fetches (world_of (elapsed 1000
                (request sample_stringify sample_query always_ok "/x" emptyConfig
                         client0 world0))).
Proof.
  apply (stored_response_is_served sample_stringify sample_query always_ok "/x" emptyConfig
           client0 world0 ok_envelope 1000).
  - reflexivity.
  - apply wf_world0.
  - reflexivity.
  - vm_compute. reflexivity.
  - split; [vm_compute; discriminate|reflexivity].
  - vm_compute. reflexivity.
Defined.

Lemma failed_request_caches_nothing_witness :
  r_nowrite (warm_client, warm_world)
    (client_of (request sample_stringify sample_query always_503 "/y" emptyConfig
                  warm_client warm_world),
     world_of (request sample_stringify sample_query always_503 "/y" emptyConfig
                  warm_client warm_world)).
Proof.
  apply (failed_request_caches_nothing sample_stringify sample_query always_503 "/y"
           emptyConfig warm_client warm_world error_503).
  vm_compute. reflexivity.
Defined.

Lemma cache_ignores_headers_body_and_token_witness :
  outcome (request sample_stringify sample_query always_ok "/x" other_config
             (client_of (setAuthToken "secret" None warm_client warm_world))
             (world_of (setAuthToken "secret" None warm_client warm_world))) =
    Ok (served_from_cache ok_envelope)
  /\ fetches (world_of (request sample_stringify sample_query always_ok "/x" other_config
             (client_of (setAuthToken "secret" None warm_client warm_world))
             (world_of (setAuthToken "secret" None warm_client warm_world)))) =
     fetches warm_world.
Proof.
  apply (cache_ignores_headers_body_and_token sample_stringify sample_query always_ok "/x"
           emptyConfig other_config "secret" None warm_client warm_world ok_envelope).
  - reflexivity.
  - reflexivity.
  - reflexivity.
  - vm_compute. reflexivity.
  - vm_compute. reflexivity.
Defined.

Lemma stopped_attempt_is_retried_witness :
  (outcome (retryRequest sample_stringify sample_query always_ok "/x" emptyConfig 0
              refusing_client world0) = Throw (plain_error (MsgText "refused"))
   /\ fetches (world_of (retryRequest sample_stringify sample_query always_ok "/x"
                           emptyConfig 0 refusing_client world0)) = fetches world0
   /\ delays (trace (world_of (retryRequest sample_stringify sample_query always_ok "/x"
                                 emptyConfig 0 refusing_client world0))) =
        delays (trace world0) ++
        backoff refusing_client 0 (Z.to_nat (maxRetries refusing_client)))
  /\ (outcome (retryRequest sample_stringify strict_query always_ok "/x" bad_params_config 0
                 client1 world0) = Throw (plain_error MsgTypeError)
      /\ fetches (world_of (retryRequest sample_stringify strict_query always_ok "/x"
                              bad_params_config 0 client1 world0)) = fetches world0
      /\ delays (trace (world_of (retryRequest sample_stringify strict_query always_ok "/x"
                                    bad_params_config 0 client1 world0))) =
           delays (trace world0) ++ backoff client1 0 (Z.to_nat (maxRetries client1))).
Proof.
  assert (Hser : serialisable sample_query emptyConfig) by (exists None; reflexivity).
  split.
  - exact (stopped_attempt_is_retried sample_stringify sample_query always_ok
             "/x" emptyConfig refusing_client world0 (plain_error (MsgText "refused"))
             (or_introl (conj Hser (fun _ => eq_refl))) eq_refl).
  - exact (stopped_attempt_is_retried sample_stringify strict_query always_ok
             "/x" bad_params_config client1 world0 (plain_error MsgTypeError)
             (or_intror eq_refl) eq_refl).
Defined.

Lemma abort_timers_are_never_cancelled_witness :
  timers (world_of (run_calls sample_stringify sample_query always_ok
                      [CallClearAllCache; CallRequest "/x" emptyConfig; Elapse 1000]
                      warm_client warm_world)) !! 0%nat =
  Some (1030000, TAbort).
Proof.
  apply (abort_timers_are_never_cancelled sample_stringify sample_query always_ok
           [CallClearAllCache; CallRequest "/x" emptyConfig; Elapse 1000]
           warm_client warm_world 0%nat 1030000 warm_state_wf).
  - vm_compute. reflexivity.
  - vm_compute. reflexivity.
Defined.

Lemma attempt_leaves_its_abort_timer_witness :
  timers (world_of (performRequest sample_stringify sample_query always_ok "/x" emptyConfig
                      client0 world0)) !! nextTimer world0 =
  Some (now world0 + timer_delay (timeout client0), TAbort).
Proof.
  refine (proj1 (attempt_leaves_its_abort_timer sample_stringify sample_query always_ok "/x"
                   emptyConfig client0 world0 (wf_world0 no_options) _)).
  vm_compute. reflexivity.
Defined.

Lemma reset_time_frees_a_slot_witness :
  exists s,
    outcome (getRateLimitStatus spent_client spent_world) = Ok s
    /\ (resetTime s <= now world_later -> outcome (checkRateLimit spent_client world_later) = Ok tt).
Proof.
  apply (reset_time_frees_a_slot spent_client spent_world world_later 1000000).
  - vm_compute. discriminate.
  - vm_compute. discriminate.
  - reflexivity.
  - vm_compute. discriminate.
Defined.

Lemma cleared_key_never_expires_witness :
  JsMap.get "GET:/x:" (cache (client_of (clearCache "GET:/x:" warm_client warm_world))) = None
  /\ (forall id due,
        timers (world_of (clearCache "GET:/x:" warm_client warm_world)) !! id <>
        Some (due, TExpire "GET:/x:"))
  /\ exists l,
       expiries (trace (world_of (run_calls sample_stringify sample_query always_ok
                                    (List.map Elapse [1000; 400000])
                                    (client_of (clearCache "GET:/x:" warm_client warm_world))
                                    (world_of (clearCache "GET:/x:" warm_client warm_world))))) =
         expiries (trace warm_world) ++ l
       /\ ("GET:/x:" ∉ l).
Proof.
  exact (cleared_key_never_expires sample_stringify sample_query always_ok "GET:/x:"
           [1000; 400000] warm_client warm_world warm_state_wf).
Defined.

Lemma warning_starts_a_minute_before_expiry_witness :
  warnings (trace (world_of (request sample_stringify sample_query always_ok "/x" emptyConfig
                               (client_of (setRefreshToken "r" (Some 120000) client0 world0))
                               world_later))) =
    warnings (trace world_later) ++
    (if now world0 + 120000 - 60000 <? now world_later then [refresh_warning] else []).
Proof.
  apply (warning_starts_a_minute_before_expiry sample_stringify sample_query always_ok
           "r" (Some 120000) "/x" emptyConfig client0 world0 world_later).
  - discriminate.
  - vm_compute. discriminate.
Defined.
